(** * dblock: coordinated one-time schema upgrade over a shared database

    A verification model of [dblock/dblock.go].

    The Go package talks to a PostgreSQL server through [database/sql] and
    to the clock through [time].  The functions of the package are embedded
    as programs over an explicit instruction set (one instruction per
    statement the package sends, per clock access and per log line), and
    the server, the clock and the other instances are given a semantics
    of their own:

    - [Module Go] has the values of Go the package handles;
    - [Module Sql] is the server: the [schema_version] table, the rest of
      the database, the advisory-lock table and the open transactions;
    - [Module Dblock] is the package, function by function;
    - [Module Seq] runs one call against a server whose other clients and
      whose failures are scripted by an environment;
    - [Module Timed] runs one call the same way, with the time each
      statement takes and the time each sleep overshoots set by the
      environment too;
    - [Module Conc] interleaves several calls statement by statement.

    Modelling decisions, all of them about what lies outside the package:

    - a [*sql.DB] handle stands for one server session (the package takes
      and releases a session-level advisory lock through it, which is
      meaningful only under that reading);
    - Go's [int] is 64 bits wide; [baseLockID + targetVersion] wraps;
    - a [time.Time] is a number of nanoseconds, a [time.Duration] too;
      in [Seq] only [time.Sleep] makes time pass, in [Timed] statements
      take time as well and a sleep may last longer than asked: what is
      said about how long a call takes is said in [Timed];
    - an [error] is kept as the format string and the arguments given to
      [fmt.Errorf], not as the rendered text;
    - a statement fails when the environment says so, for whatever reason
      a driver may have;
    - a migration callback works on the application's tables and leaves
      the [schema_version] table to the package. *)

From Stdlib Require Import ZArith Lia List String Bool.
From stdpp Require Import base option gmap.
Import ListNotations.
Open Scope string_scope.
Open Scope list_scope.
Open Scope Z_scope.

(** ** Go values *)

Module Go.

(** [int] on a 64-bit platform: two's complement wrap-around. *)
Definition wrap (z : Z) : Z := (z + 2 ^ 63) mod 2 ^ 64 - 2 ^ 63.
Definition add (a b : Z) : Z := wrap (a + b).
Definition in_int (z : Z) : Prop := - 2 ^ 63 <= z < 2 ^ 63.

Set Warnings "-register-all".

(** Arguments of [fmt.Errorf] and of the [log] functions. *)
Inductive Value (E : Type) : Type :=
| VInt (n : Z)
| VDuration (d : Z)
| VStr (s : string)
| VErr (e : E).
Arguments VInt {E} n.
Arguments VDuration {E} d.
Arguments VStr {E} s.
Arguments VErr {E} e.

(** A non-nil [error] value. [External] is an error made outside the
    package (by the driver or by the migration callback); [Errorf] is
    [fmt.Errorf format v...]. *)
Inductive Error : Type :=
| External (msg : string)
| Errorf (format : string) (v : list (Value Error)).

(** The [error] interface: [None] is [nil]. *)
Definition error : Type := option Error.

Definition format_of (e : Error) : string :=
  match e with
  | External _ => EmptyString
  | Errorf f _ => f
  end.

(** One call of [log.Printf] or [log.Println]. *)
Inductive LogLine : Type :=
| Printf (format : string) (v : list (Value Error))
| Println (v : list (Value Error)).

End Go.
Import Go.

(** ** The database server *)

Module Sql.

(** A session of the server; a [*sql.DB] handle is one session. *)
Abbreviation DB := nat.

(** A [*sql.Tx]: the session the transaction is open on. *)
Record Tx : Type := mkTx { tx_conn : DB }.

(** The rest of the database, which the migration callbacks work on:
    the names of the schema objects present. *)
Definition AppData : Type := list string.

(** Database content. [schema_version] holds the rows of the table of
    that name, in scan order; the empty list stands both for a table
    without rows and for a table not created yet (the package cannot tell
    them apart: its first statement creates and seeds either). *)
Record Content : Type := mkContent {
  schema_version : list Z;
  app : AppData
}.

(** What a reader finds as the schema version: the first row, and 0 when
    there is none, the value the table is seeded with on first use. *)
Definition persisted_version (c : Content) : Z :=
  match schema_version c with
  | v :: _ => v
  | [] => 0
  end.

(** The migration callback, a Go [func] from [*sql.Tx] to [error]: what
    it does to the application's part of the content its transaction
    sees, and what it returns. The [schema_version] table is the
    package's own; a migration does not touch it. *)
Definition Callback : Type := AppData -> AppData * error.

(** Server state. An advisory lock is held by one session, a number of
    times (requests of the holder stack); a transaction open on a
    session has its own working copy of the content. *)
Record Server : Type := mkServer {
  committed : Content;
  locks : gmap Z (DB * positive);
  open_tx : gmap DB Content
}.

(** The statements the package sends, indexed by what the Go call
    returns. *)
Inductive Request : Type -> Type :=
(* db.Exec(CREATE TABLE IF NOT EXISTS schema_version ...; INSERT ... WHERE NOT EXISTS ...) *)
| ExecInit (db : DB) : Request error
(* db.QueryRow(SELECT version FROM schema_version).Scan(&version) *)
| QueryVersion (db : DB) : Request (Z * error)
(* db.QueryRow(SELECT pg_try_advisory_lock($1), lockID).Scan(&acquired) *)
| QueryTryLock (db : DB) (lockID : Z) : Request (bool * error)
(* db.Exec(SELECT pg_advisory_unlock($1), lockID) *)
| ExecUnlock (db : DB) (lockID : Z) : Request error
(* db.Begin() *)
| Begin (db : DB) : Request (Tx * error)
(* upgradeFunc(tx) *)
| Call (upgradeFunc : Callback) (tx : Tx) : Request error
(* tx.Exec(UPDATE schema_version SET version = $1, newVersion) *)
| TxExecUpdate (tx : Tx) (newVersion : Z) : Request error
(* tx.Commit() *)
| Commit (tx : Tx) : Request error
(* tx.Rollback() *)
| Rollback (tx : Tx) : Request error.

Definition ErrNoRows : Error := External "sql: no rows in result set".
Definition ErrTxDone : Error :=
  External "sql: transaction has already been committed or rolled back".

Definition set_committed (c : Content) (s : Server) : Server :=
  mkServer c (locks s) (open_tx s).
Definition set_locks (l : gmap Z (DB * positive)) (s : Server) : Server :=
  mkServer (committed s) l (open_tx s).
Definition set_open_tx (t : gmap DB Content) (s : Server) : Server :=
  mkServer (committed s) (locks s) t.

(** CREATE TABLE IF NOT EXISTS ...; INSERT ... SELECT 0 WHERE NOT EXISTS
    (SELECT 1 FROM schema_version): seeds one row 0 when there is none. *)
Definition seed (c : Content) : Content :=
  match schema_version c with
  | [] => mkContent [0] (app c)
  | _ :: _ => c
  end.

(** UPDATE schema_version SET version = v: every row, there is no WHERE. *)
Definition update_version (v : Z) (c : Content) : Content :=
  mkContent (map (fun _ => v) (schema_version c)) (app c).

(** pg_try_advisory_lock: granted when the lock is free or already held
    by the asking session (then once more), refused otherwise. *)
Definition try_lock (db : DB) (id : Z) (l : gmap Z (DB * positive))
  : bool * gmap Z (DB * positive) :=
  match l !! id with
  | None => (true, <[id := (db, 1%positive)]> l)
  | Some (holder, n) =>
      if Nat.eqb holder db then (true, <[id := (db, Pos.succ n)]> l)
      else (false, l)
  end.

(** pg_advisory_unlock: gives up one hold of the asking session; a
    session that does not hold the lock gets a warning, not an error. *)
Definition unlock (db : DB) (id : Z) (l : gmap Z (DB * positive))
  : gmap Z (DB * positive) :=
  match l !! id with
  | Some (holder, n) =>
      if Nat.eqb holder db then
        match n with
        | xH => delete id l
        | _ => <[id := (db, Pos.pred n)]> l
        end
      else l
  | None => l
  end.

(** The server's answer to one request. [failure] is the error the
    driver reports for it, if it reports one; a statement that failed
    has had no effect, and a failed commit leaves the transaction
    aborted. The callback is not a statement: it never fails by
    [failure], only by what it returns. *)
Definition serve {X : Type} (r : Request X) (failure : error) (s : Server)
  : X * Server :=
  match r in Request X return X * Server with
  | ExecInit db =>
      match failure with
      | Some e => (Some e, s)
      | None => (None, set_committed (seed (committed s)) s)
      end
  | QueryVersion db =>
      match failure with
      | Some e => ((0, Some e), s)
      | None =>
          match schema_version (committed s) with
          | v :: _ => ((v, None), s)
          | [] => ((0, Some ErrNoRows), s)
          end
      end
  | QueryTryLock db id =>
      match failure with
      | Some e => ((false, Some e), s)
      | None =>
          let '(acquired, l) := try_lock db id (locks s) in
          ((acquired, None), set_locks l s)
      end
  | ExecUnlock db id =>
      match failure with
      | Some e => (Some e, s)
      | None => (None, set_locks (unlock db id (locks s)) s)
      end
  | Begin db =>
      match failure with
      | Some e => ((mkTx db, Some e), s)
      | None => ((mkTx db, None),
                 set_open_tx (<[db := committed s]> (open_tx s)) s)
      end
  | Call upgradeFunc tx =>
      match open_tx s !! tx_conn tx with
      | Some c =>
          let '(a, err) := upgradeFunc (app c) in
          (err, set_open_tx (<[tx_conn tx := mkContent (schema_version c) a]> (open_tx s)) s)
      | None => (Some ErrTxDone, s)
      end
  | TxExecUpdate tx v =>
      match open_tx s !! tx_conn tx, failure with
      | Some c, None =>
          (None, set_open_tx (<[tx_conn tx := update_version v c]> (open_tx s)) s)
      | Some _, Some e => (Some e, s)
      | None, _ => (Some ErrTxDone, s)
      end
  | Commit tx =>
      match open_tx s !! tx_conn tx, failure with
      | Some c, None =>
          (None, set_committed c (set_open_tx (delete (tx_conn tx) (open_tx s)) s))
      | Some _, Some e =>
          (Some e, set_open_tx (delete (tx_conn tx) (open_tx s)) s)
      | None, _ => (Some ErrTxDone, s)
      end
  | Rollback tx =>
      match open_tx s !! tx_conn tx with
      | Some _ => (failure, set_open_tx (delete (tx_conn tx) (open_tx s)) s)
      | None => (Some ErrTxDone, s)
      end
  end.

End Sql.
Import Sql.

(** ** The package *)

Module Dblock.

(** What a function of the package can do: send a statement, read the
    clock, sleep, write a log line. *)
Inductive Op : Type -> Type :=
| Do {X : Type} (r : Request X) : Op X
| Now : Op Z
| Sleep (d : Z) : Op unit
| Log (l : LogLine) : Op unit.

(** A Go function body: a tree of operations, each continued by what the
    function does with its result. [Spin] is a loop that has not left
    within the number of iterations the tree was unrolled for. *)
Inductive Prog (A : Type) : Type :=
| Ret (a : A)
| Spin
| Vis {X : Type} (op : Op X) (k : X -> Prog A).
Arguments Ret {A} a.
Arguments Spin {A}.
Arguments Vis {A X} op k.

Fixpoint bind {A B : Type} (m : Prog A) (f : A -> Prog B) : Prog B :=
  match m with
  | Ret a => f a
  | Spin => Spin
  | Vis op k => Vis op (fun x => bind (k x) f)
  end.

Definition trigger {X : Type} (op : Op X) : Prog X := Vis op Ret.

Declare Scope prog_scope.
Delimit Scope prog_scope with prog.
Notation "'let*' x ':=' m 'in' k" := (bind m (fun x => k))
  (at level 10, x pattern, m at level 100, k at level 200) : prog_scope.
Notation "m '>>' k" := (bind m (fun _ => k))
  (at level 90, right associativity) : prog_scope.
Open Scope prog_scope.

Definition baseLockID : Z := 6877.
Definition second : Z := 1000000000.
Definition checkInterval : Z := 5 * second.

Definition logErrorf (format : string) (v : list (Value Error)) : Prog Error :=
  let err := Errorf format v in
  trigger (Log (Println [VErr err])) >>
  Ret err.

Definition getSchemaVersion (db : DB) : Prog (Z * error) :=
  let* err := trigger (Do (ExecInit db)) in
  match err with
  | Some err =>
      let* e := logErrorf "Failed to initialize schema_version table: %v" [VErr err] in
      Ret (0, Some e)
  | None =>
      let* (version, err) := trigger (Do (QueryVersion db)) in
      match err with
      | Some err =>
          let* e := logErrorf "Failed to get schema version: %v" [VErr err] in
          Ret (0, Some e)
      | None => Ret (version, None)
      end
  end.

Definition upgradeSchema (db : DB) (newVersion : Z) (upgradeFunc : Callback)
  : Prog error :=
  let* (tx, err) := trigger (Do (Begin db)) in
  match err with
  | Some err =>
      let* e := logErrorf "Failed to start transaction: %w" [VErr err] in
      Ret (Some e)
  | None =>
      let* err := trigger (Do (Call upgradeFunc tx)) in
      match err with
      | Some err =>
          trigger (Do (Rollback tx)) >>
          let* e := logErrorf "Failed to modify schema: %w" [VErr err] in
          Ret (Some e)
      | None =>
          let* err := trigger (Do (TxExecUpdate tx newVersion)) in
          match err with
          | Some err =>
              trigger (Do (Rollback tx)) >>
              let* e := logErrorf "Failed to update schema version: %w" [VErr err] in
              Ret (Some e)
          | None =>
              let* err := trigger (Do (Commit tx)) in
              match err with
              | Some err =>
                  let* e := logErrorf "Failed to commit transaction: %w" [VErr err] in
                  Ret (Some e)
              | None => Ret None
              end
          end
      end
  end.

Definition acquireAdvisoryLock (db : DB) (lockID : Z) : Prog error :=
  let* (acquired, err) := trigger (Do (QueryTryLock db lockID)) in
  match err with
  | Some err =>
      let* e := logErrorf "Failed to check advisory lock: %v" [VErr err] in
      Ret (Some e)
  | None =>
      if negb acquired then
        let* e := logErrorf "Advisory lock is already held by another process!" [] in
        Ret (Some e)
      else Ret None
  end.

Definition releaseAdvisoryLock (db : DB) (lockID : Z) : Prog error :=
  let* err := trigger (Do (ExecUnlock db lockID)) in
  match err with
  | Some err =>
      let* e := logErrorf "Failed to release advisory lock: %w" [VErr err] in
      Ret (Some e)
  | None => Ret None
  end.

(** The [for time.Now().Before(deadline)] loop of [UpgradeIfNeeded] and
    the statement after it, unrolled [fuel] times. *)
Fixpoint waitForPeer (fuel : nat) (db : DB) (targetVersion : Z)
  (deadline timeout : Z) : Prog error :=
  match fuel with
  | O => Spin
  | S fuel =>
      let* now := trigger Now in
      if now <? deadline then
        trigger (Sleep checkInterval) >>
        let* (latestVersion, err) := getSchemaVersion db in
        match err with
        | Some err => Ret (Some err)
        | None =>
            if latestVersion >=? targetVersion then
              trigger (Log (Println [VStr "Schema was upgraded by another instance."])) >>
              Ret None
            else waitForPeer fuel db targetVersion deadline timeout
        end
      else
        let* e := logErrorf "Timeout: schema upgrade was not completed in %v"
                    [VDuration timeout] in
        Ret (Some e)
  end.

(** The part of [UpgradeIfNeeded] that runs with the lock held, from the
    double check to the last [return]; the deferred release follows it. *)
Definition upgradeLocked (db : DB) (targetVersion : Z) (upgradeFunc : Callback)
  : Prog error :=
  let* (latestVersion, err) := getSchemaVersion db in
  match err with
  | Some err => Ret (Some err)
  | None =>
      if latestVersion >=? targetVersion then
        trigger (Log (Println [VStr "Another instance already upgraded the schema."])) >>
        Ret None
      else
        trigger (Log (Printf "Upgrading schema to version %d...\n" [VInt targetVersion])) >>
        let* err := upgradeSchema db targetVersion upgradeFunc in
        match err with
        | Some err => Ret (Some err)
        | None =>
            trigger (Log (Println [VStr "Upgrade complete."])) >>
            Ret None
        end
  end.

Definition UpgradeIfNeeded (fuel : nat) (db : DB) (targetVersion : Z)
  (upgradeFunc : Callback) (timeout : Z) : Prog error :=
  let* (currentVersion, err) := getSchemaVersion db in
  match err with
  | Some err => Ret (Some err)
  | None =>
      if currentVersion >=? targetVersion then
        trigger (Log (Printf "No upgrade needed. Current version: %d\n" [VInt currentVersion])) >>
        Ret None
      else
        let lockID := Go.add baseLockID targetVersion in
        let* err := acquireAdvisoryLock db lockID in
        match err with
        | Some _ =>
            trigger (Log (Println [VStr "Another instance is handling the upgrade."])) >>
            let* now := trigger Now in
            let deadline := now + timeout in
            waitForPeer fuel db targetVersion deadline timeout
        | None =>
            let* result := upgradeLocked db targetVersion upgradeFunc in
            (* defer *)
            releaseAdvisoryLock db lockID >>
            Ret result
        end
  end.

End Dblock.
Import Dblock.

(** ** One call, the rest of the world scripted *)

Module Seq.

(** A commit by another client: an upgrade of some other instance, which
    seeds the table if need be, sets the version and changes the
    application's data. *)
Record PeerCommit : Type := mkPeerCommit {
  peer_version : Z;
  peer_app : AppData -> AppData
}.

Definition commit_of (p : PeerCommit) (c : Content) : Content :=
  mkContent (map (fun _ => peer_version p) (schema_version (seed c)))
            (peer_app p (app c)).

(** The environment of a call, indexed by the requests the call makes,
    in order: [fault n] is the failure the driver reports for the n-th
    request (if any), and [peer n] is what another client has committed
    since the call last looked at the content, when the n-th request
    looks at it. *)
Record Env : Type := mkEnv {
  fault : nat -> error;
  peer : nat -> option PeerCommit
}.

(** What the call did to the outside, in order. *)
Inductive Event : Type :=
| Sent {X : Type} (r : Request X)
| Slept (d : Z).

(** The world a call runs in. Log lines are not part of it. In this
    module the clock counts the time the call has asked to sleep: a
    statement is answered at once and a sleep ends on time. What the
    call does then depends on the clock only through the guard of its
    wait; how long a call takes when statements take time is the
    matter of [Timed] below. *)
Record World : Type := mkWorld {
  server : Server;
  clock : Z;
  tick : nat;
  env : Env;
  trace : list Event
}.

(** The requests that look at the committed content. Statements inside
    a transaction work on its own copy, and the lock functions do not
    look at any table. *)
Definition reads_committed {X : Type} (r : Request X) : bool :=
  match r with
  | ExecInit _ | QueryVersion _ | Begin _ => true
  | _ => false
  end.

Definition arrive {X : Type} (r : Request X) (w : World) : Server :=
  match reads_committed r, peer (env w) (tick w) with
  | true, Some p => set_committed (commit_of p (committed (server w))) (server w)
  | _, _ => server w
  end.

Definition request {X : Type} (r : Request X) (w : World) : X * World :=
  let '(x, s) := serve r (fault (env w) (tick w)) (arrive r w) in
  (x, mkWorld s (clock w) (S (tick w)) (env w) (trace w ++ [Sent r])).

(** [time.Sleep d] returns at once when [d] is not positive. *)
Definition sleep (d : Z) (w : World) : World :=
  mkWorld (server w) (clock w + Z.max 0 d) (tick w) (env w) (trace w ++ [Slept d]).

Definition perform {X : Type} (op : Op X) (w : World) : X * World :=
  match op in Op X return X * World with
  | Do r => request r w
  | Now => (clock w, w)
  | Sleep d => (tt, sleep d w)
  | Log _ => (tt, w)
  end.

Inductive Outcome (A : Type) : Type :=
| Done (a : A) (w : World)
| Unfinished.
Arguments Done {A} a w.
Arguments Unfinished {A}.

Fixpoint run {A : Type} (p : Prog A) (w : World) : Outcome A :=
  match p with
  | Ret a => Done a w
  | Spin => Unfinished
  | Vis op k => let '(x, w') := perform op w in run (k x) w'
  end.

(** A quiet environment: nothing fails, nobody else commits. *)
Definition quiet : Env := mkEnv (fun _ => None) (fun _ => None).

Definition start (s : Server) (now : Z) (e : Env) : World :=
  mkWorld s now 0 e [].

End Seq.
Import Seq.


(** ** One call, with the time its statements take *)

Module Timed.

(** In [Seq] the clock stands still while a statement is answered, and
    a sleep lasts exactly as long as asked. Here the call runs at a
    pace the environment sets: time passes while a request is answered
    and while the call sleeps, and the time the Go code needs between
    two of these is counted with the one before. [latency n] is the
    time the n-th request of the call takes, and [oversleep n] is the
    time by which a sleep begun after [n] requests lasts longer than
    asked ([time.Sleep] pauses for at least the duration). Entries
    below zero count as zero. The server, the failures and the peers
    are those of [Seq]. *)
Record Pace : Type := mkPace {
  latency : nat -> Z;
  oversleep : nat -> Z
}.

(** Statements answered at once, sleeps that end on time. *)
Definition instant : Pace := mkPace (fun _ => 0) (fun _ => 0).

Definition request (pc : Pace) {X : Type} (r : Request X) (w : World) : X * World :=
  let '(x, s) := serve r (fault (env w) (tick w)) (arrive r w) in
  (x, mkWorld s (clock w + Z.max 0 (latency pc (tick w))) (S (tick w)) (env w)
        (trace w ++ [Sent r])).

Definition sleep (pc : Pace) (d : Z) (w : World) : World :=
  mkWorld (server w) (clock w + Z.max 0 d + Z.max 0 (oversleep pc (tick w)))
    (tick w) (env w) (trace w ++ [Slept d]).

Definition perform (pc : Pace) {X : Type} (op : Op X) (w : World) : X * World :=
  match op in Op X return X * World with
  | Do r => request pc r w
  | Now => (clock w, w)
  | Sleep d => (tt, sleep pc d w)
  | Log _ => (tt, w)
  end.

Fixpoint run (pc : Pace) {A : Type} (p : Prog A) (w : World) : Outcome A :=
  match p with
  | Ret a => Done a w
  | Spin => Unfinished
  | Vis op k => let '(x, w') := perform pc op w in run pc (k x) w'
  end.

End Timed.

(** The lock a call for [targetVersion] takes. *)
Definition lockID_of (targetVersion : Z) : Z := Go.add baseLockID targetVersion.

(** How many elements of a list pass a test. *)
Definition count {A : Type} (p : A -> bool) (l : list A) : nat :=
  length (List.filter p l).

(** ** Several calls at once *)

Module Conc.

(** The instances of the service run one call each, instance [i] on
    handle [i], and the server answers their requests one at a time, in
    any order. A step of the system is one operation of one instance;
    the scheduler picks the instance, says whether the driver reports a
    failure for the request, and what the clock shows. Sleeping takes
    one step and the clock is not tied to it: every run of the real
    instances is a run of this system. *)
Record Choice : Type := mkChoice {
  who : nat;
  failure : error;
  now : Z
}.

(** A request that was answered: by whom, what, and the answer. *)
Inductive Answered : Type :=
| Got (i : nat) {X : Type} (r : Request X) (x : X).

Record System : Type := mkSystem {
  srv : Server;
  procs : list (Prog error);
  history : list Answered
}.

Definition advance {X : Type} (c : Choice) (op : Op X) (s : Server)
  : X * Server * list Answered :=
  match op in Op X return X * Server * list Answered with
  | Do r => let '(x, s') := serve r (failure c) s in (x, s', [Got (who c) r x])
  | Now => (now c, s, [])
  | Sleep _ => (tt, s, [])
  | Log _ => (tt, s, [])
  end.

Definition step (c : Choice) (sys : System) : System :=
  match procs sys !! who c with
  | Some (Vis op k) =>
      let '(x, s, evs) := advance c op (srv sys) in
      mkSystem s (<[who c := k x]> (procs sys)) (history sys ++ evs)
  | _ => sys
  end.

Definition exec (cs : list Choice) (sys : System) : System :=
  fold_left (fun s c => step c s) cs sys.

(** What one instance calls [UpgradeIfNeeded] with, the handle and the
    target apart. *)
Record Instance : Type := mkInstance {
  inst_fuel : nat;
  inst_func : Callback;
  inst_timeout : Z
}.

Definition launch (targetVersion : Z) (i : nat) (a : Instance) : Prog error :=
  UpgradeIfNeeded (inst_fuel a) i targetVersion (inst_func a) (inst_timeout a).

(** All instances about to call, for the same target. *)
Definition boot (s : Server) (targetVersion : Z) (insts : list Instance) : System :=
  mkSystem s (imap (launch targetVersion) insts) [].

Definition is_run (e : Answered) : bool :=
  match e with
  | Got _ r _ => match r with Call _ _ => true | _ => false end
  end.

Definition is_commit (e : Answered) : bool :=
  match e with
  | Got _ r x =>
      match r in Request X return X -> bool with
      | Commit _ => fun x => match x with None => true | Some _ => false end
      | _ => fun _ => false
      end x
  end.

(** A transaction that ended without effect: rolled back, or its commit
    failed. *)
Definition is_abort (e : Answered) : bool :=
  match e with
  | Got _ r x =>
      match r in Request X return X -> bool with
      | Commit _ => fun x => match x with None => false | Some _ => true end
      | Rollback _ => fun _ => true
      | _ => fun _ => false
      end x
  end.

(** Where a call is in the protocol: without the lock; with it; with it
    and a version read under it that is below the target; in its
    transaction before the callback, after the callback, after the
    version update. *)
Inductive Phase : Type := Idle | Held | Checked | Begun | Called | Updated.

Definition in_tx (ph : Phase) : bool :=
  match ph with
  | Begun | Called | Updated => true
  | _ => false
  end.

Definition has_run (ph : Phase) : bool :=
  match ph with
  | Called | Updated => true
  | _ => false
  end.

Definition below (ph : Phase) : bool :=
  match ph with
  | Checked | Begun | Called | Updated => true
  | _ => false
  end.

(** The discipline of the protocol: the phase a request and its answer
    lead to, if the request may be made in the phase at all. Instance
    [i] only uses its own handle and the lock of the target. *)
Definition next {X : Type} (i : nat) (targetVersion : Z) (ph : Phase)
  (r : Request X) : X -> option Phase :=
  match r in Request X return X -> option Phase with
  | ExecInit db => fun _ =>
      if Nat.eqb db i then
        match ph with Idle => Some Idle | Held => Some Held | _ => None end
      else None
  | QueryVersion db => fun x =>
      if Nat.eqb db i then
        match ph with
        | Idle => Some Idle
        | Held =>
            match x with
            | (v, None) => if v <? targetVersion then Some Checked else Some Held
            | (_, Some _) => Some Held
            end
        | _ => None
        end
      else None
  | QueryTryLock db id => fun x =>
      if Nat.eqb db i && Z.eqb id (lockID_of targetVersion) then
        match ph with
        | Idle => match x with (true, None) => Some Held | _ => Some Idle end
        | _ => None
        end
      else None
  | ExecUnlock db id => fun _ =>
      if Nat.eqb db i && Z.eqb id (lockID_of targetVersion) then
        match ph with Held => Some Idle | _ => None end
      else None
  | Begin db => fun x =>
      if Nat.eqb db i then
        match ph with
        | Checked => match snd x with None => Some Begun | Some _ => Some Held end
        | _ => None
        end
      else None
  | Call _ tx => fun _ =>
      if Nat.eqb (tx_conn tx) i then
        match ph with Begun => Some Called | _ => None end
      else None
  | TxExecUpdate tx v => fun x =>
      if Nat.eqb (tx_conn tx) i && Z.eqb v targetVersion then
        match ph with
        | Called => match x with None => Some Updated | Some _ => Some Called end
        | _ => None
        end
      else None
  | Commit tx => fun _ =>
      if Nat.eqb (tx_conn tx) i then
        match ph with Updated => Some Held | _ => None end
      else None
  | Rollback tx => fun _ =>
      if Nat.eqb (tx_conn tx) i then
        match ph with Called => Some Held | _ => None end
      else None
  end.

(** The answers the server can give: [Begin] on a handle returns the
    transaction of that handle. *)
Definition plausible {X : Type} (r : Request X) : X -> Prop :=
  match r in Request X return X -> Prop with
  | Begin db => fun x => fst x = mkTx db
  | _ => fun _ => True
  end.

Definition op_follows {X : Type} (i : nat) (targetVersion : Z) (ph : Phase)
  (op : Op X) (K : X -> Phase -> Prop) : Prop :=
  match op in Op X return (X -> Phase -> Prop) -> Prop with
  | Do r => fun K =>
      forall x, plausible r x ->
        exists ph', next i targetVersion ph r x = Some ph' /\ K x ph'
  | Now => fun K => forall t, K t ph
  | Sleep _ => fun K => K tt ph
  | Log _ => fun K => K tt ph
  end K.

(** A program follows the discipline from phase [ph] on, whatever the
    answers, and returns in a phase and with a result that satisfy [Q]. *)
Fixpoint follows {A : Type} (i : nat) (targetVersion : Z)
  (Q : A -> Phase -> Prop) (ph : Phase) (p : Prog A) : Prop :=
  match p with
  | Ret a => Q a ph
  | Spin => True
  | Vis op k =>
      op_follows i targetVersion ph op
        (fun x ph' => follows i targetVersion Q ph' (k x))
  end.

(** A call is over when it has returned without the lock. *)
Definition returns_idle (_ : error) (ph : Phase) : Prop := ph = Idle.

(** What holds of the server and of the history at every moment,
    [phases] telling where each instance is: an instance that is not
    idle holds the lock; it has a transaction open exactly from [Begin]
    to [Commit] or [Rollback], with the table in it not empty and, once
    updated, at the target; while an instance has checked the version
    under the lock, the committed version is below the target; after a
    commit it is not; and every run of the callback is accounted for by
    a commit, by a transaction that ended without effect, or by an
    instance that is still in its transaction. *)
Record ServerInv (targetVersion : Z) (phases : list Phase) (s : Server)
  (h : list Answered) : Prop := mkServerInv {
  inv_lock : forall i ph,
    phases !! i = Some ph -> ph <> Idle ->
    exists n, locks s !! lockID_of targetVersion = Some (i, n);
  inv_tx_open : forall i ph,
    phases !! i = Some ph -> in_tx ph = true ->
    exists c, open_tx s !! i = Some c
              /\ schema_version c <> []
              /\ (ph = Updated -> persisted_version c = targetVersion);
  inv_tx_closed : forall i ph,
    phases !! i = Some ph -> in_tx ph = false ->
    open_tx s !! i = None;
  inv_below : forall i ph,
    phases !! i = Some ph -> below ph = true ->
    persisted_version (committed s) < targetVersion
    /\ schema_version (committed s) <> [];
  inv_commits :
    count is_commit h = 0%nat
    \/ (count is_commit h = 1%nat
        /\ targetVersion <= persisted_version (committed s)
        /\ schema_version (committed s) <> []);
  inv_runs :
    count is_run h
    = (count is_commit h + count is_abort h + count has_run phases)%nat
}.

(** What holds of the system at every moment: each instance follows
    the discipline from the phase it is in. *)
Record Inv (targetVersion : Z) (phases : list Phase) (sys : System) : Prop := mkInv {
  inv_length : length phases = length (procs sys);
  inv_follows : forall i p ph,
    procs sys !! i = Some p -> phases !! i = Some ph ->
    follows i targetVersion returns_idle ph p;
  inv_server : ServerInv targetVersion phases (srv sys) (history sys)
}.

(** A server the instances can start on: none of their sessions holds
    the lock of the target or has a transaction open. *)
Definition clean (targetVersion : Z) (n : nat) (s : Server) : Prop :=
  (forall holder k, locks s !! lockID_of targetVersion = Some (holder, k) ->
                    (n <= holder)%nat)
  /\ (forall i, (i < n)%nat -> open_tx s !! i = None).

(** Instance [i] taking every step, [n] times over. *)
Definition solo (i : nat) (n : nat) : list Choice :=
  repeat (mkChoice i None 0) n.

End Conc.
Import Conc.
(** ** The errors of the package, by the call that makes them *)

Definition InitError (cause : Error) : Error :=
  Errorf "Failed to initialize schema_version table: %v" [VErr cause].
Definition VersionQueryError (cause : Error) : Error :=
  Errorf "Failed to get schema version: %v" [VErr cause].
Definition BeginError (cause : Error) : Error :=
  Errorf "Failed to start transaction: %w" [VErr cause].
Definition UpgradeExecutionError (cause : Error) : Error :=
  Errorf "Failed to modify schema: %w" [VErr cause].
Definition VersionUpdateError (cause : Error) : Error :=
  Errorf "Failed to update schema version: %w" [VErr cause].
Definition CommitError (cause : Error) : Error :=
  Errorf "Failed to commit transaction: %w" [VErr cause].
Definition LockCheckError (cause : Error) : Error :=
  Errorf "Failed to check advisory lock: %v" [VErr cause].
Definition LockHeldError : Error :=
  Errorf "Advisory lock is already held by another process!" [].
Definition TimeoutError (timeout : Z) : Error :=
  Errorf "Timeout: schema upgrade was not completed in %v" [VDuration timeout].

(** The world after request [r] has been answered and has left the
    server as [s]. *)
Definition sent {X : Type} (r : Request X) (s : Server) (w : World) : World :=
  mkWorld s (clock w) (S (tick w)) (env w) (trace w ++ [Sent r]).

(** A world in which session 2 holds the lock for target version 1 and
    the table has not been created. *)
Definition contended_server : Server :=
  mkServer (mkContent [] []) {[ lockID_of 1 := (2%nat, 1%positive) ]} ∅.

(** A fresh server: no table, no lock, no transaction. *)
Definition fresh_server : Server := mkServer (mkContent [] []) ∅ ∅.

(** The committed content as a request that arrives in [w] and looks at
    it finds it: a peer may have committed since the call last looked. *)
Definition seen (w : World) : Content :=
  match peer (env w) (tick w) with
  | Some p => commit_of p (committed (server w))
  | None => committed (server w)
  end.

Definition ReleaseError (cause : Error) : Error :=
  Errorf "Failed to release advisory lock: %w" [VErr cause].

(** [UpgradeIfNeeded db targetVersion], called in [w], has read a version
    below the target, has been granted the lock and has read the version
    again: [latestVersion], in [w3]. *)
Inductive double_checked (db : DB) (targetVersion : Z) (w : World)
  (latestVersion : Z) (w3 : World) : Prop :=
| DoubleChecked (currentVersion : Z) (w1 w2 : World) :
    run (getSchemaVersion db) w = Done (currentVersion, None) w1 ->
    currentVersion < targetVersion ->
    run (acquireAdvisoryLock db (lockID_of targetVersion)) w1 = Done None w2 ->
    run (getSchemaVersion db) w2 = Done (latestVersion, None) w3 ->
    double_checked db targetVersion w latestVersion w3.

(** [UpgradeIfNeeded db targetVersion], called in [w], has read a version
    below the target and has not been granted the lock: the request
    ended in the error [e], in [w2]. *)
Inductive not_acquired (db : DB) (targetVersion : Z) (w : World)
  (e : Error) (w2 : World) : Prop :=
| NotAcquired (currentVersion : Z) (w1 : World) :
    run (getSchemaVersion db) w = Done (currentVersion, None) w1 ->
    currentVersion < targetVersion ->
    run (acquireAdvisoryLock db (lockID_of targetVersion)) w1 = Done (Some e) w2 ->
    not_acquired db targetVersion w e w2.

(** One round of the wait that goes on: the deadline has not passed,
    the call sleeps one interval and then reads a version still below
    the target. *)
Inductive poll_miss (db : DB) (targetVersion deadline : Z) (w w' : World) : Prop :=
| PollMiss (latestVersion : Z) :
    clock w < deadline ->
    run (getSchemaVersion db) (sleep checkInterval w) = Done (latestVersion, None) w' ->
    latestVersion < targetVersion ->
    poll_miss db targetVersion deadline w w'.

(** The events of [w'] that [w] did not have yet. *)
Definition since (w w' : World) : list Event :=
  skipn (length (trace w)) (trace w').

Definition is_sleep (e : Event) : bool :=
  match e with
  | Slept _ => true
  | Sent _ => false
  end.

(** A version read is a call of [getSchemaVersion]; each begins with the
    statement that creates and seeds the table, and none sends it twice. *)
Definition is_version_read (e : Event) : bool :=
  match e with
  | Sent r => match r with ExecInit _ => true | _ => false end
  | Slept _ => false
  end.


(** No peer commits anything, at any time. *)
Definition peers_idle (w : World) : Prop :=
  forall n, peer (env w) n = None.

(** The arguments of one call of [UpgradeIfNeeded], with the number of
    rounds its wait is unrolled for. *)
Record CallArgs : Type := mkCall {
  call_fuel : nat;
  call_db : DB;
  call_target : Z;
  call_func : Callback;
  call_timeout : Z
}.

Definition run_call (c : CallArgs) (w : World) : Outcome error :=
  run (UpgradeIfNeeded (call_fuel c) (call_db c) (call_target c)
         (call_func c) (call_timeout c)) w.

(** Calls one after the other, each in the world the previous one left. *)
Fixpoint run_calls (cs : list CallArgs) (w : World) : Outcome (list error) :=
  match cs with
  | [] => Done [] w
  | c :: cs' =>
      match run_call c w with
      | Done r w' =>
          match run_calls cs' w' with
          | Done rs w'' => Done (r :: rs) w''
          | Unfinished => Unfinished
          end
      | Unfinished => Unfinished
      end
  end.

(** ** Worlds and callbacks to run the package on *)

(** A migration that creates one table, and one that fails after
    creating it. *)
Definition create_users : Callback := fun a => ("users" :: a, None).
Definition failing_migration : Callback :=
  fun a => ("users" :: a, Some (External "relation already exists")).

(** Nobody else around, nothing fails, no table yet, the clock at 0. *)
Definition fresh_world : World := start fresh_server 0 quiet.

(** The table holds version 2. *)
Definition upgraded_world : World :=
  start (mkServer (mkContent [2] ["users"]) ∅ ∅) 0 quiet.

(** Session 2 holds the lock for target version 1 and never completes. *)
Definition contended_world : World := start contended_server 0 quiet.

(** A peer commits version 1 while the call is between its first read
    and its second: the fourth request of the call finds it. *)
Definition overtaken_world : World :=
  start fresh_server 0
    (mkEnv (fun _ => None)
           (fun n => if Nat.eqb n 3 then Some (mkPeerCommit 1 (cons "users")) else None)).

(** Session 2 holds the lock, and the sixth request of the call (the
    first statement of its second poll) fails. *)
Definition failing_poll_world : World :=
  start contended_server 0
    (mkEnv (fun n => if Nat.eqb n 5 then Some (External "connection reset") else None)
           (fun _ => None)).

(** Three calls for targets 1, 3 and 2, the last with a migration that
    would fail. *)
Definition three_calls : list CallArgs :=
  [mkCall 0 1 1 create_users 0; mkCall 0 2 3 create_users 0;
   mkCall 0 1 2 failing_migration 0].

(** Two instances whose migration fails, and two whose migration works;
    none of them waits. *)
Definition two_failing : list Instance :=
  [mkInstance 1 failing_migration 0; mkInstance 1 failing_migration 0].
Definition two_working : list Instance :=
  [mkInstance 1 create_users 0; mkInstance 1 create_users 0].

(** Instances 0 and 1 taking turns, [n] steps each. *)
Definition in_turns (n : nat) : list Choice :=
  flat_map (fun _ => [mkChoice 0 None 0; mkChoice 1 None 0]) (seq 0 n).

(** ** More to say about the package *)

(** The events a wait for a peer is made of: sleeps and the two
    statements of a version read. *)
Definition is_poll (e : Event) : bool :=
  match e with
  | Slept _ => true
  | Sent r => match r with ExecInit _ | QueryVersion _ => true | _ => false end
  end.

(** The errors [UpgradeIfNeeded] hands to its caller. *)
Inductive returned_error (timeout : Z) : Error -> Prop :=
| ReturnsInit cause : returned_error timeout (InitError cause)
| ReturnsVersionQuery cause : returned_error timeout (VersionQueryError cause)
| ReturnsTimeout : returned_error timeout (TimeoutError timeout)
| ReturnsBegin cause : returned_error timeout (BeginError cause)
| ReturnsUpgradeExecution cause : returned_error timeout (UpgradeExecutionError cause)
| ReturnsVersionUpdate cause : returned_error timeout (VersionUpdateError cause)
| ReturnsCommit cause : returned_error timeout (CommitError cause).

(** The table holds version 2 and the first request of the call fails. *)
Definition unreachable_world : World :=
  start (mkServer (mkContent [2] ["users"]) ∅ ∅) 0
    (mkEnv (fun n => if Nat.eqb n 0 then Some (External "connection refused") else None)
           (fun _ => None)).

(** The second request of the call, the version query, fails. *)
Definition query_failing_world : World :=
  start (mkServer (mkContent [2] ["users"]) ∅ ∅) 0
    (mkEnv (fun n => if Nat.eqb n 1 then Some (External "connection reset") else None)
           (fun _ => None)).


(** The requests of a transaction: its begin, the callback, and the
    statements sent on it. *)
Definition is_tx_request {X : Type} (r : Request X) : bool :=
  match r with
  | Begin _ | Call _ _ | TxExecUpdate _ _ | Commit _ | Rollback _ => true
  | _ => false
  end.

(** A fresh server, and the tenth request of the call, the unlock after
    its own upgrade, fails. *)
Definition failing_release_world : World :=
  start fresh_server 0
    (mkEnv (fun n => if Nat.eqb n 9 then Some (External "connection reset") else None)
           (fun _ => None)).

(** A fresh server, and the fourth request of the call, the first
    statement of the read under the lock, fails. *)
Definition failing_recheck_world : World :=
  start fresh_server 0
    (mkEnv (fun n => if Nat.eqb n 3 then Some (External "connection reset") else None)
           (fun _ => None)).

(** Session 2 holds the lock and commits version 1 before the second
    poll of the call: its sixth request finds it. *)
Definition peer_upgrades_world : World :=
  start contended_server 0
    (mkEnv (fun _ => None)
           (fun n => if Nat.eqb n 5 then Some (mkPeerCommit 1 (cons "users")) else None)).

(** What a call writes to the log, in order: the lines of its
    [log.Printf] and [log.Println]. *)
Definition log_of {X : Type} (op : Op X) : list LogLine :=
  match op with
  | Log l => [l]
  | _ => []
  end.

Fixpoint logged {A : Type} (p : Prog A) (w : World) : list LogLine :=
  match p with
  | Ret _ => []
  | Spin => []
  | Vis op k => let '(x, w') := perform op w in log_of op ++ logged (k x) w'
  end.

(** ** The call against the clock *)

(** [w] with the clock at [t]. *)
Definition retime (t : Z) (w : World) : World :=
  mkWorld (server w) t (tick w) (env w) (trace w).

(** Programs that only send statements and write to the log: the
    functions of the package other than [UpgradeIfNeeded]. *)
Fixpoint statements_only {A : Type} (p : Prog A) : Prop :=
  match p with
  | Ret _ => True
  | Spin => True
  | Vis op k =>
      match op in Op X return (X -> Prop) -> Prop with
      | Do _ => fun K => forall x, K x
      | Log _ => fun K => K tt
      | Now => fun _ => False
      | Sleep _ => fun _ => False
      end (fun x => statements_only (k x))
  end.

(** [not_acquired], at a pace: the first read and the lock request have
    taken their time, and [w2] is the world the deadline is set in. *)
Inductive timed_not_acquired (pc : Timed.Pace) (db : DB) (targetVersion : Z)
  (w : World) (e : Error) (w2 : World) : Prop :=
| TimedNotAcquired (currentVersion : Z) (w1 : World) :
    Timed.run pc (getSchemaVersion db) w = Done (currentVersion, None) w1 ->
    currentVersion < targetVersion ->
    Timed.run pc (acquireAdvisoryLock db (lockID_of targetVersion)) w1
    = Done (Some e) w2 ->
    timed_not_acquired pc db targetVersion w e w2.

(** Every statement takes one millisecond; sleeps end on time. *)
Definition millisecond : Z := 1000000.
Definition one_ms : Timed.Pace :=
  Timed.mkPace (fun _ => millisecond) (fun _ => 0).
(** * Results *)

(** ** Running programs *)

Arguments try_lock : simpl never.
Arguments unlock : simpl never.
Arguments seed : simpl never.
Arguments commit_of : simpl never.

Lemma run_bind {A B : Type} (m : Prog A) (k : A -> Prog B) (w : World) :
  run (bind m k) w =
  match run m w with
  | Done a w' => run (k a) w'
  | Unfinished => Unfinished
  end.
Proof.
  revert w. induction m as [a| |X op k' IH]; intros w; cbn; try reflexivity.
  destruct (perform op w) as [x w']. apply IH.
Qed.

Lemma run_logErrorf (format : string) (v : list (Value Error)) (w : World) :
  run (logErrorf format v) w = Done (Errorf format v) w.
Proof. reflexivity. Qed.

(** Splitting a conjunction, and nothing else. *)
Ltac conjs := repeat match goal with |- _ /\ _ => split end.

(** Symbolic execution of a program: one request at a time, by cases on
    what the environment holds for it. *)
Ltac exec_step :=
  cbn; unfold request, arrive, sleep; cbn;
  match goal with
  | |- context [fault ?e ?n] => destruct (fault e n) eqn:?
  | |- context [peer ?e ?n] => destruct (peer e n) eqn:?
  | |- context [match ?l with [] => _ | _ :: _ => _ end] => destruct l eqn:?
  end.
Ltac exec := repeat exec_step; cbn.

(** What a version read does to the world, whatever it returns. *)
Lemma getSchemaVersion_frame (db : DB) (w : World) :
  exists r w1,
    run (getSchemaVersion db) w = Done r w1
    /\ locks (server w1) = locks (server w)
    /\ open_tx (server w1) = open_tx (server w)
    /\ clock w1 = clock w
    /\ env w1 = env w
    /\ (trace w1 = trace w ++ [Sent (ExecInit db)] /\ tick w1 = S (tick w)
          /\ (exists e, r = (0, Some (InitError e)))
        \/ trace w1 = trace w ++ [Sent (ExecInit db); Sent (QueryVersion db)]
          /\ tick w1 = S (S (tick w))).
Proof.
  unfold getSchemaVersion. exec.
  all: do 2 eexists; split; [reflexivity|]; do 4 (split; [reflexivity|]).
  all: first [ left; repeat split; eauto; fail
             | right; cbn; rewrite <- app_assoc; split; reflexivity ].
Qed.

(** ** Contents *)

Lemma persisted_version_seed (c : Content) :
  persisted_version (seed c) = persisted_version c.
Proof. destruct c as [[|v l] a]; reflexivity. Qed.

Lemma seed_rows (c : Content) :
  exists v rows, schema_version (seed c) = v :: rows
                 /\ v = persisted_version c.
Proof. destruct c as [[|v rows] a]; cbn; eauto. Qed.

Lemma commit_of_rows (p : PeerCommit) (c : Content) :
  exists rows, schema_version (commit_of p c) = peer_version p :: rows.
Proof.
  unfold commit_of. destruct (seed_rows c) as (v & rows & -> & _). cbn. eauto.
Qed.


Lemma seed_seeded (c : Content) (v : Z) (rows : list Z) :
  schema_version c = v :: rows -> seed c = c.
Proof. unfold seed. intros ->. reflexivity. Qed.


(** A version read that succeeds has sent its two statements, has left
    the locks, the transactions and the clock alone, and has returned the
    first row of the table as it then is. *)
Lemma getSchemaVersion_ok (db : DB) (w : World) (v : Z) (w1 : World) :
  run (getSchemaVersion db) w = Done (v, None) w1 ->
  trace w1 = trace w ++ [Sent (ExecInit db); Sent (QueryVersion db)]
  /\ tick w1 = S (S (tick w))
  /\ locks (server w1) = locks (server w)
  /\ open_tx (server w1) = open_tx (server w)
  /\ clock w1 = clock w
  /\ env w1 = env w
  /\ exists rest, schema_version (committed (server w1)) = v :: rest.
Proof.
  unfold getSchemaVersion. exec; intros H; inversion H; subst; cbn.
  all: rewrite <- app_assoc; repeat split; eauto.
Qed.

(** With no commit of a peer in between, a version read leaves the
    persisted version as it was, whatever it returns. *)
Lemma getSchemaVersion_preserves (db : DB) (w : World) (r : Z * error) (w1 : World) :
  peer (env w) (tick w) = None ->
  peer (env w) (S (tick w)) = None ->
  run (getSchemaVersion db) w = Done r w1 ->
  persisted_version (committed (server w1)) = persisted_version (committed (server w)).
Proof.
  intros P0 P1. unfold getSchemaVersion. cbn. unfold request, arrive. cbn.
  rewrite P0. destruct (fault (env w) (tick w)); cbn.
  - intros H; inversion H; reflexivity.
  - unfold request, arrive. cbn. rewrite P1.
    destruct (fault (env w) (S (tick w))); cbn.
    + intros H; inversion H; cbn. apply persisted_version_seed.
    + destruct (schema_version (seed (committed (server w)))) eqn:E; cbn;
        intros H; inversion H; cbn; apply persisted_version_seed.
Qed.

(** C4. Fast path: when the first version read returns a version that is
    at least the target, [UpgradeIfNeeded] returns [nil] at once, in the
    world the read left: the only statements sent are the two of the
    read (no lock request, no callback, no transaction), the lock table
    and the clock are untouched, and the persisted version is the one
    read, which, peers apart, is the one before the call. *)
Theorem fast_path_no_lock_no_write
  (fuel : nat) (db : DB) (targetVersion : Z) (upgradeFunc : Callback)
  (timeout : Z) (w : World) (currentVersion : Z) (w1 : World) :
  run (getSchemaVersion db) w = Done (currentVersion, None) w1 ->
  targetVersion <= currentVersion ->
  run (UpgradeIfNeeded fuel db targetVersion upgradeFunc timeout) w = Done None w1
  /\ trace w1 = trace w ++ [Sent (ExecInit db); Sent (QueryVersion db)]
  /\ locks (server w1) = locks (server w)
  /\ open_tx (server w1) = open_tx (server w)
  /\ clock w1 = clock w
  /\ persisted_version (committed (server w1)) = currentVersion
  /\ (peer (env w) (tick w) = None -> peer (env w) (S (tick w)) = None ->
      persisted_version (committed (server w)) = currentVersion).
Proof.
  intros Hread Hge.
  destruct (getSchemaVersion_ok _ _ _ _ Hread) as (Ht & _ & Hl & Ho & Hc & _ & rest & Hv).
  assert (Hpv : persisted_version (committed (server w1)) = currentVersion)
    by (unfold persisted_version; rewrite Hv; reflexivity).
  repeat split; auto.
  - unfold UpgradeIfNeeded. rewrite run_bind, Hread. cbn.
    destruct (Z.geb_spec currentVersion targetVersion); [reflexivity | lia].
  - intros P0 P1. rewrite <- Hpv. symmetry.
    eapply getSchemaVersion_preserves; eauto.
Qed.

(** ** Taking and releasing the lock *)

Lemma acquire_query_failure (db : DB) (lockID : Z) (w : World) (e : Error) :
  fault (env w) (tick w) = Some e ->
  run (acquireAdvisoryLock db lockID) w
  = Done (Some (LockCheckError e)) (sent (QueryTryLock db lockID) (server w) w).
Proof.
  intros F. unfold acquireAdvisoryLock. cbn. unfold request, arrive. cbn.
  rewrite F. reflexivity.
Qed.

Lemma acquire_contended (db : DB) (lockID : Z) (w : World) (holder : DB) (n : positive) :
  fault (env w) (tick w) = None ->
  locks (server w) !! lockID = Some (holder, n) ->
  holder <> db ->
  run (acquireAdvisoryLock db lockID) w
  = Done (Some LockHeldError) (sent (QueryTryLock db lockID) (server w) w).
Proof.
  intros F L N. unfold acquireAdvisoryLock. cbn. unfold request, arrive. cbn.
  rewrite F. unfold try_lock. rewrite L.
  destruct (Nat.eqb_spec holder db) as [->|_]; [contradiction|].
  cbn. unfold sent. destruct (server w); reflexivity.
Qed.

Lemma acquire_granted (db : DB) (lockID : Z) (w : World) :
  fault (env w) (tick w) = None ->
  (forall holder n, locks (server w) !! lockID = Some (holder, n) -> holder = db) ->
  exists n,
    run (acquireAdvisoryLock db lockID) w
    = Done None (sent (QueryTryLock db lockID)
                   (set_locks (<[lockID := (db, n)]> (locks (server w))) (server w)) w).
Proof.
  intros F L. unfold acquireAdvisoryLock. cbn. unfold request, arrive. cbn.
  rewrite F. unfold try_lock.
  destruct (locks (server w) !! lockID) as [[holder n]|] eqn:E.
  - rewrite (L _ _ eq_refl), Nat.eqb_refl. eexists; reflexivity.
  - eexists; reflexivity.
Qed.

(** Whatever error the lock request ends in, [UpgradeIfNeeded] goes on
    to wait for a peer, with the deadline taken from the clock then. *)
Lemma UpgradeIfNeeded_not_acquired
  (fuel : nat) (db : DB) (targetVersion : Z) (upgradeFunc : Callback)
  (timeout : Z) (w w1 w2 : World) (currentVersion : Z) (e : Error) :
  run (getSchemaVersion db) w = Done (currentVersion, None) w1 ->
  currentVersion < targetVersion ->
  run (acquireAdvisoryLock db (lockID_of targetVersion)) w1 = Done (Some e) w2 ->
  run (UpgradeIfNeeded fuel db targetVersion upgradeFunc timeout) w
  = run (waitForPeer fuel db targetVersion (clock w2 + timeout) timeout) w2.
Proof.
  intros H1 Hlt H2. unfold UpgradeIfNeeded. rewrite run_bind, H1. cbv beta iota.
  destruct (Z.geb_spec currentVersion targetVersion); [lia|].
  fold (lockID_of targetVersion). rewrite run_bind, H2. reflexivity.
Qed.

(** With the lock taken, [UpgradeIfNeeded] is the locked part followed
    by the deferred release, whose own error is dropped. *)
Lemma UpgradeIfNeeded_acquired
  (fuel : nat) (db : DB) (targetVersion : Z) (upgradeFunc : Callback)
  (timeout : Z) (w w1 w2 : World) (currentVersion : Z) :
  run (getSchemaVersion db) w = Done (currentVersion, None) w1 ->
  currentVersion < targetVersion ->
  run (acquireAdvisoryLock db (lockID_of targetVersion)) w1 = Done None w2 ->
  run (UpgradeIfNeeded fuel db targetVersion upgradeFunc timeout) w
  = match run (upgradeLocked db targetVersion upgradeFunc) w2 with
    | Done result w3 =>
        match run (releaseAdvisoryLock db (lockID_of targetVersion)) w3 with
        | Done _ w4 => Done result w4
        | Unfinished => Unfinished
        end
    | Unfinished => Unfinished
    end.
Proof.
  intros H1 Hlt H2. unfold UpgradeIfNeeded. rewrite run_bind, H1. cbv beta iota.
  destruct (Z.geb_spec currentVersion targetVersion); [lia|].
  fold (lockID_of targetVersion). rewrite run_bind, H2.
  rewrite run_bind.
  destruct (run (upgradeLocked db targetVersion upgradeFunc) w2) as [r w3|]; [|reflexivity].
  rewrite run_bind.
  destruct (run (releaseAdvisoryLock db (lockID_of targetVersion)) w3); reflexivity.
Qed.

(** Releasing after a granted request gives the lock table back as it
    was before the request. *)
Lemma unlock_try_lock (db : DB) (id : Z) (l l' : gmap Z (DB * positive)) :
  try_lock db id l = (true, l') -> unlock db id l' = l.
Proof.
  unfold try_lock, unlock.
  destruct (l !! id) as [[holder n]|] eqn:E.
  - destruct (Nat.eqb_spec holder db) as [->|]; [|discriminate].
    intros H; inversion H; subst; clear H.
    rewrite lookup_insert_eq, Nat.eqb_refl.
    destruct (Pos.succ n) eqn:S;
      try (exfalso; eapply Pos.succ_not_1; eassumption);
      rewrite <- S, Pos.pred_succ, insert_insert_eq; apply insert_id; assumption.
  - intros H; inversion H; subst; clear H.
    rewrite lookup_insert_eq, Nat.eqb_refl. apply delete_insert_id; assumption.
Qed.

Lemma acquire_ok (db : DB) (lockID : Z) (w w2 : World) :
  run (acquireAdvisoryLock db lockID) w = Done None w2 ->
  w2 = sent (QueryTryLock db lockID) (server w2) w
  /\ committed (server w2) = committed (server w)
  /\ open_tx (server w2) = open_tx (server w)
  /\ try_lock db lockID (locks (server w)) = (true, locks (server w2)).
Proof.
  unfold acquireAdvisoryLock. cbn. unfold request, arrive. cbn.
  destruct (fault (env w) (tick w)); cbn; [discriminate|].
  destruct (try_lock db lockID (locks (server w))) as [[|] l] eqn:E; cbn; [|discriminate].
  intros H; inversion H; subst; cbn. repeat split; reflexivity.
Qed.

Lemma release_spec (db : DB) (lockID : Z) (w : World) :
  run (releaseAdvisoryLock db lockID) w =
  match fault (env w) (tick w) with
  | Some e => Done (Some (ReleaseError e)) (sent (ExecUnlock db lockID) (server w) w)
  | None =>
      Done None (sent (ExecUnlock db lockID)
                   (set_locks (unlock db lockID (locks (server w))) (server w)) w)
  end.
Proof.
  unfold releaseAdvisoryLock. cbn. unfold request, arrive. cbn.
  destruct (fault (env w) (tick w)); reflexivity.
Qed.

(** ** The transaction *)

(** One step of symbolic execution under known answers: hypotheses on
    the faults and on the callback are used as they apply. *)
Ltac known_step :=
  cbn; unfold request, arrive, sleep; cbn;
  first
    [ rewrite lookup_insert_eq
    | match goal with
      | H : fault ?e ?n = _ |- context [fault ?e ?n] => rewrite H
      | H : peer ?e ?n = _ |- context [peer ?e ?n] => rewrite H
      | H : ?f ?a = (_, _) |- context [?f ?a] => rewrite H
      end ].
Ltac known := repeat known_step; cbn.

(** The world after a transaction on [db] that was rolled back after
    [n] requests: the content is the one the transaction began on. *)
Lemma upgradeSchema_callback_error
  (db : DB) (newVersion : Z) (upgradeFunc : Callback) (w : World)
  (a : AppData) (e : Error) :
  fault (env w) (tick w) = None ->
  upgradeFunc (app (seen w)) = (a, Some e) ->
  run (upgradeSchema db newVersion upgradeFunc) w
  = Done (Some (UpgradeExecutionError e))
      (mkWorld (mkServer (seen w) (locks (server w)) (delete db (open_tx (server w))))
         (clock w) (3 + tick w) (env w)
         (trace w ++ [Sent (Begin db); Sent (Call upgradeFunc (mkTx db));
                      Sent (Rollback (mkTx db))])).
Proof.
  intros F Hf. unfold upgradeSchema, seen in *.
  destruct (peer (env w) (tick w)) eqn:P; cbn in Hf; known;
    rewrite !delete_insert_eq, <- !app_assoc; reflexivity.
Qed.

Lemma upgradeSchema_success
  (db : DB) (newVersion : Z) (upgradeFunc : Callback) (w : World) (a : AppData) :
  fault (env w) (tick w) = None ->
  upgradeFunc (app (seen w)) = (a, None) ->
  fault (env w) (2 + tick w) = None ->
  fault (env w) (3 + tick w) = None ->
  run (upgradeSchema db newVersion upgradeFunc) w
  = Done None
      (mkWorld (mkServer (update_version newVersion (mkContent (schema_version (seen w)) a))
                  (locks (server w)) (delete db (open_tx (server w))))
         (clock w) (4 + tick w) (env w)
         (trace w ++ [Sent (Begin db); Sent (Call upgradeFunc (mkTx db));
                      Sent (TxExecUpdate (mkTx db) newVersion);
                      Sent (Commit (mkTx db))])).
Proof.
  intros F Hf F2 F3. unfold upgradeSchema, seen in *. cbn in F2, F3.
  destruct (peer (env w) (tick w)) eqn:P; cbn in Hf; known;
    rewrite !delete_insert_eq, <- !app_assoc; reflexivity.
Qed.

(** ** With the lock held *)

Lemma double_checked_frame (db : DB) (targetVersion : Z) (w : World)
  (latestVersion : Z) (w3 : World) :
  double_checked db targetVersion w latestVersion w3 ->
  trace w3 = trace w ++ [Sent (ExecInit db); Sent (QueryVersion db);
                         Sent (QueryTryLock db (lockID_of targetVersion));
                         Sent (ExecInit db); Sent (QueryVersion db)]
  /\ tick w3 = (5 + tick w)%nat
  /\ env w3 = env w
  /\ clock w3 = clock w
  /\ open_tx (server w3) = open_tx (server w)
  /\ unlock db (lockID_of targetVersion) (locks (server w3)) = locks (server w)
  /\ exists rest, schema_version (committed (server w3)) = latestVersion :: rest.
Proof.
  intros [v0 w1 w2 H1 _ H2 H3].
  destruct (getSchemaVersion_ok _ _ _ _ H1) as (T1 & K1 & L1 & O1 & C1 & E1 & _).
  destruct (acquire_ok _ _ _ _ H2) as (W2 & _ & O2 & L2).
  destruct (getSchemaVersion_ok _ _ _ _ H3) as (T3 & K3 & L3 & O3 & C3 & E3 & R3).
  assert (T2 : trace w2 = trace w1 ++ [Sent (QueryTryLock db (lockID_of targetVersion))])
    by (rewrite W2; reflexivity).
  assert (K2 : tick w2 = S (tick w1)) by (rewrite W2; reflexivity).
  assert (C2 : clock w2 = clock w1) by (rewrite W2; reflexivity).
  assert (E2 : env w2 = env w1) by (rewrite W2; reflexivity).
  repeat split.
  - rewrite T3, T2, T1, <- !app_assoc. reflexivity.
  - rewrite K3, K2, K1. reflexivity.
  - congruence.
  - congruence.
  - congruence.
  - rewrite L3, <- L1. apply unlock_try_lock; assumption.
  - assumption.
Qed.

Lemma UpgradeIfNeeded_double_checked
  (fuel : nat) (db : DB) (targetVersion : Z) (upgradeFunc : Callback)
  (timeout : Z) (w : World) (latestVersion : Z) (w3 : World) :
  double_checked db targetVersion w latestVersion w3 ->
  run (UpgradeIfNeeded fuel db targetVersion upgradeFunc timeout) w
  = match (if latestVersion >=? targetVersion then Done None w3
           else run (upgradeSchema db targetVersion upgradeFunc) w3) with
    | Done result w4 =>
        match run (releaseAdvisoryLock db (lockID_of targetVersion)) w4 with
        | Done _ w5 => Done result w5
        | Unfinished => Unfinished
        end
    | Unfinished => Unfinished
    end.
Proof.
  intros [v0 w1 w2 H1 Hlt H2 H3].
  rewrite (UpgradeIfNeeded_acquired _ _ _ _ _ _ _ _ _ H1 Hlt H2).
  unfold upgradeLocked. rewrite run_bind, H3. cbv beta iota.
  destruct (latestVersion >=? targetVersion); [reflexivity|].
  cbn [bind trigger]. cbn [run perform]. rewrite run_bind.
  destruct (run (upgradeSchema db targetVersion upgradeFunc) w3) as [[e|] w4|];
    reflexivity.
Qed.

(** Where a release leaves the world. *)
Lemma release_frame (db : DB) (lockID : Z) (w : World) :
  exists r w',
    run (releaseAdvisoryLock db lockID) w = Done r w'
    /\ w' = sent (ExecUnlock db lockID) (server w') w
    /\ committed (server w') = committed (server w)
    /\ open_tx (server w') = open_tx (server w)
    /\ (fault (env w) (tick w) = None ->
        locks (server w') = unlock db lockID (locks (server w))).
Proof.
  rewrite release_spec. destruct (fault (env w) (tick w)); do 2 eexists;
    (split; [reflexivity|]); cbn; repeat split; auto; discriminate.
Qed.

(** C5. Double check: when the version read again under the lock is
    already at least the target, [UpgradeIfNeeded] returns [nil]; after
    the second read it sends one more statement only, the release of
    the lock (no transaction, no callback, no version write); the
    committed content is the one the second read left, and the release,
    unless its statement fails, gives the lock table back as it was
    before the call. *)
Theorem double_check_skips_upgrade
  (fuel : nat) (db : DB) (targetVersion : Z) (upgradeFunc : Callback)
  (timeout : Z) (w : World) (latestVersion : Z) (w3 : World) :
  double_checked db targetVersion w latestVersion w3 ->
  targetVersion <= latestVersion ->
  exists w5,
    run (UpgradeIfNeeded fuel db targetVersion upgradeFunc timeout) w = Done None w5
    /\ trace w5 = trace w ++ [Sent (ExecInit db); Sent (QueryVersion db);
                              Sent (QueryTryLock db (lockID_of targetVersion));
                              Sent (ExecInit db); Sent (QueryVersion db);
                              Sent (ExecUnlock db (lockID_of targetVersion))]
    /\ committed (server w5) = committed (server w3)
    /\ persisted_version (committed (server w5)) = latestVersion
    /\ open_tx (server w5) = open_tx (server w)
    /\ (fault (env w3) (tick w3) = None -> locks (server w5) = locks (server w)).
Proof.
  intros D Hge.
  destruct (double_checked_frame _ _ _ _ _ D) as (T & K & E & C & O & L & rest & R).
  rewrite (UpgradeIfNeeded_double_checked fuel _ _ upgradeFunc timeout _ _ _ D).
  destruct (Z.geb_spec latestVersion targetVersion); [|lia].
  destruct (release_frame db (lockID_of targetVersion) w3)
    as (r & w5 & Hr & W5 & C5 & O5 & L5).
  rewrite Hr. exists w5. repeat split.
  - rewrite W5. cbn. rewrite T, <- app_assoc. reflexivity.
  - assumption.
  - unfold persisted_version. rewrite C5, R. reflexivity.
  - congruence.
  - intros F. rewrite (L5 F). assumption.
Qed.

(** C3. Self upgrade: with the lock held and the version read again
    still below the target, when neither [Begin], nor the callback, nor
    the version update, nor [Commit] fails, [UpgradeIfNeeded] returns
    [nil] after exactly these statements, in this order: one [Begin],
    the callback on that transaction, the version update on that
    transaction, its [Commit], the release of the lock. Afterwards the
    persisted version is the target (every row of the table holds it),
    the application's data is what the callback made of it, and no
    transaction is left open on the handle. *)
Theorem self_upgrade_commits_target
  (fuel : nat) (db : DB) (targetVersion : Z) (upgradeFunc : Callback)
  (timeout : Z) (w : World) (latestVersion : Z) (w3 : World) (a : AppData) :
  double_checked db targetVersion w latestVersion w3 ->
  latestVersion < targetVersion ->
  fault (env w3) (tick w3) = None ->
  upgradeFunc (app (seen w3)) = (a, None) ->
  fault (env w3) (2 + tick w3) = None ->
  fault (env w3) (3 + tick w3) = None ->
  exists w5,
    run (UpgradeIfNeeded fuel db targetVersion upgradeFunc timeout) w = Done None w5
    /\ trace w5 = trace w3 ++ [Sent (Begin db);
                               Sent (Call upgradeFunc (mkTx db));
                               Sent (TxExecUpdate (mkTx db) targetVersion);
                               Sent (Commit (mkTx db));
                               Sent (ExecUnlock db (lockID_of targetVersion))]
    /\ persisted_version (committed (server w5)) = targetVersion
    /\ Forall (fun v => v = targetVersion) (schema_version (committed (server w5)))
    /\ app (committed (server w5)) = a
    /\ open_tx (server w5) !! db = None
    /\ (fault (env w3) (4 + tick w3) = None -> locks (server w5) = locks (server w)).
Proof.
  intros D Hlt F0 Hf F2 F3.
  destruct (double_checked_frame _ _ _ _ _ D) as (T & K & E & C & O & L & rest & R).
  rewrite (UpgradeIfNeeded_double_checked fuel _ _ upgradeFunc timeout _ _ _ D).
  destruct (Z.geb_spec latestVersion targetVersion); [lia|].
  rewrite (upgradeSchema_success _ _ _ _ _ F0 Hf F2 F3). cbv beta iota.
  match goal with |- context [run (releaseAdvisoryLock _ _) ?w4] =>
    destruct (release_frame db (lockID_of targetVersion) w4)
      as (r & w5 & Hr & W5 & C5 & O5 & L5)
  end.
  rewrite Hr. exists w5. cbn in C5, O5, L5.
  assert (N : exists v l, schema_version (seen w3) = v :: l).
  { unfold seen. destruct (peer (env w3) (tick w3)) as [p|].
    - destruct (commit_of_rows p (committed (server w3))) as (l & ->). eauto.
    - rewrite R. eauto. }
  destruct N as (v & l & N).
  repeat split.
  - rewrite W5. cbn. rewrite <- app_assoc. reflexivity.
  - unfold persisted_version. rewrite C5. cbn. rewrite N. reflexivity.
  - rewrite C5. cbn. apply Forall_forall. intros x Hx.
    apply list_elem_of_In, in_map_iff in Hx. destruct Hx as (? & ? & _). congruence.
  - rewrite C5. reflexivity.
  - rewrite O5. apply lookup_delete_eq.
  - intros F4. rewrite (L5 F4). assumption.
Qed.

(** C2. Failing callback: with the lock held and the version read again
    still below the target, when the callback returns an error,
    [UpgradeIfNeeded] returns that error wrapped as the schema
    modification failure, having rolled the transaction back and then
    released the lock. The committed content is the one the
    transaction began on, so the persisted version is unchanged (it is
    the version read under the lock unless a peer committed in
    between); no transaction is left open; and the release, unless its
    statement fails, gives the lock table back as it was before the
    call. *)
Theorem callback_error_rolls_back
  (fuel : nat) (db : DB) (targetVersion : Z) (upgradeFunc : Callback)
  (timeout : Z) (w : World) (latestVersion : Z) (w3 : World)
  (a : AppData) (e : Error) :
  double_checked db targetVersion w latestVersion w3 ->
  latestVersion < targetVersion ->
  fault (env w3) (tick w3) = None ->
  upgradeFunc (app (seen w3)) = (a, Some e) ->
  exists w5,
    run (UpgradeIfNeeded fuel db targetVersion upgradeFunc timeout) w
    = Done (Some (UpgradeExecutionError e)) w5
    /\ trace w5 = trace w3 ++ [Sent (Begin db);
                               Sent (Call upgradeFunc (mkTx db));
                               Sent (Rollback (mkTx db));
                               Sent (ExecUnlock db (lockID_of targetVersion))]
    /\ committed (server w5) = seen w3
    /\ (peer (env w3) (tick w3) = None ->
        committed (server w5) = committed (server w3)
        /\ persisted_version (committed (server w5)) = latestVersion)
    /\ open_tx (server w5) !! db = None
    /\ (fault (env w3) (3 + tick w3) = None -> locks (server w5) = locks (server w)).
Proof.
  intros D Hlt F0 Hf.
  destruct (double_checked_frame _ _ _ _ _ D) as (T & K & E & C & O & L & rest & R).
  rewrite (UpgradeIfNeeded_double_checked fuel _ _ upgradeFunc timeout _ _ _ D).
  destruct (Z.geb_spec latestVersion targetVersion); [lia|].
  rewrite (upgradeSchema_callback_error _ _ _ _ _ _ F0 Hf). cbv beta iota.
  match goal with |- context [run (releaseAdvisoryLock _ _) ?w4] =>
    destruct (release_frame db (lockID_of targetVersion) w4)
      as (r & w5 & Hr & W5 & C5 & O5 & L5)
  end.
  rewrite Hr. exists w5. cbn in C5, O5, L5.
  conjs.
  - reflexivity.
  - rewrite W5. cbn. rewrite <- app_assoc. reflexivity.
  - assumption.
  - intros P. rewrite C5. unfold seen, persisted_version. rewrite P, R.
    split; reflexivity.
  - rewrite O5. apply lookup_delete_eq.
  - intros F3. rewrite (L5 F3). assumption.
Qed.

(** ** What every run leaves alone *)

Lemma perform_frame {X : Type} (op : Op X) (w : World) (x : X) (w1 : World) :
  perform op w = (x, w1) ->
  env w1 = env w /\ (tick w <= tick w1)%nat /\ clock w <= clock w1
  /\ exists l, trace w1 = trace w ++ l.
Proof.
  destruct op as [X r| |d|l]; cbn.
  - unfold request. destruct (serve r _ _) as [x' s]. intros H; inversion H; subst; cbn.
    conjs; auto; try lia. eauto.
  - intros H; inversion H; subst. conjs; auto; try lia. exists []. rewrite app_nil_r. reflexivity.
  - intros H; inversion H; subst; cbn. conjs; auto; try lia. eauto.
  - intros H; inversion H; subst. conjs; auto; try lia. exists []. rewrite app_nil_r. reflexivity.
Qed.

Lemma run_frame {A : Type} (p : Prog A) (w : World) (a : A) (w' : World) :
  run p w = Done a w' ->
  env w' = env w /\ (tick w <= tick w')%nat /\ clock w <= clock w'
  /\ exists l, trace w' = trace w ++ l.
Proof.
  revert w. induction p as [a0| |X op k IH]; intros w; cbn.
  - intros H; inversion H; subst. conjs; auto; try lia. exists []. rewrite app_nil_r. reflexivity.
  - discriminate.
  - destruct (perform op w) as [x w1] eqn:P. intros H.
    destruct (perform_frame _ _ _ _ P) as (E1 & K1 & C1 & l1 & T1).
    destruct (IH _ _ H) as (E2 & K2 & C2 & l2 & T2).
    conjs; try congruence; try lia.
    exists (l1 ++ l2). rewrite T2, T1, app_assoc. reflexivity.
Qed.

Lemma since_app (w w' : World) (l : list Event) :
  trace w' = trace w ++ l -> since w w' = l.
Proof.
  intros H. unfold since. rewrite H.
  rewrite skipn_app, Nat.sub_diag, skipn_all. reflexivity.
Qed.

(** ** The wait for a peer *)

Section Wait.

Variables (db : DB) (targetVersion deadline timeout : Z).

Lemma waitForPeer_timeout (fuel : nat) (w : World) :
  deadline <= clock w ->
  run (waitForPeer (S fuel) db targetVersion deadline timeout) w
  = Done (Some (TimeoutError timeout)) w.
Proof.
  intros H. cbn. destruct (Z.ltb_spec (clock w) deadline); [lia | reflexivity].
Qed.

(** One round, by what its version read returns. *)
Lemma waitForPeer_round (fuel : nat) (w : World) :
  clock w < deadline ->
  run (waitForPeer (S fuel) db targetVersion deadline timeout) w
  = match run (getSchemaVersion db) (sleep checkInterval w) with
    | Done (_, Some e) w' => Done (Some e) w'
    | Done (latestVersion, None) w' =>
        if latestVersion >=? targetVersion then Done None w'
        else run (waitForPeer fuel db targetVersion deadline timeout) w'
    | Unfinished => Unfinished
    end.
Proof.
  intros H. cbn [waitForPeer]. cbn [bind trigger]. cbn [run perform].
  destruct (Z.ltb_spec (clock w) deadline); [|lia].
  cbn [bind trigger]. cbn [run perform]. rewrite run_bind.
  destruct (run (getSchemaVersion db) (sleep checkInterval w)) as [[v [e|]] w'|];
    try reflexivity.
  destruct (v >=? targetVersion); reflexivity.
Qed.

Lemma waitForPeer_miss (fuel : nat) (w w' : World) :
  poll_miss db targetVersion deadline w w' ->
  run (waitForPeer (S fuel) db targetVersion deadline timeout) w
  = run (waitForPeer fuel db targetVersion deadline timeout) w'.
Proof.
  intros [v Hc Hr Hlt]. rewrite waitForPeer_round, Hr by assumption.
  destruct (Z.geb_spec v targetVersion); [lia | reflexivity].
Qed.

Lemma waitForPeer_misses (k fuel : nat) (w wk : World) :
  nsteps (poll_miss db targetVersion deadline) k w wk ->
  run (waitForPeer (k + fuel) db targetVersion deadline timeout) w
  = run (waitForPeer fuel db targetVersion deadline timeout) wk.
Proof.
  induction 1 as [|k w w1 wk M _ IH]; [reflexivity|].
  cbn [Nat.add]. rewrite (waitForPeer_miss _ _ _ M). apply IH.
Qed.

End Wait.

Lemma count_app {A : Type} (p : A -> bool) (l1 l2 : list A) :
  count p (l1 ++ l2) = (count p l1 + count p l2)%nat.
Proof. unfold count. rewrite List.filter_app, length_app. reflexivity. Qed.

Lemma acquire_error (db : DB) (lockID : Z) (w : World) (e : Error) (w2 : World) :
  run (acquireAdvisoryLock db lockID) w = Done (Some e) w2 ->
  w2 = sent (QueryTryLock db lockID) (server w) w
  /\ ((exists cause, e = LockCheckError cause) \/ e = LockHeldError).
Proof.
  unfold acquireAdvisoryLock. cbn. unfold request, arrive. cbn.
  destruct (fault (env w) (tick w)); cbn.
  - intros H; inversion H; subst. split; [reflexivity | eauto].
  - unfold try_lock. destruct (locks (server w) !! lockID) as [[holder n]|]; cbn.
    + destruct (Nat.eqb holder db); cbn; [discriminate|].
      intros H; inversion H; subst. split; [|auto].
      unfold sent. destruct (server w); reflexivity.
    + discriminate.
Qed.

Lemma not_acquired_frame (db : DB) (targetVersion : Z) (w : World) (e : Error)
  (w2 : World) :
  not_acquired db targetVersion w e w2 ->
  trace w2 = trace w ++ [Sent (ExecInit db); Sent (QueryVersion db);
                         Sent (QueryTryLock db (lockID_of targetVersion))]
  /\ tick w2 = (3 + tick w)%nat
  /\ env w2 = env w
  /\ clock w2 = clock w
  /\ locks (server w2) = locks (server w)
  /\ open_tx (server w2) = open_tx (server w)
  /\ persisted_version (committed (server w2)) < targetVersion.
Proof.
  intros [v0 w1 H1 Hlt H2].
  destruct (getSchemaVersion_ok _ _ _ _ H1) as (T1 & K1 & L1 & O1 & C1 & E1 & rest & R).
  destruct (acquire_error _ _ _ _ _ H2) as (W2 & _). subst w2. cbn.
  conjs; auto.
  all: try (rewrite T1, <- app_assoc; reflexivity).
  all: try (rewrite K1; reflexivity).
  all: unfold persisted_version; rewrite R; assumption.
Qed.

Lemma getSchemaVersion_error (db : DB) (w : World) (x : Z) (e : Error) (w' : World) :
  run (getSchemaVersion db) w = Done (x, Some e) w' ->
  (trace w' = trace w ++ [Sent (ExecInit db)]
   /\ exists cause, e = InitError cause)
  \/ (trace w' = trace w ++ [Sent (ExecInit db); Sent (QueryVersion db)]
      /\ exists cause, e = VersionQueryError cause).
Proof.
  unfold getSchemaVersion. exec; intros H; inversion H; subst; cbn.
  all: first [ left; split; [reflexivity | eexists; reflexivity]
             | right; rewrite <- app_assoc; split; [reflexivity | eexists; reflexivity] ].
Qed.

Lemma checkInterval_pos : 0 < checkInterval.
Proof. reflexivity. Qed.

Section WaitFacts.

Variables (db : DB) (targetVersion deadline timeout : Z).

(** The wait ends once it has rounds enough to reach the deadline:
    every round moves the clock by one interval. *)
Lemma waitForPeer_finishes (fuel : nat) (w : World) :
  (1 <= fuel)%nat ->
  deadline - clock w <= (Z.of_nat fuel - 1) * checkInterval ->
  exists r w', run (waitForPeer fuel db targetVersion deadline timeout) w = Done r w'.
Proof.
  revert w. induction fuel as [|fuel IH]; intros w F B; [lia|].
  destruct (Z.le_gt_cases deadline (clock w)) as [Hd|Hd].
  - rewrite waitForPeer_timeout by assumption. eauto.
  - rewrite waitForPeer_round by lia.
    destruct (getSchemaVersion_frame db (sleep checkInterval w))
      as ([v err] & w1 & Hr & _ & _ & C1 & _).
    rewrite Hr. destruct err as [e|]; [eauto|].
    destruct (v >=? targetVersion); [eauto|].
    pose proof checkInterval_pos.
    apply IH.
    + destruct fuel; [|lia]. cbn in B. lia.
    + rewrite C1. cbn. rewrite Z.max_r by lia. lia.
Qed.

Lemma poll_miss_frame (w w' : World) :
  poll_miss db targetVersion deadline w w' ->
  trace w' = trace w ++ [Slept checkInterval; Sent (ExecInit db); Sent (QueryVersion db)]
  /\ clock w' = clock w + checkInterval
  /\ env w' = env w.
Proof.
  intros [v Hc Hr Hlt].
  destruct (getSchemaVersion_ok _ _ _ _ Hr) as (T & _ & _ & _ & C & E & _).
  rewrite T, C, E. cbn. rewrite <- app_assoc. auto.
Qed.

Lemma poll_misses_frame (k : nat) (w wk : World) :
  nsteps (poll_miss db targetVersion deadline) k w wk ->
  exists l, trace wk = trace w ++ l
    /\ count is_sleep l = k
    /\ count is_version_read l = k
    /\ clock wk = clock w + Z.of_nat k * checkInterval.
Proof.
  induction 1 as [w|k w w1 wk M _ (l & T & Sl & Rd & C)].
  - exists []. rewrite app_nil_r. conjs; auto. lia.
  - destruct (poll_miss_frame _ _ M) as (T1 & C1 & _).
    exists ([Slept checkInterval; Sent (ExecInit db); Sent (QueryVersion db)] ++ l).
    conjs.
    + rewrite T, T1, <- app_assoc. reflexivity.
    + rewrite count_app, Sl. reflexivity.
    + rewrite count_app, Rd. reflexivity.
    + rewrite C, C1. lia.
Qed.

End WaitFacts.

(** C10. Not granted the lock, [UpgradeIfNeeded] sleeps one full poll
    interval before it reads the version again. With a timeout that is
    not positive it returns the timeout error at once, in the world the
    lock request left: nothing was sent after that request, no version
    was read during the wait, and whatever the table holds by then plays
    no part. With a positive timeout the first thing the call does
    after the lock request is to sleep one interval; then it reads the
    version, in the world the sleep left, with both statements of the
    read unless the first fails; and what the call goes on to do is
    decided by that read: it returns the error of the read, or nil when
    the version read has reached the target, or it goes round again.
    With rounds enough to reach the deadline the call ends, no sooner
    than one interval after the lock request. *)
Theorem contended_sleeps_before_first_read
  (fuel : nat) (db : DB) (targetVersion : Z) (upgradeFunc : Callback)
  (timeout : Z) (w : World) (e : Error) (w2 : World) :
  not_acquired db targetVersion w e w2 ->
  (timeout <= 0 ->
     run (UpgradeIfNeeded (S fuel) db targetVersion upgradeFunc timeout) w
     = Done (Some (TimeoutError timeout)) w2
     /\ since w w2 = [Sent (ExecInit db); Sent (QueryVersion db);
                      Sent (QueryTryLock db (lockID_of targetVersion))]
     /\ clock w2 = clock w)
  /\ (0 < timeout ->
      exists latestVersion err w3,
        run (getSchemaVersion db) (sleep checkInterval w2)
        = Done (latestVersion, err) w3
        /\ run (UpgradeIfNeeded (S fuel) db targetVersion upgradeFunc timeout) w
           = match err with
             | Some e' => Done (Some e') w3
             | None =>
                 if latestVersion >=? targetVersion then Done None w3
                 else run (waitForPeer fuel db targetVersion
                             (clock w2 + timeout) timeout) w3
             end
        /\ ((fault (env w2) (tick w2) = None
             /\ since w2 w3 = [Slept checkInterval; Sent (ExecInit db);
                               Sent (QueryVersion db)])
            \/ (exists cause,
                  fault (env w2) (tick w2) = Some cause
                  /\ err = Some (InitError cause)
                  /\ since w2 w3 = [Slept checkInterval; Sent (ExecInit db)]))
        /\ clock w2 + checkInterval <= clock w3
        /\ (timeout <= Z.of_nat fuel * checkInterval ->
            exists r w' rest,
              run (UpgradeIfNeeded (S fuel) db targetVersion upgradeFunc timeout) w
              = Done r w'
              /\ since w2 w' = Slept checkInterval :: Sent (ExecInit db) :: rest
              /\ since w2 w' = since w2 w3 ++ since w3 w'
              /\ clock w2 + checkInterval <= clock w')).
Proof.
  intros N. pose proof N as [v0 w1 H1 Hlt H2].
  destruct (not_acquired_frame _ _ _ _ _ N) as (T & _ & _ & C & _).
  rewrite (UpgradeIfNeeded_not_acquired _ _ _ upgradeFunc timeout _ _ _ _ _ H1 Hlt H2).
  split.
  - intros Hto. conjs.
    + apply waitForPeer_timeout. lia.
    + apply since_app. assumption.
    + assumption.
  - intros Hpos. pose proof checkInterval_pos as CI.
    rewrite waitForPeer_round by lia.
    assert (Rd : exists v err w3,
               run (getSchemaVersion db) (sleep checkInterval w2) = Done (v, err) w3
               /\ clock w3 = clock w2 + checkInterval
               /\ ((fault (env w2) (tick w2) = None
                    /\ trace w3 = trace w2 ++ [Slept checkInterval; Sent (ExecInit db);
                                               Sent (QueryVersion db)])
                   \/ (exists cause,
                         fault (env w2) (tick w2) = Some cause
                         /\ err = Some (InitError cause)
                         /\ trace w3 = trace w2 ++ [Slept checkInterval;
                                                    Sent (ExecInit db)]))).
    { unfold getSchemaVersion. cbn. unfold request, arrive. cbn.
      destruct (fault (env w2) (tick w2)) as [c|] eqn:F0; cbn.
      - do 3 eexists. split; [reflexivity|]. cbn. split; [reflexivity|].
        right. exists c. conjs; try reflexivity. rewrite <- app_assoc. reflexivity.
      - unfold request, arrive. cbn.
        destruct (peer (env w2) (tick w2)); cbn;
          destruct (peer (env w2) (S (tick w2))); cbn;
          destruct (fault (env w2) (S (tick w2))); cbn;
          try match goal with
              | |- context [match schema_version ?c with _ => _ end] =>
                  destruct (schema_version c)
              end; cbn;
          do 3 eexists; (split; [reflexivity|]); cbn; (split; [reflexivity|]);
          left; (split; [reflexivity|]); rewrite <- !app_assoc; reflexivity. }
    destruct Rd as (v & err & w3 & Hr & C3 & Tr).
    assert (T3 : exists l3, trace w3 = trace w2 ++ Slept checkInterval
                                        :: Sent (ExecInit db) :: l3).
    { destruct Tr as [(_ & T3)|(c & _ & _ & T3)]; rewrite T3; eauto. }
    destruct T3 as (l3 & T3).
    exists v, err, w3. rewrite Hr. conjs.
    + reflexivity.
    + destruct err as [e'|]; [reflexivity|].
      destruct (v >=? targetVersion); reflexivity.
    + destruct Tr as [(F0 & T3')|(c & F0 & Ee & T3')].
      * left. split; [assumption | apply since_app; assumption].
      * right. exists c. conjs; [assumption | assumption | apply since_app; assumption].
    + lia.
    + intros Hfuel.
      assert (Fin : exists r w',
                 match err with
                 | Some e' => Done (Some e') w3
                 | None =>
                     if v >=? targetVersion then Done None w3
                     else run (waitForPeer fuel db targetVersion
                                 (clock w2 + timeout) timeout) w3
                 end = Done r w'
                 /\ clock w3 <= clock w'
                 /\ exists l', trace w' = trace w3 ++ l').
      { destruct err as [e'|].
        - do 2 eexists. conjs; [reflexivity | lia |]. exists []. rewrite app_nil_r. reflexivity.
        - destruct (v >=? targetVersion).
          + do 2 eexists. conjs; [reflexivity | lia |]. exists [].
            rewrite app_nil_r. reflexivity.
          + destruct (waitForPeer_finishes db targetVersion (clock w2 + timeout)
                        timeout fuel w3) as (r & w' & Hw); [lia | lia |].
            destruct (run_frame _ _ _ _ Hw) as (_ & _ & C' & l' & T').
            exists r, w'. conjs; [assumption | assumption | eauto]. }
      destruct Fin as (r & w' & Hw & C' & l' & T').
      exists r, w', (l3 ++ l'). conjs.
      * destruct err as [e'|]; exact Hw.
      * apply since_app. rewrite T', T3, <- app_assoc. reflexivity.
      * rewrite (since_app w3 w' l' T').
        rewrite (since_app w2 w3 _ T3).
        apply since_app. rewrite T', T3, <- app_assoc. reflexivity.
      * lia.
Qed.

(** C7. In the wait for a peer every round makes exactly one version
    read, and a read that fails ends the wait at once: after [k] rounds
    that read a version below the target, if the deadline has not
    passed and the next read fails with [e], then [UpgradeIfNeeded]
    returns [e] itself, in the world that read left. [e] is an error of
    the version read, not the timeout error; since the lock request
    the call has slept [k + 1] times and read the version [k + 1]
    times; and the last round is one sleep and the statements of the
    failed read, with nothing after them. *)
Theorem failed_poll_read_aborts_wait
  (fuel : nat) (db : DB) (targetVersion : Z) (upgradeFunc : Callback)
  (timeout : Z) (w : World) (e0 : Error) (w2 : World)
  (k : nat) (wk : World) (x : Z) (e : Error) (w' : World) :
  not_acquired db targetVersion w e0 w2 ->
  nsteps (poll_miss db targetVersion (clock w2 + timeout)) k w2 wk ->
  clock wk < clock w2 + timeout ->
  run (getSchemaVersion db) (sleep checkInterval wk) = Done (x, Some e) w' ->
  (k < fuel)%nat ->
  run (UpgradeIfNeeded fuel db targetVersion upgradeFunc timeout) w = Done (Some e) w'
  /\ ((exists cause, e = InitError cause) \/ (exists cause, e = VersionQueryError cause))
  /\ e <> TimeoutError timeout
  /\ count is_sleep (since w2 w') = S k
  /\ count is_version_read (since w2 w') = S k
  /\ (since wk w' = [Slept checkInterval; Sent (ExecInit db)]
      \/ since wk w' = [Slept checkInterval; Sent (ExecInit db); Sent (QueryVersion db)]).
Proof.
  intros N M Hc Hr Hk. pose proof N as [v0 w1 H1 Hlt H2].
  rewrite (UpgradeIfNeeded_not_acquired _ _ _ upgradeFunc timeout _ _ _ _ _ H1 Hlt H2).
  destruct (poll_misses_frame _ _ _ _ _ _ M) as (l & T & Sl & Rd & _).
  assert (Hlast : exists l', trace w' = trace wk ++ l'
            /\ count is_sleep l' = 1%nat /\ count is_version_read l' = 1%nat
            /\ (l' = [Slept checkInterval; Sent (ExecInit db)]
                \/ l' = [Slept checkInterval; Sent (ExecInit db); Sent (QueryVersion db)])
            /\ ((exists cause, e = InitError cause)
                \/ (exists cause, e = VersionQueryError cause))).
  { destruct (getSchemaVersion_error _ _ _ _ _ Hr) as [(T' & c & ->)|(T' & c & ->)];
      cbn in T'; rewrite <- app_assoc in T'; eexists; (split; [exact T'|]);
      conjs; eauto. }
  destruct Hlast as (l' & T' & Sl' & Rd' & Hl' & He).
  conjs.
  - replace fuel with (k + S (fuel - S k))%nat by lia.
    rewrite (waitForPeer_misses _ _ _ _ _ _ _ _ M).
    rewrite waitForPeer_round, Hr by assumption. reflexivity.
  - exact He.
  - destruct He as [(c & ->)|(c & ->)]; discriminate.
  - rewrite (since_app w2 w' (l ++ l')) by (rewrite T', T, <- app_assoc; reflexivity).
    rewrite count_app, Sl, Sl'. lia.
  - rewrite (since_app w2 w' (l ++ l')) by (rewrite T', T, <- app_assoc; reflexivity).
    rewrite count_app, Rd, Rd'. lia.
  - rewrite (since_app wk w' l') by assumption. exact Hl'.
Qed.



(** ** The persisted version over calls *)

Lemma peers_idle_env (w w' : World) :
  env w' = env w -> peers_idle w -> peers_idle w'.
Proof. unfold peers_idle. intros -> H. exact H. Qed.

Lemma waitForPeer_preserves
  (db : DB) (targetVersion deadline timeout : Z) (fuel : nat) (w : World)
  (r : error) (w' : World) :
  peers_idle w ->
  run (waitForPeer fuel db targetVersion deadline timeout) w = Done r w' ->
  persisted_version (committed (server w')) = persisted_version (committed (server w)).
Proof.
  revert w. induction fuel as [|fuel IH]; intros w I; [discriminate|].
  destruct (Z.le_gt_cases deadline (clock w)) as [Hd|Hd].
  - rewrite waitForPeer_timeout by assumption. intros H; inversion H; reflexivity.
  - rewrite waitForPeer_round by lia.
    destruct (run (getSchemaVersion db) (sleep checkInterval w)) as [[v err] w1|] eqn:Hr;
      [|discriminate].
    assert (P1 : persisted_version (committed (server w1))
                 = persisted_version (committed (server w)))
      by (apply (getSchemaVersion_preserves db (sleep checkInterval w) _ _ (I _) (I _) Hr)).
    destruct (run_frame _ _ _ _ Hr) as (E1 & _).
    destruct err as [e|]; [intros H; inversion H; subst; exact P1|].
    destruct (v >=? targetVersion); [intros H; inversion H; subst; exact P1|].
    intros H. rewrite <- P1. apply (IH w1); [|exact H].
    apply (peers_idle_env (sleep checkInterval w)); assumption.
Qed.

Lemma acquire_frame (db : DB) (lockID : Z) (w : World) :
  exists r w2,
    run (acquireAdvisoryLock db lockID) w = Done r w2
    /\ committed (server w2) = committed (server w)
    /\ env w2 = env w.
Proof.
  unfold acquireAdvisoryLock. cbn. unfold request, arrive. cbn.
  destruct (fault (env w) (tick w)); cbn; [eauto|].
  destruct (try_lock db lockID (locks (server w))) as [[|] l]; cbn; eauto.
Qed.

(** A transaction either leaves the committed content as it was or
    commits the new version. *)
Lemma upgradeSchema_version_step
  (db : DB) (newVersion : Z) (upgradeFunc : Callback) (w : World)
  (v : Z) (rows : list Z) (r : error) (w' : World) :
  peer (env w) (tick w) = None ->
  schema_version (committed (server w)) = v :: rows ->
  run (upgradeSchema db newVersion upgradeFunc) w = Done r w' ->
  committed (server w') = committed (server w)
  \/ (r = None /\ persisted_version (committed (server w')) = newVersion).
Proof.
  intros P R. unfold upgradeSchema. cbn. unfold request, arrive. cbn. rewrite P.
  destruct (fault (env w) (tick w)); cbn;
    [intros H; inversion H; auto|].
  unfold request, arrive. cbn. rewrite lookup_insert_eq.
  destruct (upgradeFunc (app (committed (server w)))) as [a [e|]]; cbn.
  { unfold request, arrive. cbn. rewrite lookup_insert_eq. cbn.
    intros H; inversion H; auto. }
  unfold request, arrive. cbn. rewrite lookup_insert_eq.
  destruct (fault (env w) (S (S (tick w)))); cbn.
  { unfold request, arrive. cbn. rewrite lookup_insert_eq. cbn.
    intros H; inversion H; auto. }
  unfold request, arrive. cbn. rewrite lookup_insert_eq.
  destruct (fault (env w) (S (S (S (tick w))))); cbn;
    intros H; inversion H; subst; cbn; auto.
  right. split; [reflexivity|]. unfold persisted_version. cbn. rewrite R. reflexivity.
Qed.

(** One call either leaves the persisted version as it was, or finds it
    below its target and sets it to its target. *)
Lemma UpgradeIfNeeded_version_step
  (fuel : nat) (db : DB) (targetVersion : Z) (upgradeFunc : Callback)
  (timeout : Z) (w : World) (r : error) (w' : World) :
  peers_idle w ->
  run (UpgradeIfNeeded fuel db targetVersion upgradeFunc timeout) w = Done r w' ->
  persisted_version (committed (server w')) = persisted_version (committed (server w))
  \/ (persisted_version (committed (server w)) < targetVersion
      /\ persisted_version (committed (server w')) = targetVersion).
Proof.
  intros I. unfold UpgradeIfNeeded. rewrite run_bind.
  destruct (run (getSchemaVersion db) w) as [[v0 err] w1|] eqn:H1; [|discriminate].
  pose proof (getSchemaVersion_preserves _ _ _ _ (I _) (I _) H1) as P1.
  destruct (run_frame _ _ _ _ H1) as (E1 & _).
  pose proof (peers_idle_env _ _ E1 I) as I1.
  destruct err as [e|]; [intros H; inversion H; subst; auto|].
  destruct (Z.geb_spec v0 targetVersion) as [G0|L0]; [intros H; inversion H; subst; auto|].
  rewrite run_bind.
  destruct (acquire_frame db (Go.add baseLockID targetVersion) w1)
    as (ra & w2 & H2 & C2 & E2). rewrite H2.
  pose proof (peers_idle_env _ _ E2 I1) as I2.
  destruct ra as [e|].
  { cbn [bind trigger]. cbn [run perform]. intros H.
    left. rewrite (waitForPeer_preserves _ _ _ _ _ _ _ _ I2 H). congruence. }
  rewrite run_bind. unfold upgradeLocked. rewrite run_bind.
  destruct (run (getSchemaVersion db) w2) as [[v1 err] w3|] eqn:H3; [|discriminate].
  pose proof (getSchemaVersion_preserves _ _ _ _ (I2 _) (I2 _) H3) as P3.
  destruct (run_frame _ _ _ _ H3) as (E3 & _).
  pose proof (peers_idle_env _ _ E3 I2) as I3.
  assert (Hrel : forall (res : error) (w4 : World),
            run (releaseAdvisoryLock db (Go.add baseLockID targetVersion) >> Ret res) w4
            = Done r w' ->
            committed (server w') = committed (server w4) /\ r = res).
  { intros res w4. rewrite run_bind.
    destruct (release_frame db (Go.add baseLockID targetVersion) w4)
      as (rr & w5 & Hr & _ & C5 & _). rewrite Hr. cbn.
    intros H; inversion H; subst; auto. }
  destruct err as [e|].
  { intros H. cbv beta iota in H. cbn [run] in H.
    destruct (Hrel _ _ H) as (-> & _). left. congruence. }
  cbv beta iota.
  destruct (Z.geb_spec v1 targetVersion) as [G1|L1].
  { cbn [bind trigger]. cbn [run perform]. intros H.
    destruct (Hrel _ _ H) as (-> & _). left. congruence. }
  cbn [bind trigger]. cbn [run perform]. rewrite run_bind.
  destruct (run (upgradeSchema db targetVersion upgradeFunc) w3) as [r4 w4|] eqn:H4;
    [|discriminate].
  destruct (getSchemaVersion_ok _ _ _ _ H3) as (_ & _ & _ & _ & _ & _ & rest & R3).
  assert (V1 : persisted_version (committed (server w3)) = v1)
    by (unfold persisted_version; rewrite R3; reflexivity).
  destruct (upgradeSchema_version_step _ _ _ _ _ _ _ _ (I3 _) R3 H4) as [C4|(-> & V4)].
  - intros H. left.
    assert (committed (server w') = committed (server w4)) as ->.
    { destruct r4; cbn [run bind trigger perform] in H; apply Hrel in H; tauto. }
    congruence.
  - intros H. right.
    assert (committed (server w') = committed (server w4)) as ->.
    { cbn [run bind trigger perform] in H; apply Hrel in H; tauto. }
    split; [|assumption]. rewrite <- P1, <- C2, <- P3, V1. assumption.
Qed.

(** C8. With no other client writing, the persisted version never
    decreases over calls of [UpgradeIfNeeded] made one after the other,
    whatever their handles, targets, callbacks and timeouts and
    whatever fails: each call either leaves the persisted version as it
    was or finds it strictly below its target and sets it to exactly
    its target. *)
Theorem persisted_version_never_decreases :
  (forall (c : CallArgs) (w : World) (r : error) (w' : World),
      peers_idle w ->
      run_call c w = Done r w' ->
      persisted_version (committed (server w')) = persisted_version (committed (server w))
      \/ (persisted_version (committed (server w)) < call_target c
          /\ persisted_version (committed (server w')) = call_target c))
  /\ (forall (cs : list CallArgs) (w : World) (rs : list error) (w' : World),
        peers_idle w ->
        run_calls cs w = Done rs w' ->
        persisted_version (committed (server w))
        <= persisted_version (committed (server w'))).
Proof.
  assert (One : forall c w r w', peers_idle w -> run_call c w = Done r w' ->
      persisted_version (committed (server w')) = persisted_version (committed (server w))
      \/ (persisted_version (committed (server w)) < call_target c
          /\ persisted_version (committed (server w')) = call_target c)).
  { intros c w r w' I H. eapply UpgradeIfNeeded_version_step; eassumption. }
  split; [exact One|].
  induction cs as [|c cs IH]; intros w rs w' I; cbn [run_calls].
  - intros H; inversion H; subst. lia.
  - destruct (run_call c w) as [r w1|] eqn:H1; [|discriminate].
    destruct (run_calls cs w1) as [rs1 w2|] eqn:H2; [|discriminate].
    intros H; inversion H; subst.
    pose proof H1 as H1'. unfold run_call in H1'.
    destruct (run_frame _ _ _ _ H1') as (E1 & _).
    specialize (IH _ _ _ (peers_idle_env _ _ E1 I) H2).
    destruct (One _ _ _ _ I H1) as [Heq|(Hlt & Heq)]; lia.
Qed.

(** C1, as the code has it. A lock request ends in one of three ways:
    [nil], and then the lock was granted; the error of a lock already
    held, when the query went through and another session holds the
    lock; the error of a failed lock check, made only when the query
    itself fails. In the last two the server is left as it was. So
    contention is an error of [acquireAdvisoryLock], of a kind of its
    own, and [UpgradeIfNeeded] does not return it: on it the call goes
    on to wait for the peer. *)
Theorem contention_is_an_error_of_its_own (db : DB) (lockID : Z) (w : World) :
  exists r w',
    run (acquireAdvisoryLock db lockID) w = Done r w'
    /\ ((r = None /\ fault (env w) (tick w) = None
         /\ try_lock db lockID (locks (server w)) = (true, locks (server w')))
        \/ (r = Some LockHeldError /\ fault (env w) (tick w) = None
            /\ server w' = server w
            /\ exists holder n, locks (server w) !! lockID = Some (holder, n)
                                /\ holder <> db)
        \/ (exists cause, r = Some (LockCheckError cause)
                          /\ fault (env w) (tick w) = Some cause
                          /\ server w' = server w))
    /\ (forall cause, LockHeldError <> LockCheckError cause)
    /\ (forall (fuel : nat) (targetVersion : Z) (upgradeFunc : Callback)
               (timeout : Z) (w0 : World) (currentVersion : Z),
          lockID = lockID_of targetVersion ->
          run (getSchemaVersion db) w0 = Done (currentVersion, None) w ->
          currentVersion < targetVersion ->
          r = Some LockHeldError ->
          run (UpgradeIfNeeded fuel db targetVersion upgradeFunc timeout) w0
          = run (waitForPeer fuel db targetVersion (clock w' + timeout) timeout) w').
Proof.
  assert (W : forall r w', run (acquireAdvisoryLock db lockID) w = Done r w' ->
    forall (fuel : nat) (targetVersion : Z) (upgradeFunc : Callback)
           (timeout : Z) (w0 : World) (currentVersion : Z),
      lockID = lockID_of targetVersion ->
      run (getSchemaVersion db) w0 = Done (currentVersion, None) w ->
      currentVersion < targetVersion ->
      r = Some LockHeldError ->
      run (UpgradeIfNeeded fuel db targetVersion upgradeFunc timeout) w0
      = run (waitForPeer fuel db targetVersion (clock w' + timeout) timeout) w').
  { intros r w' Hr fuel t f to w0 v0 -> H1 Hlt ->.
    eapply UpgradeIfNeeded_not_acquired; eassumption. }
  destruct (fault (env w) (tick w)) as [cause|] eqn:F.
  - pose proof (acquire_query_failure db lockID w cause F) as Hr.
    do 2 eexists. split; [exact Hr|]. conjs.
    + right; right. exists cause. auto.
    + discriminate.
    + apply (W _ _ Hr).
  - destruct (locks (server w) !! lockID) as [[holder n]|] eqn:L.
    + destruct (Nat.eq_dec holder db) as [->|Hne].
      * destruct (acquire_granted db lockID w F) as (m & Hr).
        { intros h k. rewrite L. congruence. }
        do 2 eexists. split; [exact Hr|]. conjs.
        -- left. conjs; auto. destruct (acquire_ok _ _ _ _ Hr) as (_ & _ & _ & T). exact T.
        -- discriminate.
        -- apply (W _ _ Hr).
      * pose proof (acquire_contended db lockID w holder n F L Hne) as Hr.
        do 2 eexists. split; [exact Hr|]. conjs.
        -- right; left. conjs; auto. eauto.
        -- discriminate.
        -- apply (W _ _ Hr).
    + destruct (acquire_granted db lockID w F) as (m & Hr).
      { intros h k. rewrite L. discriminate. }
      do 2 eexists. split; [exact Hr|]. conjs.
      * left. conjs; auto. destruct (acquire_ok _ _ _ _ Hr) as (_ & _ & _ & T). exact T.
      * discriminate.
      * apply (W _ _ Hr).
Qed.
(** * The call against the clock *)

(** ** A pace and the plain run *)

Lemma Timed_run_bind (pc : Timed.Pace) {A B : Type} (m : Prog A) (k : A -> Prog B)
  (w : World) :
  Timed.run pc (bind m k) w =
  match Timed.run pc m w with
  | Done a w' => Timed.run pc (k a) w'
  | Unfinished => Unfinished
  end.
Proof.
  revert w. induction m as [a| |X op k' IH]; intros w; cbn; try reflexivity.
  destruct (Timed.perform pc op w) as [x w']. apply IH.
Qed.

Lemma retime_same (w : World) : retime (clock w) w = w.
Proof. destruct w; reflexivity. Qed.

(** With statements answered at once and sleeps that end on time, the
    run at a pace is the plain run. *)
Lemma run_instant {A : Type} (p : Prog A) (w : World) :
  Timed.run Timed.instant p w = run p w.
Proof.
  revert w. induction p as [a| |X op k IH]; intros w; cbn; try reflexivity.
  destruct op as [Y r| |d|l]; cbn.
  - unfold Timed.request, request. cbn.
    destruct (serve r (fault (env w) (tick w)) (arrive r w)) as [x s].
    rewrite Z.add_0_r. apply IH.
  - apply IH.
  - unfold Timed.sleep, sleep. cbn. rewrite Z.add_0_r. apply IH.
  - apply IH.
Qed.

Lemma getSchemaVersion_statements (db : DB) : statements_only (getSchemaVersion db).
Proof.
  cbn. intros [e|]; cbn; [exact I|]. intros [v [e|]]; cbn; exact I.
Qed.

Lemma acquireAdvisoryLock_statements (db : DB) (lockID : Z) :
  statements_only (acquireAdvisoryLock db lockID).
Proof.
  cbn. intros [[|] [e|]]; cbn; exact I.
Qed.

(** What a program that only sends statements does, does not depend on
    the clock. *)
Lemma run_retime {A : Type} (p : Prog A) (t : Z) :
  statements_only p ->
  forall w,
    run p (retime t w)
    = match run p w with
      | Done a w1 => Done a (retime t w1)
      | Unfinished => Unfinished
      end.
Proof.
  induction p as [a| |X op k IH]; intros S w; cbn; try reflexivity.
  destruct op as [Y r| |d|l]; cbn in S |- *; try contradiction.
  - unfold request, arrive. cbn.
    destruct (serve r (fault (env w) (tick w))
                (if reads_committed r
                 then match peer (env w) (tick w) with
                      | Some p => set_committed (commit_of p (committed (server w)))
                                    (server w)
                      | None => server w
                      end
                 else server w)) as [x s] eqn:Sv.
    apply (IH x (S x)
             (mkWorld s (clock w) (Datatypes.S (tick w)) (env w) (trace w ++ [Sent r]))).
  - apply (IH tt S).
Qed.

(** At a pace, such a program does what it does in the plain run; the
    clock apart, which has moved on by the time its statements took. *)
Lemma Timed_run_statements (pc : Timed.Pace) {A : Type} (p : Prog A) :
  statements_only p ->
  forall w a w1,
    run p w = Done a w1 ->
    exists elapsed,
      Timed.run pc p w = Done a (retime (clock w + elapsed) w1)
      /\ 0 <= elapsed
      /\ (forall L, 0 <= L -> (forall n, Timed.latency pc n <= L) ->
          elapsed <= Z.of_nat (tick w1 - tick w) * L).
Proof.
  induction p as [a0| |X op k IH]; intros S w a w1; cbn.
  - intros [= <- <-]. exists 0. rewrite Z.add_0_r, retime_same.
    conjs; [reflexivity | lia |]. intros L L0 _. nia.
  - discriminate.
  - destruct op as [Y r| |d|l]; cbn in S |- *; try contradiction.
    + unfold Timed.request, request.
      destruct (serve r (fault (env w) (tick w)) (arrive r w)) as [x s].
      intros R.
      destruct (run_frame _ _ _ _ R) as (_ & K & _). cbn in K.
      pose proof (run_retime (k x) (clock w + Z.max 0 (Timed.latency pc (tick w)))
                    (S x) (mkWorld s (clock w) (Datatypes.S (tick w)) (env w)
                                   (trace w ++ [Sent r]))) as Rt.
      rewrite R in Rt. cbn in Rt.
      destruct (IH x (S x) _ _ _ Rt) as (el & Rn & E0 & Eb). cbn in Rn, Eb.
      exists (Z.max 0 (Timed.latency pc (tick w)) + el).
      conjs.
      * rewrite Z.add_assoc. exact Rn.
      * lia.
      * intros L L0 HL. pose proof (Eb L L0 HL) as B. pose proof (HL (tick w)) as B0.
        replace (Z.of_nat (tick w1 - tick w))
          with (Z.of_nat (tick w1 - Datatypes.S (tick w)) + 1) by lia.
        lia.
    + apply (IH tt S).
Qed.

(** ** The wait at a pace *)

Section TimedWait.

Variables (pc : Timed.Pace) (L O : Z).
Hypothesis L0 : 0 <= L.
Hypothesis O0 : 0 <= O.
Hypothesis HL : forall n, Timed.latency pc n <= L.
Hypothesis HO : forall n, Timed.oversleep pc n <= O.
Variables (db : DB) (targetVersion deadline timeout : Z).

Lemma Timed_waitForPeer_timeout (fuel : nat) (w : World) :
  deadline <= clock w ->
  Timed.run pc (waitForPeer (S fuel) db targetVersion deadline timeout) w
  = Done (Some (TimeoutError timeout)) w.
Proof.
  intros H. cbn. destruct (Z.ltb_spec (clock w) deadline); [lia | reflexivity].
Qed.

Lemma Timed_waitForPeer_round (fuel : nat) (w : World) :
  clock w < deadline ->
  Timed.run pc (waitForPeer (S fuel) db targetVersion deadline timeout) w
  = match Timed.run pc (getSchemaVersion db) (Timed.sleep pc checkInterval w) with
    | Done (_, Some e) w' => Done (Some e) w'
    | Done (latestVersion, None) w' =>
        if latestVersion >=? targetVersion then Done None w'
        else Timed.run pc (waitForPeer fuel db targetVersion deadline timeout) w'
    | Unfinished => Unfinished
    end.
Proof.
  intros H. cbn [waitForPeer]. cbn [bind trigger]. cbn [Timed.run Timed.perform].
  destruct (Z.ltb_spec (clock w) deadline); [|lia].
  cbn [bind trigger]. cbn [Timed.run Timed.perform]. rewrite Timed_run_bind.
  destruct (Timed.run pc (getSchemaVersion db) (Timed.sleep pc checkInterval w))
    as [[v [e|]] w'|]; try reflexivity.
  destruct (v >=? targetVersion); reflexivity.
Qed.

(** One round of the wait: the sleep, then the read, which is the read
    of the plain run in the world the sleep left, the clock apart; the
    round takes one poll interval at least, and at most what the sleep
    overshoots and the two statements take more. *)
Lemma Timed_poll_round (w : World) :
  exists v err ws w1,
    run (getSchemaVersion db) (Timed.sleep pc checkInterval w) = Done (v, err) ws
    /\ Timed.run pc (getSchemaVersion db) (Timed.sleep pc checkInterval w)
       = Done (v, err) w1
    /\ server w1 = server ws
    /\ tick w1 = tick ws
    /\ env w1 = env w
    /\ locks (server w1) = locks (server w)
    /\ open_tx (server w1) = open_tx (server w)
    /\ clock w + checkInterval <= clock w1 <= clock w + checkInterval + O + 2 * L
    /\ exists l1,
         trace w1 = trace w ++ l1
         /\ forallb is_poll l1 = true
         /\ count is_sleep l1 = 1%nat
         /\ count is_version_read l1 = 1%nat.
Proof.
  destruct (getSchemaVersion_frame db (Timed.sleep pc checkInterval w))
    as ([v err] & ws & R & Lk & Op & _ & E & T).
  destruct (Timed_run_statements pc (getSchemaVersion db) (getSchemaVersion_statements db)
              _ _ _ R) as (el & Rt & E0 & Eb).
  pose proof (Eb L L0 HL) as B. pose proof checkInterval_pos as Pos.
  pose proof (HO (tick w)) as Bo.
  cbn in Lk, Op, E, T, B, Rt.
  exists v, err, ws. eexists. split; [exact R|]. split; [exact Rt|]. cbn.
  conjs; try assumption; try reflexivity.
  - lia.
  - assert (K : (tick ws - tick w <= 2)%nat)
      by (destruct T as [(_ & K & _)|(_ & K)]; rewrite K; lia).
    nia.
  - destruct T as [(T & _)|(T & _)]; rewrite <- app_assoc in T; cbn in T;
      eexists; (split; [exact T|]); conjs; reflexivity.
Qed.

Lemma Timed_waitForPeer_finishes (fuel : nat) (w : World) :
  (1 <= fuel)%nat ->
  deadline - clock w <= (Z.of_nat fuel - 1) * checkInterval ->
  exists r w',
    Timed.run pc (waitForPeer fuel db targetVersion deadline timeout) w = Done r w'.
Proof.
  revert w. induction fuel as [|fuel IH]; intros w F B; [lia|].
  destruct (Z.le_gt_cases deadline (clock w)) as [Hd|Hd].
  - rewrite Timed_waitForPeer_timeout by assumption. eauto.
  - rewrite Timed_waitForPeer_round by lia.
    destruct (Timed_poll_round w) as (v & err & ws & w1 & _ & Rt & _ & _ & _ & _ & _ & C & _).
    rewrite Rt. destruct err as [e|]; [eauto|].
    destruct (v >=? targetVersion); [eauto|].
    apply IH.
    + destruct fuel; [|lia]. cbn in B. lia.
    + lia.
Qed.


End TimedWait.

(** ** The call that was not granted the lock *)

Lemma Timed_UpgradeIfNeeded_not_acquired
  (pc : Timed.Pace) (fuel : nat) (db : DB) (targetVersion : Z) (upgradeFunc : Callback)
  (timeout : Z) (w : World) (e : Error) (w2 : World) :
  timed_not_acquired pc db targetVersion w e w2 ->
  Timed.run pc (UpgradeIfNeeded fuel db targetVersion upgradeFunc timeout) w
  = Timed.run pc (waitForPeer fuel db targetVersion (clock w2 + timeout) timeout) w2.
Proof.
  intros [v0 w1 H1 Hlt H2]. unfold UpgradeIfNeeded.
  rewrite Timed_run_bind, H1. cbv beta iota.
  destruct (Z.geb_spec v0 targetVersion); [lia|].
  fold (lockID_of targetVersion). rewrite Timed_run_bind, H2. reflexivity.
Qed.

(** What the first read and the lock request have left, and how long
    they took. *)
Lemma timed_not_acquired_frame
  (pc : Timed.Pace) (L : Z) (db : DB) (targetVersion : Z) (w : World) (e : Error)
  (w2 : World) :
  0 <= L ->
  (forall n, Timed.latency pc n <= L) ->
  timed_not_acquired pc db targetVersion w e w2 ->
  trace w2 = trace w ++ [Sent (ExecInit db); Sent (QueryVersion db);
                         Sent (QueryTryLock db (lockID_of targetVersion))]
  /\ tick w2 = (3 + tick w)%nat
  /\ env w2 = env w
  /\ clock w <= clock w2 <= clock w + 3 * L
  /\ locks (server w2) = locks (server w)
  /\ open_tx (server w2) = open_tx (server w)
  /\ persisted_version (committed (server w2)) < targetVersion
  /\ schema_version (committed (server w2)) <> []
  /\ ((exists cause, e = LockCheckError cause) \/ e = LockHeldError).
Proof.
  intros L0 HL [v0 w1 H1 Hlt H2].
  destruct (getSchemaVersion_frame db w) as (r1 & w1s & R1 & _).
  destruct (Timed_run_statements pc _ (getSchemaVersion_statements db) _ _ _ R1)
    as (el1 & Rt1 & E1 & B1).
  rewrite H1 in Rt1. injection Rt1 as <- ->.
  destruct (getSchemaVersion_ok _ _ _ _ R1) as (T1 & K1 & L1 & O1 & _ & Ev1 & rest & Rows).
  pose proof (B1 L L0 HL) as B1'. rewrite K1 in B1'.
  destruct (acquire_frame db (lockID_of targetVersion)
              (retime (clock w + el1) w1s)) as (r2 & w2s & R2 & _).
  destruct (Timed_run_statements pc _
              (acquireAdvisoryLock_statements db (lockID_of targetVersion)) _ _ _ R2)
    as (el2 & Rt2 & E2 & B2).
  rewrite H2 in Rt2. injection Rt2 as <- ->.
  destruct (acquire_error _ _ _ _ _ R2) as (-> & Kind).
  pose proof (B2 L L0 HL) as B2'. cbn in B2' |- *.
  conjs; try assumption.
  - rewrite T1, <- app_assoc. reflexivity.
  - rewrite K1. reflexivity.
  - lia.
  - replace (Z.of_nat (S (S (tick w)) - tick w)) with 2 in B1' by lia.
    replace (Z.of_nat (S (tick w1s) - tick w1s)) with 1 in B2' by lia.
    lia.
  - unfold persisted_version. rewrite Rows. assumption.
  - rewrite Rows. discriminate.
Qed.


(** * The results on concrete runs *)

Ltac by_running := vm_compute; reflexivity.
Ltac by_arith := unfold checkInterval, second in *; cbn in *; lia.

(** Version 2, target 1: no lock, no write, success. *)
Lemma fast_path_witness :
  exists w1,
    run (getSchemaVersion 1) upgraded_world = Done (2, None) w1
    /\ run (UpgradeIfNeeded 0 1 1 create_users (10 * second)) upgraded_world = Done None w1
    /\ trace w1 = [Sent (ExecInit 1); Sent (QueryVersion 1)]
    /\ persisted_version (committed (server w1)) = 2.
Proof.
  eexists. assert (H : run (getSchemaVersion 1) upgraded_world = Done (2, None) _)
    by by_running.
  split; [exact H|].
  destruct (fast_path_no_lock_no_write 0 1 1 create_users (10 * second)
              upgraded_world 2 _ H ltac:(lia)) as (R & T & _ & _ & _ & P & _).
  conjs; assumption.
Defined.

Ltac double_checking v0 :=
  eapply DoubleChecked with (currentVersion := v0);
  [by_running | lia | by_running | by_running].

Ltac not_acquiring v0 :=
  eapply NotAcquired with (currentVersion := v0);
  [by_running | lia | by_running].

(** A peer commits version 1 between the two reads of a call for
    target 1: the call takes the lock, sees the version, and releases. *)
Lemma double_check_witness :
  exists w5,
    run (UpgradeIfNeeded 0 1 1 create_users (10 * second)) overtaken_world = Done None w5
    /\ trace w5 = [Sent (ExecInit 1); Sent (QueryVersion 1);
                   Sent (QueryTryLock 1 (lockID_of 1));
                   Sent (ExecInit 1); Sent (QueryVersion 1);
                   Sent (ExecUnlock 1 (lockID_of 1))]
    /\ persisted_version (committed (server w5)) = 1
    /\ locks (server w5) = ∅.
Proof.
  eassert (D : double_checked 1 1 overtaken_world 1 _) by double_checking 0.
  destruct (double_check_skips_upgrade 0 1 1 create_users (10 * second)
              overtaken_world 1 _ D ltac:(lia)) as (w5 & R & T & _ & P & _ & L).
  exists w5. conjs; try assumption. apply L. reflexivity.
Defined.

(** Version 0, target 1, one instance: the callback runs, the version
    becomes 1, the call returns [nil]. *)
Lemma self_upgrade_witness :
  exists w5,
    run (UpgradeIfNeeded 0 1 1 create_users (10 * second)) fresh_world = Done None w5
    /\ since fresh_world w5
       = [Sent (ExecInit 1); Sent (QueryVersion 1);
          Sent (QueryTryLock 1 (lockID_of 1));
          Sent (ExecInit 1); Sent (QueryVersion 1);
          Sent (Begin 1); Sent (Call create_users (mkTx 1));
          Sent (TxExecUpdate (mkTx 1) 1); Sent (Commit (mkTx 1));
          Sent (ExecUnlock 1 (lockID_of 1))]
    /\ committed (server w5) = mkContent [1] ["users"]
    /\ locks (server w5) = ∅.
Proof.
  eassert (D : double_checked 1 1 fresh_world 0 _) by double_checking 0.
  destruct (self_upgrade_commits_target 0 1 1 create_users (10 * second)
              fresh_world 0 _ ["users"] D ltac:(lia) eq_refl eq_refl eq_refl eq_refl)
    as (w5 & R & T & P & V & A & O & L).
  exists w5. conjs; try assumption.
  - pose proof R as R'. vm_compute in R'. inversion R'. reflexivity.
  - apply L. reflexivity.
Defined.

(** Version 0, target 1, a callback that fails: rollback, release, the
    error of the callback wrapped, and the content as it was. *)
Lemma callback_error_witness :
  exists w5,
    run (UpgradeIfNeeded 0 1 1 failing_migration (10 * second)) fresh_world
    = Done (Some (UpgradeExecutionError (External "relation already exists"))) w5
    /\ since fresh_world w5
       = [Sent (ExecInit 1); Sent (QueryVersion 1);
          Sent (QueryTryLock 1 (lockID_of 1));
          Sent (ExecInit 1); Sent (QueryVersion 1);
          Sent (Begin 1); Sent (Call failing_migration (mkTx 1));
          Sent (Rollback (mkTx 1));
          Sent (ExecUnlock 1 (lockID_of 1))]
    /\ committed (server w5) = mkContent [0] []
    /\ persisted_version (committed (server w5)) = 0
    /\ open_tx (server w5) !! 1%nat = None
    /\ locks (server w5) = ∅.
Proof.
  eassert (D : double_checked 1 1 fresh_world 0 _) by double_checking 0.
  destruct (callback_error_rolls_back 0 1 1 failing_migration (10 * second)
              fresh_world 0 _ ["users"] (External "relation already exists")
              D ltac:(lia) eq_refl eq_refl)
    as (w5 & R & T & C & P & O & L).
  exists w5. destruct (P eq_refl) as (_ & PV).
  conjs; try assumption. apply L. reflexivity.
Defined.

(** Session 2 holds the lock. With timeout 0 the call returns the
    timeout error without a sleep or a read; with timeout 10s it sleeps
    5s, then reads version 0 with both statements of the read, and
    goes on from there. *)
Lemma contended_witness :
  (exists w2,
      run (UpgradeIfNeeded 1 1 1 create_users 0) contended_world
      = Done (Some (TimeoutError 0)) w2
      /\ trace w2 = [Sent (ExecInit 1); Sent (QueryVersion 1);
                     Sent (QueryTryLock 1 (lockID_of 1))]
      /\ clock w2 = 0)
  /\ (exists w2 w3 r w' rest,
        run (getSchemaVersion 1) (sleep checkInterval w2) = Done (0, None) w3
        /\ since w2 w3 = [Slept checkInterval; Sent (ExecInit 1); Sent (QueryVersion 1)]
        /\ 5 * second <= clock w3
        /\ run (UpgradeIfNeeded 3 1 1 create_users (10 * second)) contended_world
           = Done r w'
        /\ since w2 w' = Slept checkInterval :: Sent (ExecInit 1) :: rest
        /\ 5 * second <= clock w').
Proof.
  eassert (N : not_acquired 1 1 contended_world LockHeldError _) by not_acquiring 0.
  split.
  - destruct (contended_sleeps_before_first_read 0 1 1 create_users 0 _ _ _ N)
      as (Z0 & _).
    destruct (Z0 ltac:(lia)) as (R & T & C).
    eexists. conjs; [exact R | exact T | exact C].
  - destruct (contended_sleeps_before_first_read 2 1 1 create_users (10 * second) _ _ _ N)
      as (_ & P).
    destruct (P ltac:(by_arith)) as (v & err & w3 & Hr & _ & Tr & C3 & Fin).
    destruct (Fin ltac:(by_arith)) as (r & w' & rest & R & T & _ & C).
    assert (E : v = 0 /\ err = None).
    { pose proof Hr as Hr'. vm_compute in Hr'. injection Hr' as E1 E2 _.
      split; symmetry; assumption. }
    destruct E as (-> & ->).
    destruct Tr as [(_ & Tr)|(c & F & _)]; [|vm_compute in F; discriminate F].
    eexists. exists w3, r, w', rest.
    conjs; [exact Hr | exact Tr | | exact R | exact T | ].
    + cbn [clock] in C3. by_arith.
    + cbn [clock] in C. by_arith.
Defined.

(** Session 2 holds the lock and the second poll cannot read: one round
    that reads version 0, then the read error, after two sleeps and two
    reads, 10s into a wait of 20s. *)
Lemma failed_poll_witness :
  exists w2 w',
    run (UpgradeIfNeeded 2 1 1 create_users (20 * second)) failing_poll_world
    = Done (Some (InitError (External "connection reset"))) w'
    /\ count is_sleep (since w2 w') = 2%nat
    /\ count is_version_read (since w2 w') = 2%nat
    /\ clock w' = 10 * second.
Proof.
  eassert (N : not_acquired 1 1 failing_poll_world LockHeldError _) by not_acquiring 0.
  match type of N with not_acquired _ _ _ _ ?w2 =>
    eassert (M : nsteps (poll_miss 1 1 (clock w2 + 20 * second)) 1 w2 _)
  end.
  { eapply nsteps_l; [|apply nsteps_O].
    eapply PollMiss with (latestVersion := 0); [reflexivity | by_running | lia]. }
  match type of M with nsteps _ _ _ ?wk =>
    eassert (F : run (getSchemaVersion 1) (sleep checkInterval wk)
                 = Done (0, Some (InitError (External "connection reset"))) _)
      by by_running
  end.
  destruct (failed_poll_read_aborts_wait 2 1 1 create_users (20 * second)
              _ _ _ 1 _ _ _ _ N M eq_refl F ltac:(lia))
    as (R & _ & _ & S & V & _).
  do 2 eexists. conjs; [exact R | exact S | exact V | reflexivity].
Defined.



(** Three calls in a row, for targets 1, 3 and 2: versions 1, 3, 3. *)
Lemma never_decreases_witness :
  exists w',
    run_calls three_calls fresh_world = Done [None; None; None] w'
    /\ persisted_version (committed (server fresh_world)) = 0
    /\ persisted_version (committed (server w')) = 3
    /\ persisted_version (committed (server fresh_world))
       <= persisted_version (committed (server w')).
Proof.
  eexists.
  eassert (R : run_calls three_calls fresh_world = Done [None; None; None] _) by by_running.
  split; [exact R|]. conjs; [reflexivity | reflexivity |].
  apply (proj2 persisted_version_never_decreases three_calls fresh_world _ _
           (fun _ => eq_refl) R).
Defined.

(** C1, as stated, fails on contention: with the lock held by session
    2 and the query answered, the lock request of session 1 ends in an
    error, not in [nil]. *)
Lemma contention_counterexample :
  fault (env contended_world) (tick contended_world) = None
  /\ locks (server contended_world) !! lockID_of 1 = Some (2%nat, 1%positive)
  /\ run (acquireAdvisoryLock 1 (lockID_of 1)) contended_world
     = Done (Some LockHeldError)
         (sent (QueryTryLock 1 (lockID_of 1)) (server contended_world) contended_world)
  /\ Some LockHeldError <> (None : error).
Proof.
  conjs; [reflexivity | by_running | by_running | discriminate].
Defined.

(** The lock request of a call in the contended world, by the theorem:
    the error of a lock already held, the server as it was, and the
    call goes on to wait. *)
Lemma contention_witness :
  exists w w',
    run (getSchemaVersion 1) contended_world = Done (0, None) w
    /\ run (acquireAdvisoryLock 1 (lockID_of 1)) w = Done (Some LockHeldError) w'
    /\ server w' = server w
    /\ run (UpgradeIfNeeded 1 1 1 create_users 0) contended_world
       = run (waitForPeer 1 1 1 (clock w' + 0) 0) w'.
Proof.
  eassert (H1 : run (getSchemaVersion 1) contended_world = Done (0, None) _)
    by by_running.
  match type of H1 with _ = Done _ ?w =>
    destruct (contention_is_an_error_of_its_own 1 (lockID_of 1) w)
      as (r & w' & R & Cases & _ & Wait);
    exists w, w'
  end.
  destruct Cases as [(-> & _ & T)|[(-> & _ & S & _)|(c & _ & F & _)]].
  - vm_compute in T. discriminate.
  - conjs; [exact H1 | exact R | exact S |].
    apply (Wait 1%nat 1 create_users 0 contended_world 0 eq_refl H1 ltac:(lia) eq_refl).
  - discriminate.
Defined.

(** * Several calls at once *)

(** ** The package follows the discipline *)

Section Discipline.

Variables (i : nat) (targetVersion : Z).

Lemma follows_bind {A B : Type} (Q' : A -> Phase -> Prop) (Q : B -> Phase -> Prop)
  (ph : Phase) (m : Prog A) (k : A -> Prog B) :
  follows i targetVersion Q' ph m ->
  (forall a ph', Q' a ph' -> follows i targetVersion Q ph' (k a)) ->
  follows i targetVersion Q ph (bind m k).
Proof.
  revert ph. induction m as [a| |X op k' IH]; intros ph Hm Hk; cbn in *.
  - apply Hk. exact Hm.
  - exact I.
  - destruct op as [X r| |d|l]; cbn in *.
    + intros x Hx. destruct (Hm x Hx) as (ph' & Hn & Hf).
      exists ph'. split; [exact Hn|]. apply IH; assumption.
    + intros t. apply IH; [apply Hm | assumption].
    + apply IH; assumption.
    + apply IH; assumption.
Qed.

Lemma follows_logErrorf (Q : Error -> Phase -> Prop) (ph : Phase)
  (format : string) (v : list (Value Error)) :
  Q (Errorf format v) ph ->
  follows i targetVersion Q ph (logErrorf format v).
Proof. intros H. exact H. Qed.

Lemma follows_getSchemaVersion_idle :
  follows i targetVersion (fun _ ph => ph = Idle) Idle (getSchemaVersion i).
Proof.
  cbn. rewrite Nat.eqb_refl. intros [e|] _; eexists; (split; [reflexivity|]); cbn.
  - reflexivity.
  - rewrite Nat.eqb_refl. intros [v [e|]] _; eexists; (split; [reflexivity|]); reflexivity.
Qed.

(** Under the lock a version read leads to [Checked] exactly when it
    returns a version below the target. *)
Lemma follows_getSchemaVersion_held :
  follows i targetVersion
    (fun r ph => ph = match r with
                      | (v, None) => if v <? targetVersion then Checked else Held
                      | (_, Some _) => Held
                      end)
    Held (getSchemaVersion i).
Proof.
  cbn. rewrite Nat.eqb_refl. intros [e|] _; eexists; (split; [reflexivity|]); cbn.
  - reflexivity.
  - rewrite Nat.eqb_refl. intros [v [e|]] _.
    + eexists; split; reflexivity.
    + destruct (v <? targetVersion) eqn:E; eexists; (split; [reflexivity|]);
        cbn; rewrite E; reflexivity.
Qed.

Lemma follows_acquireAdvisoryLock :
  follows i targetVersion
    (fun err ph => ph = match err with None => Held | Some _ => Idle end)
    Idle (acquireAdvisoryLock i (lockID_of targetVersion)).
Proof.
  cbn. rewrite Nat.eqb_refl, Z.eqb_refl. cbn.
  intros [[|] [e|]] _; eexists; (split; [reflexivity|]); reflexivity.
Qed.

Lemma follows_releaseAdvisoryLock :
  follows i targetVersion (fun _ ph => ph = Idle)
    Held (releaseAdvisoryLock i (lockID_of targetVersion)).
Proof.
  cbn. rewrite Nat.eqb_refl, Z.eqb_refl. cbn.
  intros [e|] _; eexists; (split; [reflexivity|]); reflexivity.
Qed.

Lemma follows_upgradeSchema (upgradeFunc : Callback) :
  follows i targetVersion (fun _ ph => ph = Held)
    Checked (upgradeSchema i targetVersion upgradeFunc).
Proof.
  cbn. rewrite Nat.eqb_refl. intros [tx [e|]] Htx; cbn in Htx; subst tx;
    eexists; (split; [reflexivity|]); cbn; [reflexivity|].
  rewrite Nat.eqb_refl. intros [e|] _; eexists; (split; [reflexivity|]); cbn.
  - rewrite Nat.eqb_refl. intros x _. eexists; split; reflexivity.
  - rewrite Nat.eqb_refl, Z.eqb_refl. cbn.
    intros [e|] _; eexists; (split; [reflexivity|]); cbn.
    + rewrite Nat.eqb_refl. intros x _. eexists; split; reflexivity.
    + rewrite Nat.eqb_refl. intros [e|] _; eexists; (split; [reflexivity|]); reflexivity.
Qed.

Lemma follows_waitForPeer (fuel : nat) (deadline timeout : Z) :
  follows i targetVersion returns_idle
    Idle (waitForPeer fuel i targetVersion deadline timeout).
Proof.
  induction fuel as [|fuel IH]; [exact I|].
  cbn [waitForPeer]. cbn [bind trigger follows op_follows]. intros t.
  destruct (t <? deadline); [|reflexivity].
  cbn [bind trigger follows op_follows].
  eapply follows_bind; [apply follows_getSchemaVersion_idle|].
  intros [v [e|]] ph ->; cbn; [reflexivity|].
  destruct (v >=? targetVersion); [reflexivity | exact IH].
Qed.

Lemma follows_upgradeLocked (upgradeFunc : Callback) :
  follows i targetVersion (fun _ ph => ph = Held)
    Held (upgradeLocked i targetVersion upgradeFunc).
Proof.
  unfold upgradeLocked.
  eapply follows_bind; [apply follows_getSchemaVersion_held|].
  intros [v [e|]] ph ->; [reflexivity|].
  destruct (Z.geb_spec v targetVersion) as [G|L];
    destruct (Z.ltb_spec v targetVersion); try lia.
  - reflexivity.
  - cbn [bind trigger follows op_follows].
    eapply follows_bind; [apply follows_upgradeSchema|].
    intros [e|] ph ->; reflexivity.
Qed.

(** Every call of [UpgradeIfNeeded] on handle [i] for the target follows
    the discipline and returns without the lock. *)
Lemma follows_UpgradeIfNeeded (fuel : nat) (upgradeFunc : Callback) (timeout : Z) :
  follows i targetVersion returns_idle
    Idle (UpgradeIfNeeded fuel i targetVersion upgradeFunc timeout).
Proof.
  unfold UpgradeIfNeeded.
  eapply follows_bind; [apply follows_getSchemaVersion_idle|].
  intros [v [e|]] ph ->; [reflexivity|].
  destruct (v >=? targetVersion); [reflexivity|].
  fold (lockID_of targetVersion).
  eapply follows_bind; [apply follows_acquireAdvisoryLock|].
  intros [e|] ph ->.
  - cbn [bind trigger follows op_follows]. intros t. apply follows_waitForPeer.
  - eapply follows_bind; [apply follows_upgradeLocked|].
    intros r ph ->.
    eapply follows_bind; [apply follows_releaseAdvisoryLock|].
    intros r' ph ->. reflexivity.
Qed.

End Discipline.

(** ** The invariant *)

Lemma count_insert {A : Type} (p : A -> bool) (l : list A) (i : nat) (x y : A) :
  l !! i = Some x ->
  (count p (<[i := y]> l) + (if p x then 1 else 0)
   = count p l + (if p y then 1 else 0))%nat.
Proof.
  revert i. induction l as [|a l IH]; intros [|i]; cbn; try discriminate.
  - intros H; inversion H; subst. unfold count. cbn.
    destruct (p x), (p y); cbn; lia.
  - intros H. specialize (IH _ H). unfold count in *.
    change (<[S i:=y]> (a :: l)) with (a :: <[i:=y]> l).
    cbn [List.filter]. destruct (p a); cbn [length Nat.add]; [f_equal|]; exact IH.
Qed.

Lemma count_insert_same {A : Type} (p : A -> bool) (l : list A) (i : nat) (x y : A) :
  l !! i = Some x -> p x = p y -> count p (<[i := y]> l) = count p l.
Proof.
  intros H E. pose proof (count_insert p l i x y H) as C. rewrite E in C.
  destruct (p y); lia.
Qed.

Lemma count_one {A : Type} (p : A -> bool) (l : list A) (x : A) :
  count p (l ++ [x]) = (count p l + (if p x then 1 else 0))%nat.
Proof. rewrite count_app. unfold count. cbn. destruct (p x); reflexivity. Qed.

Section Preservation.

Variable targetVersion : Z.

(** The lock has one holder: while an instance is not idle, all others
    are. *)
Lemma others_idle (phases : list Phase) (s : Server) (h : list Answered)
  (i j : nat) (ph phj : Phase) :
  ServerInv targetVersion phases s h ->
  phases !! i = Some ph -> ph <> Idle ->
  phases !! j = Some phj -> j <> i ->
  phj = Idle.
Proof.
  intros SI Hi Hn Hj Hne.
  destruct phj; try reflexivity;
    destruct (inv_lock _ _ _ _ SI i ph Hi Hn) as (n & L);
    (destruct (inv_lock _ _ _ _ SI j _ Hj) as (m & L'); [discriminate|]);
    rewrite L in L'; inversion L'; congruence.
Qed.


Lemma server_inv_history (phases : list Phase) (s : Server) (h : list Answered)
  (e : Answered) :
  ServerInv targetVersion phases s h ->
  is_run e = false -> is_commit e = false -> is_abort e = false ->
  ServerInv targetVersion phases s (h ++ [e]).
Proof.
  intros [L O C B K R] Er Ec Ea.
  constructor; auto; rewrite ?count_one, ?Er, ?Ec, ?Ea, ?Nat.add_0_r; assumption.
Qed.

Lemma server_inv_seeded (phases : list Phase) (s : Server) (h : list Answered) :
  ServerInv targetVersion phases s h ->
  ServerInv targetVersion phases (set_committed (seed (committed s)) s) h.
Proof.
  intros [L O C B K R]. constructor; cbn; auto.
  - intros i ph Hi Hb. destruct (B i ph Hi Hb) as (Hlt & Hne).
    rewrite persisted_version_seed. split; [assumption|].
    destruct (seed_rows (committed s)) as (v & rows & -> & _). discriminate.
  - destruct K as [K|(K & Hle & Hne)]; [left; assumption|right].
    rewrite persisted_version_seed. conjs; auto.
    destruct (seed_rows (committed s)) as (v & rows & -> & _). discriminate.
Qed.

(** One instance moves, all the others being idle and untouched. *)
Lemma server_inv_solo (phases : list Phase) (s s' : Server) (h h' : list Answered)
  (i : nat) (ph ph' : Phase) :
  ServerInv targetVersion phases s h ->
  phases !! i = Some ph ->
  (forall j phj, phases !! j = Some phj -> j <> i -> phj = Idle) ->
  (forall j, j <> i -> open_tx s' !! j = open_tx s !! j) ->
  (ph' <> Idle -> exists n, locks s' !! lockID_of targetVersion = Some (i, n)) ->
  (in_tx ph' = true ->
   exists c, open_tx s' !! i = Some c /\ schema_version c <> []
             /\ (ph' = Updated -> persisted_version c = targetVersion)) ->
  (in_tx ph' = false -> open_tx s' !! i = None) ->
  (below ph' = true ->
   persisted_version (committed s') < targetVersion
   /\ schema_version (committed s') <> []) ->
  (count is_commit h' = 0%nat
   \/ (count is_commit h' = 1%nat
       /\ targetVersion <= persisted_version (committed s')
       /\ schema_version (committed s') <> [])) ->
  count is_run h'
  = (count is_commit h' + count is_abort h' + count has_run (<[i := ph']> phases))%nat ->
  ServerInv targetVersion (<[i := ph']> phases) s' h'.
Proof.
  intros SI Hi Others Tx L O C B K R.
  pose proof (lookup_lt_Some _ _ _ Hi) as Hlen.
  assert (Case : forall j phj, <[i := ph']> phases !! j = Some phj ->
                 (j = i /\ phj = ph') \/ (j <> i /\ phj = Idle /\ phases !! j = Some Idle)).
  { intros j phj Hj. destruct (decide (j = i)) as [->|Hne].
    - rewrite list_lookup_insert_eq in Hj by assumption. inversion Hj. auto.
    - rewrite list_lookup_insert_ne in Hj by auto.
      pose proof (Others _ _ Hj Hne) as ->. auto. }
  constructor; auto.
  - intros j phj Hj Hn. destruct (Case _ _ Hj) as [(-> & ->)|(_ & -> & _)]; auto.
    contradiction.
  - intros j phj Hj Hn. destruct (Case _ _ Hj) as [(-> & ->)|(_ & -> & _)]; auto.
    discriminate.
  - intros j phj Hj Hn. destruct (Case _ _ Hj) as [(-> & ->)|(Hne & -> & Hj')]; auto.
    rewrite (Tx _ Hne). apply (inv_tx_closed _ _ _ _ SI j Idle Hj'). reflexivity.
  - intros j phj Hj Hn. destruct (Case _ _ Hj) as [(-> & ->)|(_ & -> & _)]; auto.
    discriminate.
Qed.


Lemma try_lock_refused (db : DB) (id : Z) (l l' : gmap Z (DB * positive)) :
  try_lock db id l = (false, l') -> l' = l.
Proof.
  unfold try_lock. destruct (l !! id) as [[holder n]|]; [|discriminate].
  destruct (Nat.eqb holder db); [discriminate|]. intros H; inversion H; reflexivity.
Qed.

Lemma try_lock_granted (db : DB) (id : Z) (l l' : gmap Z (DB * positive)) :
  try_lock db id l = (true, l') ->
  (exists n, l' !! id = Some (db, n))
  /\ (forall holder n, l !! id = Some (holder, n) -> holder = db).
Proof.
  unfold try_lock. destruct (l !! id) as [[holder n]|] eqn:E.
  - destruct (Nat.eqb_spec holder db) as [->|]; [|discriminate].
    intros H; inversion H; subst. rewrite lookup_insert_eq. split; [eauto|].
    intros h m Hm. inversion Hm. reflexivity.
  - intros H; inversion H; subst. rewrite lookup_insert_eq. split; [eauto|].
    discriminate.
Qed.

Lemma set_locks_same (s : Server) : set_locks (locks s) s = s.
Proof. destruct s; reflexivity. Qed.

Lemma persisted_version_update (v : Z) (c : Content) :
  schema_version c <> [] ->
  persisted_version (update_version v c) = v
  /\ schema_version (update_version v c) <> [].
Proof.
  destruct c as [[|v0 rows] a]; cbn; [contradiction|].
  intros _. split; [reflexivity | discriminate].
Qed.


(** *** One request of one instance *)

Ltac unchanged :=
  rewrite list_insert_id by assumption;
  apply server_inv_history; [|reflexivity..].

Lemma keeps_commits_same (phases : list Phase) (s : Server) (h : list Answered)
  (e : Answered) (s' : Server) :
  ServerInv targetVersion phases s h ->
  is_commit e = false -> committed s' = committed s ->
  count is_commit (h ++ [e]) = 0%nat
  \/ (count is_commit (h ++ [e]) = 1%nat
      /\ targetVersion <= persisted_version (committed s')
      /\ schema_version (committed s') <> []).
Proof.
  intros SI E C. rewrite count_one, E, Nat.add_0_r, C. exact (inv_commits _ _ _ _ SI).
Qed.

Lemma keeps_runs_same (phases : list Phase) (s : Server) (h : list Answered)
  (i : nat) (ph : Phase) (e : Answered) (ph' : Phase) :
  ServerInv targetVersion phases s h ->
  phases !! i = Some ph ->
  is_run e = false -> is_commit e = false -> is_abort e = false ->
  has_run ph = has_run ph' ->
  count is_run (h ++ [e])
  = (count is_commit (h ++ [e]) + count is_abort (h ++ [e])
     + count has_run (<[i := ph']> phases))%nat.
Proof.
  intros SI Hi Er Ec Ea E. rewrite !count_one, Er, Ec, Ea, !Nat.add_0_r.
  rewrite (count_insert_same has_run phases i ph ph' Hi E).
  exact (inv_runs _ _ _ _ SI).
Qed.

Section Keeps.

Variables (phases : list Phase) (s : Server) (h : list Answered) (i : nat).

Lemma keeps_ExecInit (ph : Phase) (f : error) (x : error) (s' : Server) (ph' : Phase) :
  ServerInv targetVersion phases s h ->
  phases !! i = Some ph ->
  next i targetVersion ph (ExecInit i) x = Some ph' ->
  serve (ExecInit i) f s = (x, s') ->
  ServerInv targetVersion (<[i := ph']> phases) s' (h ++ [Got i (ExecInit i) x]).
Proof.
  intros SI Hi. cbn. rewrite Nat.eqb_refl. intros Hn Hs.
  assert (ph' = ph) as -> by (destruct ph; inversion Hn; reflexivity).
  destruct f; inversion Hs; subst; unchanged; [assumption|].
  apply server_inv_seeded. assumption.
Qed.

Lemma keeps_QueryVersion (ph : Phase) (f : error) (x : Z * error) (s' : Server)
  (ph' : Phase) :
  ServerInv targetVersion phases s h ->
  phases !! i = Some ph ->
  next i targetVersion ph (QueryVersion i) x = Some ph' ->
  serve (QueryVersion i) f s = (x, s') ->
  ServerInv targetVersion (<[i := ph']> phases) s' (h ++ [Got i (QueryVersion i) x]).
Proof.
  intros SI Hi. cbn. rewrite Nat.eqb_refl. intros Hn Hs.
  assert (s' = s) as ->.
  { destruct f; [inversion Hs; reflexivity|].
    destruct (schema_version (committed s)); inversion Hs; reflexivity. }
  destruct ph; try discriminate.
  - inversion Hn; subst. unchanged. assumption.
  - destruct x as [v [e|]].
    + inversion Hn; subst. unchanged. assumption.
    + destruct (Z.ltb_spec v targetVersion) as [Hlt|Hge]; inversion Hn; subst.
      * assert (R : exists rows, schema_version (committed s) = v :: rows).
        { destruct f; [discriminate|].
          destruct (schema_version (committed s)) as [|v0 rows]; inversion Hs; eauto. }
        destruct R as (rows & R).
        apply (server_inv_solo phases s s h _ i Held Checked SI Hi).
        -- intros j phj Hj Hne.
           apply (others_idle phases s h i j Held phj SI Hi); auto; discriminate.
        -- reflexivity.
        -- intros _. apply (inv_lock _ _ _ _ SI i Held Hi). discriminate.
        -- discriminate.
        -- intros _. apply (inv_tx_closed _ _ _ _ SI i Held Hi). reflexivity.
        -- intros _. unfold persisted_version. rewrite R. split; [assumption|discriminate].
        -- eapply keeps_commits_same; eauto.
        -- eapply keeps_runs_same; eauto.
      * unchanged. assumption.
Qed.


Lemma keeps_QueryTryLock (ph : Phase) (f : error) (x : bool * error) (s' : Server)
  (ph' : Phase) :
  ServerInv targetVersion phases s h ->
  phases !! i = Some ph ->
  next i targetVersion ph (QueryTryLock i (lockID_of targetVersion)) x = Some ph' ->
  serve (QueryTryLock i (lockID_of targetVersion)) f s = (x, s') ->
  ServerInv targetVersion (<[i := ph']> phases) s'
    (h ++ [Got i (QueryTryLock i (lockID_of targetVersion)) x]).
Proof.
  intros SI Hi. cbn. rewrite Nat.eqb_refl, Z.eqb_refl. cbn. intros Hn Hs.
  destruct ph; try discriminate.
  destruct f as [e|].
  { inversion Hs; subst. inversion Hn; subst. unchanged. assumption. }
  destruct (try_lock i (lockID_of targetVersion) (locks s)) as [[|] l] eqn:T;
    inversion Hs; subst; inversion Hn; subst.
  - destruct (try_lock_granted _ _ _ _ T) as ((n & L) & Free).
    apply (server_inv_solo phases s _ h _ i Idle Held SI Hi).
    + intros j phj Hj Hne. destruct phj; try reflexivity;
        (destruct (inv_lock _ _ _ _ SI j _ Hj) as (m & L'); [discriminate|]);
        specialize (Free _ _ L'); congruence.
    + reflexivity.
    + intros _. exists n. exact L.
    + discriminate.
    + intros _. apply (inv_tx_closed _ _ _ _ SI i Idle Hi). reflexivity.
    + discriminate.
    + eapply keeps_commits_same; eauto.
    + eapply keeps_runs_same; eauto.
  - rewrite (try_lock_refused _ _ _ _ T), set_locks_same. unchanged. assumption.
Qed.

Lemma keeps_ExecUnlock (ph : Phase) (f : error) (x : error) (s' : Server)
  (ph' : Phase) :
  ServerInv targetVersion phases s h ->
  phases !! i = Some ph ->
  next i targetVersion ph (ExecUnlock i (lockID_of targetVersion)) x = Some ph' ->
  serve (ExecUnlock i (lockID_of targetVersion)) f s = (x, s') ->
  ServerInv targetVersion (<[i := ph']> phases) s'
    (h ++ [Got i (ExecUnlock i (lockID_of targetVersion)) x]).
Proof.
  intros SI Hi. cbn. rewrite Nat.eqb_refl, Z.eqb_refl. cbn. intros Hn Hs.
  destruct ph; try discriminate. inversion Hn; subst.
  assert (Hs' : committed s' = committed s /\ open_tx s' = open_tx s)
    by (destruct f; inversion Hs; subst; auto).
  destruct Hs' as (C & O).
  apply (server_inv_solo phases s s' h _ i Held Idle SI Hi).
  - intros j phj Hj Hne.
    apply (others_idle phases s h i j Held phj SI Hi); auto; discriminate.
  - intros j _. rewrite O. reflexivity.
  - contradiction.
  - discriminate.
  - intros _. rewrite O. apply (inv_tx_closed _ _ _ _ SI i Held Hi). reflexivity.
  - discriminate.
  - eapply keeps_commits_same; eauto.
  - eapply keeps_runs_same; eauto.
Qed.

Lemma keeps_Begin (ph : Phase) (f : error) (x : Tx * error) (s' : Server)
  (ph' : Phase) :
  ServerInv targetVersion phases s h ->
  phases !! i = Some ph ->
  next i targetVersion ph (Begin i) x = Some ph' ->
  serve (Begin i) f s = (x, s') ->
  ServerInv targetVersion (<[i := ph']> phases) s' (h ++ [Got i (Begin i) x]).
Proof.
  intros SI Hi. cbn. rewrite Nat.eqb_refl. intros Hn Hs.
  destruct ph; try discriminate.
  destruct (inv_below _ _ _ _ SI i Checked Hi eq_refl) as (Hlt & Hrows).
  destruct f as [e|]; inversion Hs; subst x s'; cbn in Hn; inversion Hn; subst ph'.
  - apply (server_inv_solo phases s s h _ i Checked Held SI Hi).
    + intros j phj Hj Hne.
      apply (others_idle phases s h i j Checked phj SI Hi); auto; discriminate.
    + reflexivity.
    + intros _. apply (inv_lock _ _ _ _ SI i Checked Hi). discriminate.
    + discriminate.
    + intros _. apply (inv_tx_closed _ _ _ _ SI i Checked Hi). reflexivity.
    + discriminate.
    + eapply keeps_commits_same; eauto.
    + eapply keeps_runs_same; eauto.
  - apply (server_inv_solo phases s _ h _ i Checked Begun SI Hi).
    + intros j phj Hj Hne.
      apply (others_idle phases s h i j Checked phj SI Hi); auto; discriminate.
    + intros j Hne. cbn. apply lookup_insert_ne. auto.
    + intros _. apply (inv_lock _ _ _ _ SI i Checked Hi). discriminate.
    + intros _. exists (committed s). cbn. rewrite lookup_insert_eq.
      conjs; auto. discriminate.
    + discriminate.
    + intros _. cbn. auto.
    + eapply keeps_commits_same; eauto.
    + eapply keeps_runs_same; eauto.
Qed.


Lemma keeps_Call (ph : Phase) (upgradeFunc : Callback) (f : error) (x : error)
  (s' : Server) (ph' : Phase) :
  ServerInv targetVersion phases s h ->
  phases !! i = Some ph ->
  next i targetVersion ph (Call upgradeFunc (mkTx i)) x = Some ph' ->
  serve (Call upgradeFunc (mkTx i)) f s = (x, s') ->
  ServerInv targetVersion (<[i := ph']> phases) s'
    (h ++ [Got i (Call upgradeFunc (mkTx i)) x]).
Proof.
  intros SI Hi. cbn. rewrite Nat.eqb_refl. intros Hn Hs.
  destruct ph; try discriminate. inversion Hn; subst ph'.
  destruct (inv_tx_open _ _ _ _ SI i Begun Hi eq_refl) as (c & Hc & Hrows & _).
  rewrite Hc in Hs. destruct (upgradeFunc (app c)) as [a err].
  inversion Hs; subst x s'.
  apply (server_inv_solo phases s _ h _ i Begun Called SI Hi).
  - intros j phj Hj Hne.
    apply (others_idle phases s h i j Begun phj SI Hi); auto; discriminate.
  - intros j Hne. cbn. apply lookup_insert_ne. auto.
  - intros _. apply (inv_lock _ _ _ _ SI i Begun Hi). discriminate.
  - intros _. eexists. cbn. rewrite lookup_insert_eq.
    conjs; [reflexivity | exact Hrows | discriminate].
  - discriminate.
  - intros _. apply (inv_below _ _ _ _ SI i Begun Hi). reflexivity.
  - eapply keeps_commits_same; eauto.
  - rewrite !count_one. cbn [is_run is_commit is_abort]. rewrite !Nat.add_0_r.
    pose proof (count_insert has_run phases i Begun Called Hi) as CI. cbn in CI.
    rewrite (inv_runs _ _ _ _ SI). lia.
Qed.

Lemma keeps_TxExecUpdate (ph : Phase) (f : error) (x : error)
  (s' : Server) (ph' : Phase) :
  ServerInv targetVersion phases s h ->
  phases !! i = Some ph ->
  next i targetVersion ph (TxExecUpdate (mkTx i) targetVersion) x = Some ph' ->
  serve (TxExecUpdate (mkTx i) targetVersion) f s = (x, s') ->
  ServerInv targetVersion (<[i := ph']> phases) s'
    (h ++ [Got i (TxExecUpdate (mkTx i) targetVersion) x]).
Proof.
  intros SI Hi. cbn. rewrite Nat.eqb_refl, Z.eqb_refl. cbn. intros Hn Hs.
  destruct ph; try discriminate.
  destruct (inv_tx_open _ _ _ _ SI i Called Hi eq_refl) as (c & Hc & Hrows & _).
  rewrite Hc in Hs.
  destruct f as [e|]; inversion Hs; subst x s'; inversion Hn; subst ph'.
  - unchanged. assumption.
  - destruct (persisted_version_update targetVersion c Hrows) as (PV & NE).
    apply (server_inv_solo phases s _ h _ i Called Updated SI Hi).
    + intros j phj Hj Hne.
      apply (others_idle phases s h i j Called phj SI Hi); auto; discriminate.
    + intros j Hne. cbn. apply lookup_insert_ne. auto.
    + intros _. apply (inv_lock _ _ _ _ SI i Called Hi). discriminate.
    + intros _. eexists. cbn. rewrite lookup_insert_eq.
      conjs; [reflexivity | exact NE | intros _; exact PV].
    + discriminate.
    + intros _. apply (inv_below _ _ _ _ SI i Called Hi). reflexivity.
    + eapply keeps_commits_same; eauto.
    + eapply keeps_runs_same; eauto.
Qed.

Lemma keeps_Rollback (ph : Phase) (f : error) (x : error)
  (s' : Server) (ph' : Phase) :
  ServerInv targetVersion phases s h ->
  phases !! i = Some ph ->
  next i targetVersion ph (Rollback (mkTx i)) x = Some ph' ->
  serve (Rollback (mkTx i)) f s = (x, s') ->
  ServerInv targetVersion (<[i := ph']> phases) s' (h ++ [Got i (Rollback (mkTx i)) x]).
Proof.
  intros SI Hi. cbn. rewrite Nat.eqb_refl. intros Hn Hs.
  destruct ph; try discriminate. inversion Hn; subst ph'.
  destruct (inv_tx_open _ _ _ _ SI i Called Hi eq_refl) as (c & Hc & Hrows & _).
  rewrite Hc in Hs. inversion Hs; subst x s'.
  apply (server_inv_solo phases s _ h _ i Called Held SI Hi).
  - intros j phj Hj Hne.
    apply (others_idle phases s h i j Called phj SI Hi); auto; discriminate.
  - intros j Hne. cbn. apply lookup_delete_ne. auto.
  - intros _. apply (inv_lock _ _ _ _ SI i Called Hi). discriminate.
  - discriminate.
  - intros _. cbn. apply lookup_delete_eq.
  - discriminate.
  - eapply keeps_commits_same; eauto.
  - rewrite !count_one. cbn [is_run is_commit is_abort]. rewrite !Nat.add_0_r.
    pose proof (count_insert has_run phases i Called Held Hi) as CI. cbn in CI.
    rewrite (inv_runs _ _ _ _ SI). lia.
Qed.

Lemma keeps_Commit (ph : Phase) (f : error) (x : error)
  (s' : Server) (ph' : Phase) :
  ServerInv targetVersion phases s h ->
  phases !! i = Some ph ->
  next i targetVersion ph (Commit (mkTx i)) x = Some ph' ->
  serve (Commit (mkTx i)) f s = (x, s') ->
  ServerInv targetVersion (<[i := ph']> phases) s' (h ++ [Got i (Commit (mkTx i)) x]).
Proof.
  intros SI Hi. cbn. rewrite Nat.eqb_refl. intros Hn Hs.
  destruct ph; try discriminate. inversion Hn; subst ph'.
  destruct (inv_tx_open _ _ _ _ SI i Updated Hi eq_refl) as (c & Hc & Hrows & PV).
  specialize (PV eq_refl).
  destruct (inv_below _ _ _ _ SI i Updated Hi eq_refl) as (Hlt & _).
  pose proof (count_insert has_run phases i Updated Held Hi) as CI. cbn in CI.
  rewrite Hc in Hs. destruct f as [e|]; inversion Hs; subst x s'.
  - apply (server_inv_solo phases s _ h _ i Updated Held SI Hi).
    + intros j phj Hj Hne.
      apply (others_idle phases s h i j Updated phj SI Hi); auto; discriminate.
    + intros j Hne. cbn. apply lookup_delete_ne. auto.
    + intros _. apply (inv_lock _ _ _ _ SI i Updated Hi). discriminate.
    + discriminate.
    + intros _. cbn. apply lookup_delete_eq.
    + discriminate.
    + eapply keeps_commits_same; eauto.
    + rewrite !count_one. cbn [is_run is_commit is_abort]. rewrite !Nat.add_0_r.
      rewrite (inv_runs _ _ _ _ SI). lia.
  - apply (server_inv_solo phases s _ h _ i Updated Held SI Hi).
    + intros j phj Hj Hne.
      apply (others_idle phases s h i j Updated phj SI Hi); auto; discriminate.
    + intros j Hne. cbn. apply lookup_delete_ne. auto.
    + intros _. apply (inv_lock _ _ _ _ SI i Updated Hi). discriminate.
    + discriminate.
    + intros _. cbn. apply lookup_delete_eq.
    + discriminate.
    + right. rewrite count_one. cbn [is_commit].
      destruct (inv_commits _ _ _ _ SI) as [K|(_ & Hle & _)]; [|lia].
      rewrite K. cbn. conjs; [reflexivity | lia | exact Hrows].
    + rewrite !count_one. cbn [is_run is_commit is_abort]. rewrite !Nat.add_0_r.
      rewrite (inv_runs _ _ _ _ SI). lia.
Qed.

End Keeps.

(** Whatever an instance following the discipline asks, and whatever
    the server answers, the invariant is kept. *)
Lemma serve_keeps {X : Type} (phases : list Phase) (s : Server) (h : list Answered)
  (i : nat) (ph : Phase) (r : Request X) (f : error) (x : X) (s' : Server)
  (ph' : Phase) :
  ServerInv targetVersion phases s h ->
  phases !! i = Some ph ->
  next i targetVersion ph r x = Some ph' ->
  serve r f s = (x, s') ->
  ServerInv targetVersion (<[i := ph']> phases) s' (h ++ [Got i r x]).
Proof.
  intros SI Hi Hn Hs.
  destruct r as [db|db|db id|db id|db|g tx|tx v|tx|tx];
    try destruct tx as [db]; cbn [next tx_conn] in Hn.
  - destruct (Nat.eqb_spec db i) as [->|]; [|discriminate].
    eapply keeps_ExecInit; eassumption || (cbn; rewrite Nat.eqb_refl; exact Hn).
  - destruct (Nat.eqb_spec db i) as [->|]; [|discriminate].
    eapply keeps_QueryVersion; eassumption || (cbn; rewrite Nat.eqb_refl; exact Hn).
  - destruct (Nat.eqb_spec db i) as [->|]; [|discriminate].
    destruct (Z.eqb_spec id (lockID_of targetVersion)) as [->|]; [|discriminate].
    eapply keeps_QueryTryLock;
      eassumption || (cbn; rewrite Nat.eqb_refl, Z.eqb_refl; exact Hn).
  - destruct (Nat.eqb_spec db i) as [->|]; [|discriminate].
    destruct (Z.eqb_spec id (lockID_of targetVersion)) as [->|]; [|discriminate].
    eapply keeps_ExecUnlock;
      eassumption || (cbn; rewrite Nat.eqb_refl, Z.eqb_refl; exact Hn).
  - destruct (Nat.eqb_spec db i) as [->|]; [|discriminate].
    eapply keeps_Begin; eassumption || (cbn; rewrite Nat.eqb_refl; exact Hn).
  - destruct (Nat.eqb_spec db i) as [->|]; [|discriminate].
    eapply keeps_Call; eassumption || (cbn; rewrite Nat.eqb_refl; exact Hn).
  - destruct (Nat.eqb_spec db i) as [->|]; [|discriminate].
    destruct (Z.eqb_spec v targetVersion) as [->|]; [|discriminate].
    eapply keeps_TxExecUpdate;
      eassumption || (cbn; rewrite Nat.eqb_refl, Z.eqb_refl; exact Hn).
  - destruct (Nat.eqb_spec db i) as [->|]; [|discriminate].
    eapply keeps_Commit; eassumption || (cbn; rewrite Nat.eqb_refl; exact Hn).
  - destruct (Nat.eqb_spec db i) as [->|]; [|discriminate].
    eapply keeps_Rollback; eassumption || (cbn; rewrite Nat.eqb_refl; exact Hn).
Qed.

End Preservation.

(** ** Every run keeps the invariant *)

Lemma serve_plausible {X : Type} (r : Request X) (f : error) (s : Server)
  (x : X) (s' : Server) :
  serve r f s = (x, s') -> plausible r x.
Proof.
  destruct r; cbn; try (intros; exact I).
  destruct f; intros H; inversion H; reflexivity.
Qed.

Lemma step_length (c : Choice) (sys : System) :
  length (procs (step c sys)) = length (procs sys).
Proof.
  unfold step. destruct (procs sys !! who c) as [[a| |X op k]|]; try reflexivity.
  destruct (advance c op (srv sys)) as [[x s] evs]. cbn. apply length_insert.
Qed.

Lemma exec_length (cs : list Choice) (sys : System) :
  length (procs (exec cs sys)) = length (procs sys).
Proof.
  revert sys. induction cs as [|c cs IH]; intros sys; [reflexivity|].
  cbn. unfold exec in IH. rewrite IH. apply step_length.
Qed.

Section Runs.

Variable targetVersion : Z.

(** An instance moves on: its program and its phase change together. *)
Lemma inv_move (phases : list Phase) (sys : System) (i : nat) (ph' : Phase)
  (p' : Prog error) (s' : Server) (h' : list Answered) :
  Inv targetVersion phases sys ->
  (i < length phases)%nat ->
  follows i targetVersion returns_idle ph' p' ->
  ServerInv targetVersion (<[i := ph']> phases) s' h' ->
  Inv targetVersion (<[i := ph']> phases) (mkSystem s' (<[i := p']> (procs sys)) h').
Proof.
  intros [Len Fol SI] Hlt Fp SI'. constructor; cbn.
  - rewrite !length_insert. assumption.
  - intros j p ph Hp Hph. destruct (decide (j = i)) as [->|Hne].
    + rewrite list_lookup_insert_eq in Hp by (rewrite <- Len; assumption).
      rewrite list_lookup_insert_eq in Hph by assumption.
      inversion Hp; inversion Hph; subst. assumption.
    + rewrite list_lookup_insert_ne in Hp by auto.
      rewrite list_lookup_insert_ne in Hph by auto.
      eapply Fol; eassumption.
  - assumption.
Qed.

Lemma step_keeps (phases : list Phase) (sys : System) (c : Choice) :
  Inv targetVersion phases sys ->
  exists phases', Inv targetVersion phases' (step c sys).
Proof.
  intros I. pose proof I as [Len Fol SI]. unfold step.
  destruct (procs sys !! who c) as [[a| |X op k]|] eqn:P; try (exists phases; assumption).
  assert (Hlt : (who c < length phases)%nat)
    by (rewrite Len; eapply lookup_lt_Some; eassumption).
  destruct (lookup_lt_is_Some_2 _ _ Hlt) as (ph & Hph).
  pose proof (Fol _ _ _ P Hph) as F. cbn in F.
  destruct op as [X r| |d|l]; cbn in F |- *.
  - destruct (serve r (failure c) (srv sys)) as [x s'] eqn:Hs.
    pose proof (serve_plausible _ _ _ _ _ Hs) as Hp.
    destruct (F x Hp) as (ph' & Hn & Fk).
    exists (<[who c := ph']> phases).
    apply inv_move; auto.
    eapply serve_keeps; eassumption.
  - exists phases. rewrite <- (list_insert_id phases (who c) ph Hph).
    apply inv_move; auto.
    rewrite list_insert_id by assumption. rewrite app_nil_r. assumption.
  - exists phases. rewrite <- (list_insert_id phases (who c) ph Hph).
    apply inv_move; auto.
    rewrite list_insert_id by assumption. rewrite app_nil_r. assumption.
  - exists phases. rewrite <- (list_insert_id phases (who c) ph Hph).
    apply inv_move; auto.
    rewrite list_insert_id by assumption. rewrite app_nil_r. assumption.
Qed.

Lemma exec_keeps (cs : list Choice) (phases : list Phase) (sys : System) :
  Inv targetVersion phases sys ->
  exists phases', Inv targetVersion phases' (exec cs sys).
Proof.
  revert phases sys. induction cs as [|c cs IH]; intros phases sys I.
  - exists phases. assumption.
  - destruct (step_keeps _ _ c I) as (phases1 & I1).
    apply (IH _ _ I1).
Qed.

Lemma count_replicate_idle (n : nat) : count has_run (replicate n Idle) = 0%nat.
Proof. induction n as [|n IH]; [reflexivity|]. exact IH. Qed.

Lemma boot_inv (s : Server) (insts : list Instance) :
  clean targetVersion (length insts) s ->
  Inv targetVersion (replicate (length insts) Idle) (boot s targetVersion insts).
Proof.
  intros (Lk & Tx). constructor; cbn.
  - rewrite length_replicate, length_imap. reflexivity.
  - intros i p ph Hp Hph. apply lookup_replicate in Hph. destruct Hph as (-> & Hlt).
    rewrite list_lookup_imap in Hp.
    destruct (insts !! i) as [a|]; [|discriminate].
    inversion Hp; subst. apply follows_UpgradeIfNeeded.
  - constructor.
    + intros i ph Hph Hn. apply lookup_replicate in Hph. tauto.
    + intros i ph Hph Hn. apply lookup_replicate in Hph.
      destruct Hph as (-> & _). discriminate.
    + intros i ph Hph _. apply lookup_replicate in Hph. apply Tx. tauto.
    + intros i ph Hph Hn. apply lookup_replicate in Hph.
      destruct Hph as (-> & _). discriminate.
    + left. reflexivity.
    + rewrite count_replicate_idle. reflexivity.
Qed.

End Runs.

(** ** Mutual exclusion and the count of runs *)

Lemma count_none {A : Type} (p : A -> bool) (l : list A) :
  (forall j y, l !! j = Some y -> p y = false) -> count p l = 0%nat.
Proof.
  induction l as [|a l IH]; intros H; [reflexivity|].
  unfold count in *. cbn. rewrite (H 0%nat a eq_refl).
  apply IH. intros j y Hj. apply (H (S j) y Hj).
Qed.

Lemma count_unique {A : Type} (p : A -> bool) (l : list A) :
  (forall i j x y, l !! i = Some x -> l !! j = Some y ->
                   p x = true -> p y = true -> i = j) ->
  (count p l <= 1)%nat.
Proof.
  induction l as [|a l IH]; intros H; [cbn; lia|].
  unfold count in *. cbn. destruct (p a) eqn:Pa; cbn.
  - assert (Z0 : length (List.filter p l) = 0%nat).
    { apply (count_none p l). intros j y Hj.
      destruct (p y) eqn:Py; [|reflexivity].
      specialize (H 0%nat (S j) a y eq_refl Hj Pa Py). discriminate. }
    rewrite Z0. lia.
  - apply IH. intros i j x y Hi Hj Px Py.
    specialize (H (S i) (S j) x y Hi Hj Px Py). congruence.
Qed.

Lemma count_some {A : Type} (p : A -> bool) (l : list A) :
  count p l <> 0%nat -> exists i x, l !! i = Some x /\ p x = true.
Proof.
  induction l as [|a l IH]; [cbn; congruence|].
  unfold count in *. cbn. destruct (p a) eqn:Pa.
  - intros _. exists 0%nat, a. auto.
  - intros H. destruct (IH H) as (i & x & Hi & Px). exists (S i), x. auto.
Qed.

(** C9, as the code has it. Any number of instances call
    [UpgradeIfNeeded] for the same target on the same server, each on a
    session of its own, and their requests are answered in any order,
    some of them failing. Then at every moment: the work of the
    callback has been committed at most once; the callback has run at
    most once more than the number of transactions that ended without
    effect (rolled back, or failed to commit), so at most once when none
    did; and at most one instance has its transaction open, the one
    that holds the advisory lock of [baseLockID + targetVersion]. *)
Theorem callback_committed_at_most_once
  (targetVersion : Z) (s : Server) (insts : list Instance) (cs : list Choice) :
  clean targetVersion (length insts) s ->
  (count is_commit (history (exec cs (boot s targetVersion insts))) <= 1)%nat
  /\ (count is_run (history (exec cs (boot s targetVersion insts)))
      <= 1 + count is_abort (history (exec cs (boot s targetVersion insts))))%nat
  /\ (forall i j c c',
        (i < length insts)%nat -> (j < length insts)%nat ->
        open_tx (srv (exec cs (boot s targetVersion insts))) !! i = Some c ->
        open_tx (srv (exec cs (boot s targetVersion insts))) !! j = Some c' ->
        i = j
        /\ exists n, locks (srv (exec cs (boot s targetVersion insts)))
                     !! lockID_of targetVersion = Some (i, n)).
Proof.
  intros Hclean.
  destruct (exec_keeps targetVersion cs _ _ (boot_inv targetVersion s insts Hclean))
    as (phases & [Len Fol SI]).
  pose proof (exec_length cs (boot s targetVersion insts)) as ELen.
  cbn in ELen. rewrite length_imap in ELen.
  remember (exec cs (boot s targetVersion insts)) as sys eqn:Hsys. clear Hsys.
  assert (Uniq : forall i j x y, phases !! i = Some x -> phases !! j = Some y ->
                 has_run x = true -> has_run y = true -> i = j).
  { intros i j x y Hi Hj Px Py. destruct (decide (j = i)) as [->|Hne]; [reflexivity|].
    assert (x <> Idle) by (destruct x; discriminate).
    pose proof (others_idle targetVersion phases _ _ i j x y SI Hi H Hj Hne) as ->.
    discriminate. }
  pose proof (count_unique has_run phases Uniq) as Hone.
  pose proof (inv_runs _ _ _ _ SI) as Runs.
  conjs.
  - destruct (inv_commits _ _ _ _ SI) as [K|(K & _)]; lia.
  - destruct (Nat.eq_dec (count has_run phases) 0%nat) as [Z0|NZ]; [|].
    + destruct (inv_commits _ _ _ _ SI) as [K|(K & _)]; lia.
    + destruct (count_some has_run phases NZ) as (i & x & Hi & Px).
      assert (Bx : below x = true) by (destruct x; try discriminate; reflexivity).
      destruct (inv_below _ _ _ _ SI i x Hi Bx) as (Hlt & _).
      destruct (inv_commits _ _ _ _ SI) as [K|(_ & Hle & _)]; lia.
  - intros i j c c' Hi Hj Oi Oj.
    assert (Ph : forall k d, (k < length insts)%nat ->
               open_tx (srv sys) !! k = Some d ->
               exists ph, phases !! k = Some ph /\ in_tx ph = true).
    { intros k d Hk Ok.
      destruct (lookup_lt_is_Some_2 phases k) as (ph & Hph); [lia|].
      exists ph. split; [assumption|].
      destruct (in_tx ph) eqn:E; [reflexivity|].
      rewrite (inv_tx_closed _ _ _ _ SI k ph Hph E) in Ok. discriminate. }
    destruct (Ph i c Hi Oi) as (phi & Hphi & Ti).
    destruct (Ph j c' Hj Oj) as (phj & Hphj & Tj).
    assert (Ni : phi <> Idle) by (destruct phi; discriminate).
    split.
    + destruct (decide (j = i)) as [->|Hne]; [reflexivity|].
      pose proof (others_idle targetVersion phases _ _ i j phi phj SI Hphi Ni Hphj Hne)
        as ->. discriminate.
    + apply (inv_lock _ _ _ _ SI i phi Hphi Ni).
Qed.

(** ** Concrete runs of two instances *)

Lemma fresh_server_clean (targetVersion : Z) (n : nat) :
  clean targetVersion n fresh_server.
Proof.
  split.
  - intros holder k H. cbn in H. rewrite lookup_empty in H. discriminate.
  - intros i _. cbn. apply lookup_empty.
Qed.

(** C9, as stated, fails when a run of the callback fails: instance 0
    runs the callback, which fails, rolls back and releases; instance 1
    then finds the version unchanged and runs the callback again. *)
Lemma callback_runs_twice_counterexample :
  clean 1 (length two_failing) fresh_server
  /\ count is_run (history (exec (solo 0 20 ++ solo 1 20)
                              (boot fresh_server 1 two_failing))) = 2%nat
  /\ count is_abort (history (exec (solo 0 20 ++ solo 1 20)
                                (boot fresh_server 1 two_failing))) = 2%nat
  /\ ~ (count is_run (history (exec (solo 0 20 ++ solo 1 20)
                                 (boot fresh_server 1 two_failing))) <= 1)%nat.
Proof.
  split; [apply fresh_server_clean|].
  assert (R : count is_run (history (exec (solo 0 20 ++ solo 1 20)
                                       (boot fresh_server 1 two_failing))) = 2%nat)
    by by_running.
  conjs; [exact R | by_running | rewrite R; lia].
Defined.

(** Two instances whose migration works, taking turns: one commit, one
    run of the callback, within the bounds of the theorem. *)
Lemma callback_committed_witness :
  count is_commit (history (exec (in_turns 20) (boot fresh_server 1 two_working))) = 1%nat
  /\ count is_run (history (exec (in_turns 20) (boot fresh_server 1 two_working))) = 1%nat
  /\ (count is_commit (history (exec (in_turns 20) (boot fresh_server 1 two_working)))
      <= 1)%nat
  /\ committed (srv (exec (in_turns 20) (boot fresh_server 1 two_working)))
     = mkContent [1] ["users"].
Proof.
  destruct (callback_committed_at_most_once 1 fresh_server two_working (in_turns 20)
              (fresh_server_clean 1 (length two_working)))
    as (C & _ & _).
  conjs; [by_running | by_running | exact C | by_running].
Defined.

(** * More about the package *)

(** ** The lock of a target *)

Lemma wrap_in_int (z : Z) : in_int (Go.wrap z).
Proof.
  unfold in_int, Go.wrap.
  change (2 ^ 63) with 9223372036854775808.
  change (2 ^ 64) with 18446744073709551616.
  pose proof (Z.mod_pos_bound (z + 9223372036854775808) 18446744073709551616).
  lia.
Qed.

Lemma wrap_small (z : Z) : in_int z -> Go.wrap z = z.
Proof.
  unfold in_int, Go.wrap.
  change (2 ^ 63) with 9223372036854775808.
  change (2 ^ 64) with 18446744073709551616.
  intros H. rewrite Z.mod_small by lia. lia.
Qed.

(** X1. The lock of a target is [baseLockID + targetVersion] in Go's
    [int]: it is that sum itself when the sum does not overflow, it is
    always an [int], and two targets that are [int]s and differ take
    different locks, overflow or not. Calls for different targets do
    not exclude one another. *)
Theorem lockID_of_injective (t1 t2 : Z) :
  in_int t1 -> in_int t2 ->
  in_int (lockID_of t1)
  /\ (in_int (baseLockID + t1) -> lockID_of t1 = baseLockID + t1)
  /\ (lockID_of t1 = lockID_of t2 -> t1 = t2).
Proof.
  intros H1 H2. conjs.
  - apply wrap_in_int.
  - apply wrap_small.
  - unfold lockID_of, Go.add, Go.wrap, in_int, baseLockID in *.
    change (2 ^ 63) with 9223372036854775808 in *.
    change (2 ^ 64) with 18446744073709551616 in *.
    intros E.
    pose proof (Z.div_mod (6877 + t1 + 9223372036854775808) 18446744073709551616
                  ltac:(lia)) as D1.
    pose proof (Z.div_mod (6877 + t2 + 9223372036854775808) 18446744073709551616
                  ltac:(lia)) as D2.
    pose proof (Z.mod_pos_bound (6877 + t1 + 9223372036854775808) 18446744073709551616
                  ltac:(lia)) as B1.
    pose proof (Z.mod_pos_bound (6877 + t2 + 9223372036854775808) 18446744073709551616
                  ltac:(lia)) as B2.
    lia.
Qed.

(** ** Reading the version *)

Lemma seed_idempotent (c : Content) : seed (seed c) = seed c.
Proof.
  destruct (seed_rows c) as (v & rows & R & _). apply (seed_seeded _ _ _ R).
Qed.

(** A version read in a quiet moment, as an equation. *)
Lemma getSchemaVersion_quiet (db : DB) (w : World) :
  fault (env w) (tick w) = None ->
  fault (env w) (S (tick w)) = None ->
  peer (env w) (tick w) = None ->
  peer (env w) (S (tick w)) = None ->
  run (getSchemaVersion db) w
  = Done (persisted_version (committed (server w)), None)
      (mkWorld (set_committed (seed (committed (server w))) (server w))
         (clock w) (S (S (tick w))) (env w)
         (trace w ++ [Sent (ExecInit db); Sent (QueryVersion db)])).
Proof.
  intros F0 F1 P0 P1.
  unfold getSchemaVersion. cbn. unfold request, arrive. cbn. rewrite F0, P0. cbn.
  unfold request, arrive. cbn. rewrite F1, P1. cbn.
  destruct (seed_rows (committed (server w))) as (v & rows & R & ->).
  rewrite R. cbn. rewrite <- app_assoc. reflexivity.
Qed.

(** X2. [getSchemaVersion] creates the table on first use and never
    touches it afterwards. With no failure and no peer at work, it
    returns the first row of the table, or 0 when there is none; a
    table with rows is left exactly as it is; a table without rows (or
    not created yet) gets the single row 0; the application's data, the
    locks and the transactions are not touched; and a second read right
    after returns the same version and changes nothing at all. *)
Theorem getSchemaVersion_seeds_once (db : DB) (w : World) :
  (forall n, (n < 4)%nat -> fault (env w) (n + tick w) = None) ->
  (forall n, (n < 4)%nat -> peer (env w) (n + tick w) = None) ->
  exists w1 w2,
    run (getSchemaVersion db) w
    = Done (persisted_version (committed (server w)), None) w1
    /\ (schema_version (committed (server w)) <> [] ->
        committed (server w1) = committed (server w))
    /\ (schema_version (committed (server w)) = [] ->
        schema_version (committed (server w1)) = [0])
    /\ app (committed (server w1)) = app (committed (server w))
    /\ locks (server w1) = locks (server w)
    /\ open_tx (server w1) = open_tx (server w)
    /\ run (getSchemaVersion db) w1
       = Done (persisted_version (committed (server w)), None) w2
    /\ server w2 = server w1.
Proof.
  intros F P.
  pose proof (F 0%nat ltac:(lia)) as F0. pose proof (F 1%nat ltac:(lia)) as F1.
  pose proof (F 2%nat ltac:(lia)) as F2. pose proof (F 3%nat ltac:(lia)) as F3.
  pose proof (P 0%nat ltac:(lia)) as P0. pose proof (P 1%nat ltac:(lia)) as P1.
  pose proof (P 2%nat ltac:(lia)) as P2. pose proof (P 3%nat ltac:(lia)) as P3.
  cbn in F0, F1, F2, F3, P0, P1, P2, P3.
  do 2 eexists. split; [apply getSchemaVersion_quiet; assumption|].
  conjs.
  - cbn. intros Hne.
    destruct (schema_version (committed (server w))) as [|v rows] eqn:R;
      [contradiction|]. apply (seed_seeded _ _ _ R).
  - cbn. intros He. unfold seed. rewrite He. reflexivity.
  - cbn. unfold seed. destruct (schema_version (committed (server w))); reflexivity.
  - reflexivity.
  - reflexivity.
  - rewrite getSchemaVersion_quiet by assumption. cbn.
    rewrite persisted_version_seed. reflexivity.
  - cbn. rewrite seed_idempotent. reflexivity.
Qed.

(** X3. The errors of [getSchemaVersion]. When the statement that
    creates and seeds the table fails, the version query is not sent,
    and the result is version 0 with the error of the failed
    initialisation; when that statement goes through and the query
    fails, the result is version 0 with the error of the failed query.
    In both cases the cause is kept inside the error. *)
Theorem getSchemaVersion_failures (db : DB) (w : World) (cause : Error) :
  (fault (env w) (tick w) = Some cause ->
   exists w1,
     run (getSchemaVersion db) w = Done (0, Some (InitError cause)) w1
     /\ since w w1 = [Sent (ExecInit db)]
     /\ committed (server w1) = seen w)
  /\ (fault (env w) (tick w) = None ->
      fault (env w) (S (tick w)) = Some cause ->
      exists w1,
        run (getSchemaVersion db) w = Done (0, Some (VersionQueryError cause)) w1
        /\ since w w1 = [Sent (ExecInit db); Sent (QueryVersion db)]).
Proof.
  split.
  - intros F0. unfold getSchemaVersion. cbn. unfold request, arrive. cbn. rewrite F0.
    eexists. split; [reflexivity|]. cbn. split.
    + apply since_app. reflexivity.
    + unfold seen. destruct (peer (env w) (tick w)); reflexivity.
  - intros F0 F1. unfold getSchemaVersion. cbn. unfold request, arrive. cbn.
    rewrite F0. cbn. unfold request, arrive. cbn. rewrite F1.
    eexists. split; [reflexivity|]. apply since_app. cbn.
    rewrite <- app_assoc. reflexivity.
Qed.
(** ** The transaction, whatever fails *)

Ltac tx_step := unfold request, arrive; cbn; rewrite ?lookup_insert_eq; cbn.

(** Every way [upgradeSchema] can end. *)
Lemma upgradeSchema_outcomes (db : DB) (newVersion : Z) (upgradeFunc : Callback)
  (w : World) :
  exists r w',
    run (upgradeSchema db newVersion upgradeFunc) w = Done r w'
    /\ locks (server w') = locks (server w)
    /\ clock w' = clock w
    /\ env w' = env w
    /\ (open_tx (server w') = open_tx (server w)
        \/ open_tx (server w') = delete db (open_tx (server w)))
    /\ ((r = None
         /\ snd (upgradeFunc (app (seen w))) = None
         /\ committed (server w')
            = update_version newVersion
                (mkContent (schema_version (seen w))
                           (fst (upgradeFunc (app (seen w)))))
         /\ since w w' = [Sent (Begin db); Sent (Call upgradeFunc (mkTx db));
                          Sent (TxExecUpdate (mkTx db) newVersion);
                          Sent (Commit (mkTx db))])
        \/ (exists cause, r = Some (BeginError cause)
              /\ committed (server w') = seen w
              /\ since w w' = [Sent (Begin db)])
        \/ (exists cause, r = Some (UpgradeExecutionError cause)
              /\ snd (upgradeFunc (app (seen w))) = Some cause
              /\ committed (server w') = seen w
              /\ since w w' = [Sent (Begin db); Sent (Call upgradeFunc (mkTx db));
                               Sent (Rollback (mkTx db))])
        \/ (exists cause, r = Some (VersionUpdateError cause)
              /\ committed (server w') = seen w
              /\ since w w' = [Sent (Begin db); Sent (Call upgradeFunc (mkTx db));
                               Sent (TxExecUpdate (mkTx db) newVersion);
                               Sent (Rollback (mkTx db))])
        \/ (exists cause, r = Some (CommitError cause)
              /\ committed (server w') = seen w
              /\ since w w' = [Sent (Begin db); Sent (Call upgradeFunc (mkTx db));
                               Sent (TxExecUpdate (mkTx db) newVersion);
                               Sent (Commit (mkTx db))])).
Proof.
  unfold upgradeSchema, seen. cbn. unfold request, arrive. cbn.
  set (c0 := match peer (env w) (tick w) with
             | Some p => commit_of p (committed (server w))
             | None => committed (server w)
             end).
  set (s0 := match peer (env w) (tick w) with
             | Some p => set_committed (commit_of p (committed (server w))) (server w)
             | None => server w
             end).
  assert (Arr : committed s0 = c0 /\ locks s0 = locks (server w)
                /\ open_tx s0 = open_tx (server w)).
  { subst s0 c0. destruct (peer (env w) (tick w)); cbn; auto. }
  destruct Arr as (Ac & Al & Ao). clearbody s0 c0.
  destruct (fault (env w) (tick w)) as [e0|]; cbn.
  { do 2 eexists. split; [reflexivity|]. cbn. conjs; auto.
    right; left. eexists. conjs; [reflexivity | assumption | apply since_app; reflexivity]. }
  tx_step. rewrite Ac.
  destruct (upgradeFunc (app c0)) as [a [e1|]] eqn:Hf; cbn.
  { tx_step. do 2 eexists. split; [reflexivity|]. cbn.
    rewrite !delete_insert_eq. conjs; auto.
    - right. congruence.
    - right; right; left. eexists.
      conjs; [reflexivity | reflexivity | assumption |].
      apply since_app. cbn. rewrite <- !app_assoc. reflexivity. }
  tx_step.
  destruct (fault (env w) (S (S (tick w)))) as [e2|]; cbn.
  { tx_step. do 2 eexists. split; [reflexivity|]. cbn.
    rewrite !delete_insert_eq. conjs; auto.
    - right. congruence.
    - right; right; right; left. eexists.
      conjs; [reflexivity | assumption |].
      apply since_app. cbn. rewrite <- !app_assoc. reflexivity. }
  tx_step.
  destruct (fault (env w) (S (S (S (tick w))))) as [e3|]; cbn.
  { do 2 eexists. split; [reflexivity|]. cbn.
    rewrite !delete_insert_eq. conjs; auto.
    - right. congruence.
    - right; right; right; right. eexists.
      conjs; [reflexivity | assumption |].
      apply since_app. cbn. rewrite <- !app_assoc. reflexivity. }
  do 2 eexists. split; [reflexivity|]. cbn.
  rewrite !delete_insert_eq. conjs; auto.
  - right. congruence.
  - left. conjs; [reflexivity | reflexivity | rewrite <- Ac; reflexivity |].
    apply since_app. cbn. rewrite <- !app_assoc. reflexivity.
Qed.

(** X4. The transaction of [upgradeSchema] is all or nothing, whatever
    fails and whatever a peer commits meanwhile. Called on a handle with
    no transaction open, it always returns, leaves no transaction open
    and touches no lock. When it returns nil, the callback has returned
    nil and the committed content is what the transaction found, with the
    callback's changes and every row of the version table at the target;
    when it returns an error, the committed content is what the
    transaction found, without any change of the callback, and the error
    is one of the four the function wraps: of [Begin], of the callback,
    of the update or of the commit. *)
Theorem upgradeSchema_all_or_nothing
  (db : DB) (newVersion : Z) (upgradeFunc : Callback) (w : World) :
  open_tx (server w) !! db = None ->
  exists r w',
    run (upgradeSchema db newVersion upgradeFunc) w = Done r w'
    /\ open_tx (server w') = open_tx (server w)
    /\ locks (server w') = locks (server w)
    /\ clock w' = clock w
    /\ (r = None ->
        snd (upgradeFunc (app (seen w))) = None
        /\ app (committed (server w')) = fst (upgradeFunc (app (seen w)))
        /\ Forall (fun v => v = newVersion) (schema_version (committed (server w')))
        /\ length (schema_version (committed (server w')))
           = length (schema_version (seen w))
        /\ (schema_version (seen w) <> [] ->
            persisted_version (committed (server w')) = newVersion))
    /\ (forall e, r = Some e ->
        committed (server w') = seen w
        /\ ((exists cause, e = BeginError cause)
            \/ (exists cause, e = UpgradeExecutionError cause
                              /\ snd (upgradeFunc (app (seen w))) = Some cause)
            \/ (exists cause, e = VersionUpdateError cause)
            \/ (exists cause, e = CommitError cause))).
Proof.
  intros Closed.
  destruct (upgradeSchema_outcomes db newVersion upgradeFunc w)
    as (r & w' & R & L & C & _ & O & Cases).
  exists r, w'. conjs; try assumption.
  - destruct O as [O|O]; [assumption|].
    rewrite O. apply delete_id. assumption.
  - intros ->.
    destruct Cases as [(_ & F & Cm & _)|[(c & E & _)|[(c & E & _)|[(c & E & _)|(c & E & _)]]]];
      try discriminate E.
    rewrite Cm. cbn. conjs.
    + assumption.
    + reflexivity.
    + apply List.Forall_forall. intros v In. apply in_map_iff in In.
      destruct In as (? & <- & _). reflexivity.
    + apply length_map.
    + intros Rows. apply (persisted_version_update newVersion
                            (mkContent (schema_version (seen w)) _) Rows).
  - intros e ->.
    destruct Cases as [(E & _)|[(c & E & Cm & _)|[(c & E & F & Cm & _)|[(c & E & Cm & _)|(c & E & Cm & _)]]]];
      try discriminate E; injection E as ->; split; try assumption.
    + left. eauto.
    + right; left. eauto.
    + right; right; left. eauto.
    + right; right; right. eauto.
Qed.

(** ** Errors of the reads, and the deferred release *)

Lemma UpgradeIfNeeded_first_read_error
  (fuel : nat) (db : DB) (targetVersion : Z) (upgradeFunc : Callback)
  (timeout : Z) (w : World) (x : Z) (e : Error) (w1 : World) :
  run (getSchemaVersion db) w = Done (x, Some e) w1 ->
  run (UpgradeIfNeeded fuel db targetVersion upgradeFunc timeout) w = Done (Some e) w1.
Proof.
  intros R. unfold UpgradeIfNeeded. rewrite run_bind, R. reflexivity.
Qed.

(** X5. When the first read of the version fails, [UpgradeIfNeeded]
    returns the error of the read as it is and does nothing else: no
    lock is asked for, no transaction is begun, the clock is not read.
    The value 0 that comes with the error is not taken for a version. *)
Theorem first_read_failure_returns_at_once
  (fuel : nat) (db : DB) (targetVersion : Z) (upgradeFunc : Callback)
  (timeout : Z) (w : World) (x : Z) (e : Error) (w1 : World) :
  run (getSchemaVersion db) w = Done (x, Some e) w1 ->
  run (UpgradeIfNeeded fuel db targetVersion upgradeFunc timeout) w = Done (Some e) w1
  /\ ((since w w1 = [Sent (ExecInit db)] /\ exists cause, e = InitError cause)
      \/ (since w w1 = [Sent (ExecInit db); Sent (QueryVersion db)]
          /\ exists cause, e = VersionQueryError cause))
  /\ locks (server w1) = locks (server w)
  /\ open_tx (server w1) = open_tx (server w)
  /\ clock w1 = clock w.
Proof.
  intros R.
  destruct (getSchemaVersion_frame db w) as (r & w1' & R' & L & O & C & _).
  rewrite R in R'. injection R' as <- <-.
  conjs; try assumption.
  - apply (UpgradeIfNeeded_first_read_error _ _ _ _ _ _ _ _ _ R).
  - destruct (getSchemaVersion_error _ _ _ _ _ R) as [(T & K)|(T & K)].
    + left. split; [apply since_app; exact T | exact K].
    + right. split; [apply since_app; exact T | exact K].
Qed.

(** Every way the part of [UpgradeIfNeeded] that runs under the lock can
    end. *)
Lemma upgradeLocked_outcomes
  (db : DB) (targetVersion : Z) (upgradeFunc : Callback) (w : World) :
  exists r w',
    run (upgradeLocked db targetVersion upgradeFunc) w = Done r w'
    /\ locks (server w') = locks (server w)
    /\ (open_tx (server w) !! db = None -> open_tx (server w') = open_tx (server w))
    /\ clock w' = clock w
    /\ env w' = env w
    /\ (forall e, r = Some e ->
        (exists cause, e = InitError cause)
        \/ (exists cause, e = VersionQueryError cause)
        \/ (exists cause, e = BeginError cause)
        \/ (exists cause, e = UpgradeExecutionError cause)
        \/ (exists cause, e = VersionUpdateError cause)
        \/ (exists cause, e = CommitError cause))
    /\ (r = None -> targetVersion <= persisted_version (committed (server w'))).
Proof.
  unfold upgradeLocked. rewrite run_bind.
  destruct (getSchemaVersion_frame db w) as ([v err] & w1 & R & L & O & C & E & _).
  rewrite R. destruct err as [e|].
  - do 2 eexists. split; [reflexivity|]. conjs; try assumption.
    + intros _. assumption.
    + intros e' [= <-].
      destruct (getSchemaVersion_error _ _ _ _ _ R) as [(_ & K)|(_ & K)]; auto.
    + discriminate.
  - destruct (getSchemaVersion_ok _ _ _ _ R) as (_ & _ & _ & _ & _ & _ & rest & Rows1).
    destruct (v >=? targetVersion) eqn:Ge.
    + do 2 eexists. split; [reflexivity|]. conjs; try assumption.
      * intros _. assumption.
      * intros e' [=].
      * intros _. unfold persisted_version. rewrite Rows1. lia.
    + cbn [run perform bind trigger]. rewrite run_bind.
      destruct (upgradeSchema_outcomes db targetVersion upgradeFunc w1)
        as (r & w2 & R2 & L2 & C2 & E2 & O2 & Cases).
      rewrite R2.
      assert (Fr : locks (server w2) = locks (server w)
                   /\ (open_tx (server w) !! db = None ->
                       open_tx (server w2) = open_tx (server w))
                   /\ clock w2 = clock w /\ env w2 = env w).
      { conjs; try congruence. intros Closed. rewrite <- O in Closed.
        destruct O2 as [O2|O2]; [congruence|].
        rewrite O2, delete_id by assumption. assumption. }
      destruct Fr as (F1 & F2 & F3 & F4).
      assert (Rows : schema_version (seen w1) <> []).
      { unfold seen. destruct (peer (env w1) (tick w1)) as [p|].
        - destruct (commit_of_rows p (committed (server w1))) as (rows & ->). discriminate.
        - rewrite Rows1. discriminate. }
      destruct r as [e|].
      * do 2 eexists. split; [reflexivity|]. conjs; try assumption.
        -- intros e' [= <-].
           destruct Cases as [(E' & _)|[(c & E' & _)|[(c & E' & _)|[(c & E' & _)|(c & E' & _)]]]];
             try discriminate E'; injection E' as ->; eauto 10.
        -- discriminate.
      * do 2 eexists. split; [reflexivity|]. conjs; try assumption.
        -- intros e' [=].
        -- intros _.
           destruct Cases as [(_ & _ & Cm & _)|[(c & E' & _)|[(c & E' & _)|[(c & E' & _)|(c & E' & _)]]]];
             try discriminate E'.
           rewrite Cm.
           destruct (persisted_version_update targetVersion
                       (mkContent (schema_version (seen w1))
                                  (fst (upgradeFunc (app (seen w1))))) Rows) as (-> & _).
           lia.
Qed.

(** X6. The release is deferred: once the lock has been granted, the
    unlock is the last statement [UpgradeIfNeeded] sends, on every path,
    and what the call returns is what the part under the lock returned.
    An error of the unlock is logged and dropped: the call never returns
    it, and the session then still holds the lock. When the unlock goes
    through, the lock table is as the call found it. *)
Theorem release_is_deferred_and_its_error_dropped
  (fuel : nat) (db : DB) (targetVersion : Z) (upgradeFunc : Callback)
  (timeout : Z) (w : World) (currentVersion : Z) (w1 w2 : World) :
  run (getSchemaVersion db) w = Done (currentVersion, None) w1 ->
  currentVersion < targetVersion ->
  run (acquireAdvisoryLock db (lockID_of targetVersion)) w1 = Done None w2 ->
  exists r w4 w5,
    run (upgradeLocked db targetVersion upgradeFunc) w2 = Done r w4
    /\ run (UpgradeIfNeeded fuel db targetVersion upgradeFunc timeout) w = Done r w5
    /\ trace w5 = trace w4 ++ [Sent (ExecUnlock db (lockID_of targetVersion))]
    /\ committed (server w5) = committed (server w4)
    /\ (open_tx (server w) !! db = None -> open_tx (server w5) = open_tx (server w))
    /\ (fault (env w4) (tick w4) = None -> locks (server w5) = locks (server w))
    /\ (forall cause, fault (env w4) (tick w4) = Some cause ->
        locks (server w5) = locks (server w2)
        /\ exists n, locks (server w5) !! lockID_of targetVersion = Some (db, n))
    /\ (forall cause, r <> Some (ReleaseError cause))
    /\ r <> Some LockHeldError.
Proof.
  intros R1 Lt R2.
  destruct (getSchemaVersion_ok _ _ _ _ R1) as (_ & _ & L1 & O1 & _).
  destruct (acquire_ok _ _ _ _ R2) as (_ & _ & O2 & TL).
  destruct (upgradeLocked_outcomes db targetVersion upgradeFunc w2)
    as (r & w4 & R4 & L4 & O4 & _ & _ & Kinds & _).
  exists r, w4.
  rewrite (UpgradeIfNeeded_acquired fuel _ _ upgradeFunc timeout _ _ _ _ R1 Lt R2), R4.
  rewrite release_spec.
  destruct (fault (env w4) (tick w4)) as [cause|] eqn:F.
  - eexists. split; [reflexivity|]. split; [reflexivity|]. cbn. conjs.
    + reflexivity.
    + reflexivity.
    + intros Closed. rewrite O4; congruence.
    + discriminate.
    + intros _ _. split; [assumption|]. rewrite L4.
      destruct (try_lock_granted _ _ _ _ TL) as (G & _). exact G.
    + intros c ->. destruct (Kinds _ eq_refl)
        as [(? & K)|[(? & K)|[(? & K)|[(? & K)|[(? & K)|(? & K)]]]]]; discriminate K.
    + intros ->. destruct (Kinds _ eq_refl)
        as [(? & K)|[(? & K)|[(? & K)|[(? & K)|[(? & K)|(? & K)]]]]]; discriminate K.
  - eexists. split; [reflexivity|]. split; [reflexivity|]. cbn. conjs.
    + reflexivity.
    + reflexivity.
    + intros Closed. rewrite O4; congruence.
    + intros _. rewrite L4, <- L1. apply (unlock_try_lock _ _ _ _ TL).
    + discriminate.
    + intros c ->. destruct (Kinds _ eq_refl)
        as [(? & K)|[(? & K)|[(? & K)|[(? & K)|[(? & K)|(? & K)]]]]]; discriminate K.
    + intros ->. destruct (Kinds _ eq_refl)
        as [(? & K)|[(? & K)|[(? & K)|[(? & K)|[(? & K)|(? & K)]]]]]; discriminate K.
Qed.

(** X7. When the read under the lock fails, [UpgradeIfNeeded] returns
    the error of the read, begins no transaction and does not run the
    callback, and still sends the unlock: the statements of the call are
    the first read, the lock request, the failed read and the unlock. *)
Theorem double_check_failure_releases
  (fuel : nat) (db : DB) (targetVersion : Z) (upgradeFunc : Callback)
  (timeout : Z) (w : World) (currentVersion : Z) (w1 w2 : World)
  (x : Z) (e : Error) (w3 : World) :
  run (getSchemaVersion db) w = Done (currentVersion, None) w1 ->
  currentVersion < targetVersion ->
  run (acquireAdvisoryLock db (lockID_of targetVersion)) w1 = Done None w2 ->
  run (getSchemaVersion db) w2 = Done (x, Some e) w3 ->
  exists w5,
    run (UpgradeIfNeeded fuel db targetVersion upgradeFunc timeout) w = Done (Some e) w5
    /\ (since w w5 = [Sent (ExecInit db); Sent (QueryVersion db);
                      Sent (QueryTryLock db (lockID_of targetVersion));
                      Sent (ExecInit db);
                      Sent (ExecUnlock db (lockID_of targetVersion))]
        \/ since w w5 = [Sent (ExecInit db); Sent (QueryVersion db);
                         Sent (QueryTryLock db (lockID_of targetVersion));
                         Sent (ExecInit db); Sent (QueryVersion db);
                         Sent (ExecUnlock db (lockID_of targetVersion))])
    /\ committed (server w5) = committed (server w3)
    /\ open_tx (server w5) = open_tx (server w)
    /\ (fault (env w3) (tick w3) = None -> locks (server w5) = locks (server w)).
Proof.
  intros R1 Lt R2 R3.
  destruct (getSchemaVersion_ok _ _ _ _ R1) as (T1 & _ & L1 & O1 & _).
  destruct (acquire_ok _ _ _ _ R2) as (W2 & _ & O2 & TL).
  destruct (getSchemaVersion_frame db w2) as (r3 & w3' & R3' & L3 & O3 & _).
  rewrite R3 in R3'. injection R3' as <- <-.
  rewrite (UpgradeIfNeeded_acquired fuel _ _ upgradeFunc timeout _ _ _ _ R1 Lt R2).
  unfold upgradeLocked. rewrite run_bind, R3. cbv beta iota.
  change (run (Ret (Some e)) w3) with (Done (Some e) w3). cbv beta iota.
  rewrite release_spec.
  assert (T2 : trace w2 = trace w ++ [Sent (ExecInit db); Sent (QueryVersion db);
                                      Sent (QueryTryLock db (lockID_of targetVersion))]).
  { rewrite W2. cbn. rewrite T1, <- app_assoc. reflexivity. }
  assert (Sn : forall l, trace w3 = trace w2 ++ l ->
               forall s, since w (sent (ExecUnlock db (lockID_of targetVersion)) s w3)
               = [Sent (ExecInit db); Sent (QueryVersion db);
                  Sent (QueryTryLock db (lockID_of targetVersion))]
                 ++ l ++ [Sent (ExecUnlock db (lockID_of targetVersion))]).
  { intros l T3 s. apply since_app. cbn. rewrite T3, T2, <- !app_assoc. reflexivity. }
  assert (Tr : forall s,
             since w (sent (ExecUnlock db (lockID_of targetVersion)) s w3)
             = [Sent (ExecInit db); Sent (QueryVersion db);
                Sent (QueryTryLock db (lockID_of targetVersion));
                Sent (ExecInit db);
                Sent (ExecUnlock db (lockID_of targetVersion))]
             \/ since w (sent (ExecUnlock db (lockID_of targetVersion)) s w3)
                = [Sent (ExecInit db); Sent (QueryVersion db);
                   Sent (QueryTryLock db (lockID_of targetVersion));
                   Sent (ExecInit db); Sent (QueryVersion db);
                   Sent (ExecUnlock db (lockID_of targetVersion))]).
  { intros s. destruct (getSchemaVersion_error _ _ _ _ _ R3) as [(T & _)|(T & _)].
    - left. apply (Sn _ T).
    - right. apply (Sn _ T). }
  destruct (fault (env w3) (tick w3)) as [cause|].
  - eexists. split; [reflexivity|]. conjs.
    + apply Tr.
    + reflexivity.
    + cbn. congruence.
    + discriminate.
  - eexists. split; [reflexivity|]. conjs.
    + apply Tr.
    + reflexivity.
    + cbn. congruence.
    + intros _. cbn. rewrite L3, <- L1. apply (unlock_try_lock _ _ _ _ TL).
Qed.

(** ** Waiting for a peer *)

(** A read in a moment without peers leaves a table that has rows as it
    is. *)
Lemma getSchemaVersion_committed (db : DB) (w : World) (r : Z * error) (w1 : World) :
  peer (env w) (tick w) = None ->
  peer (env w) (S (tick w)) = None ->
  schema_version (committed (server w)) <> [] ->
  run (getSchemaVersion db) w = Done r w1 ->
  committed (server w1) = committed (server w).
Proof.
  intros P0 P1 Rows.
  assert (Sd : seed (committed (server w)) = committed (server w)).
  { destruct (schema_version (committed (server w))) as [|v rows] eqn:E;
      [contradiction|]. apply (seed_seeded _ _ _ E). }
  unfold getSchemaVersion. cbn. unfold request, arrive. cbn.
  rewrite P0. destruct (fault (env w) (tick w)); cbn.
  - intros H; inversion H; reflexivity.
  - unfold request, arrive. cbn. rewrite P1.
    destruct (fault (env w) (S (tick w))); cbn.
    + intros H; inversion H; cbn. exact Sd.
    + destruct (schema_version (seed (committed (server w)))) eqn:E; cbn;
        intros H; inversion H; cbn; exact Sd.
Qed.

Section WaitShape.

Variables (db : DB) (targetVersion deadline timeout : Z).

(** One round of the wait, whatever the read returns. *)
Lemma poll_round (w : World) :
  exists v err w1 l1,
    run (getSchemaVersion db) (sleep checkInterval w) = Done (v, err) w1
    /\ trace w1 = trace w ++ l1
    /\ forallb is_poll l1 = true
    /\ count is_sleep l1 = 1%nat
    /\ count is_version_read l1 = 1%nat
    /\ locks (server w1) = locks (server w)
    /\ open_tx (server w1) = open_tx (server w)
    /\ clock w1 = clock w + checkInterval
    /\ env w1 = env w.
Proof.
  destruct (getSchemaVersion_frame db (sleep checkInterval w))
    as ([v err] & w1 & R & L & O & C & E & T).
  pose proof checkInterval_pos as Pos.
  cbn in L, O, C, E, T. rewrite Z.max_r in C by lia.
  exists v, err, w1.
  destruct T as [(T & _)|(T & _)]; rewrite <- app_assoc in T; cbn in T;
    eexists; (split; [exact R|]); (split; [exact T|]); conjs;
    try reflexivity; assumption.
Qed.

(** The shape of every wait that ends. *)
Lemma waitForPeer_shape (fuel : nat) (w : World) (r : error) (w' : World) :
  run (waitForPeer fuel db targetVersion deadline timeout) w = Done r w' ->
  exists l,
    trace w' = trace w ++ l
    /\ forallb is_poll l = true
    /\ locks (server w') = locks (server w)
    /\ open_tx (server w') = open_tx (server w)
    /\ clock w' = clock w + Z.of_nat (count is_sleep l) * checkInterval
    /\ count is_version_read l = count is_sleep l
    /\ (l = [] \/ clock w' < deadline + checkInterval)
    /\ (r = None -> targetVersion <= persisted_version (committed (server w'))
                    /\ l <> [])
    /\ (forall e, r = Some e ->
        (e = TimeoutError timeout /\ deadline <= clock w')
        \/ (exists cause, e = InitError cause)
        \/ (exists cause, e = VersionQueryError cause))
    /\ (peers_idle w -> schema_version (committed (server w)) <> [] ->
        committed (server w') = committed (server w)).
Proof.
  revert w. induction fuel as [|fuel IH]; intros w; [discriminate|].
  destruct (Z.le_gt_cases deadline (clock w)) as [Hd|Hd].
  - rewrite waitForPeer_timeout by assumption. intros [= <- <-].
    exists []. rewrite app_nil_r. cbn. conjs; auto; try lia.
    + discriminate.
    + intros e [= <-]. left. split; [reflexivity | assumption].
  - rewrite waitForPeer_round by lia.
    destruct (poll_round w) as (v & err & w1 & l1 & R & T & Pl & Sl & Rd & L & O & C & E).
    rewrite R.
    assert (Cm : peers_idle w -> schema_version (committed (server w)) <> [] ->
                 committed (server w1) = committed (server w)).
    { intros I Rows.
      apply (getSchemaVersion_committed db (sleep checkInterval w) _ _ (I _) (I _) Rows R). }
    assert (Here : forall r0, (r0 = None -> targetVersion <= persisted_version (committed (server w1))) ->
              (forall e, r0 = Some e ->
                 (exists cause, e = InitError cause)
                 \/ (exists cause, e = VersionQueryError cause)) ->
              Done r0 w1 = Done r w' ->
              exists l,
                trace w' = trace w ++ l
                /\ forallb is_poll l = true
                /\ locks (server w') = locks (server w)
                /\ open_tx (server w') = open_tx (server w)
                /\ clock w' = clock w + Z.of_nat (count is_sleep l) * checkInterval
                /\ count is_version_read l = count is_sleep l
                /\ (l = [] \/ clock w' < deadline + checkInterval)
                /\ (r = None -> targetVersion <= persisted_version (committed (server w'))
                                /\ l <> [])
                /\ (forall e, r = Some e ->
                    (e = TimeoutError timeout /\ deadline <= clock w')
                    \/ (exists cause, e = InitError cause)
                    \/ (exists cause, e = VersionQueryError cause))
                /\ (peers_idle w -> schema_version (committed (server w)) <> [] ->
                    committed (server w') = committed (server w))).
    { intros r0 Nil Err [= <- <-]. exists l1. conjs; try assumption.
      - rewrite C, Sl. lia.
      - congruence.
      - right. lia.
      - intros N. split; [auto|]. intros ->. discriminate Sl.
      - intros e Ee. right. apply (Err _ Ee). }
    destruct err as [e|].
    { apply Here; [discriminate|].
      intros e' [= <-].
      destruct (getSchemaVersion_error _ _ _ _ _ R) as [(_ & K)|(_ & K)]; auto. }
    destruct (getSchemaVersion_ok _ _ _ _ R) as (_ & _ & _ & _ & _ & _ & rest & Rows1).
    destruct (v >=? targetVersion) eqn:Ge.
    { apply Here; [|discriminate].
      intros _. unfold persisted_version. rewrite Rows1. lia. }
    intros Rn. destruct (IH w1 Rn) as (l & T' & Pl' & L' & O' & C' & Rd' & Last & Nil & Err & Cm').
    exists (l1 ++ l). conjs.
    + rewrite T', T, <- app_assoc. reflexivity.
    + rewrite forallb_app, Pl, Pl'. reflexivity.
    + congruence.
    + congruence.
    + rewrite C', C, count_app, Sl. lia.
    + rewrite !count_app, Rd, Sl, Rd'. reflexivity.
    + right. destruct Last as [->|Last]; [|assumption].
      rewrite C', C. cbn. lia.
    + intros N. destruct (Nil N) as (Nv & _). split; [assumption|].
      intros Eq. apply app_eq_nil in Eq. destruct Eq as (-> & _). discriminate Sl.
    + exact Err.
    + intros I Rows. rewrite Cm', (Cm I Rows).
      * reflexivity.
      * apply (peers_idle_env w); assumption.
      * rewrite (Cm I Rows). assumption.
Qed.

End WaitShape.

Section TimedWaitShape.

Variables (pc : Timed.Pace) (L O : Z).
Hypothesis HL0 : 0 <= L.
Hypothesis HO0 : 0 <= O.
Hypothesis HL : forall n, Timed.latency pc n <= L.
Hypothesis HO : forall n, Timed.oversleep pc n <= O.
Variables (db : DB) (targetVersion deadline timeout : Z).

(** The shape of every wait that ends, at a pace. *)
Lemma Timed_waitForPeer_shape (fuel : nat) (w : World) (r : error) (w' : World) :
  Timed.run pc (waitForPeer fuel db targetVersion deadline timeout) w = Done r w' ->
  exists l,
    trace w' = trace w ++ l
    /\ forallb is_poll l = true
    /\ locks (server w') = locks (server w)
    /\ open_tx (server w') = open_tx (server w)
    /\ clock w + Z.of_nat (count is_sleep l) * checkInterval <= clock w'
    /\ clock w' <= clock w + Z.of_nat (count is_sleep l) * (checkInterval + O + 2 * L)
    /\ count is_version_read l = count is_sleep l
    /\ (l = [] \/ clock w' < deadline + checkInterval + O + 2 * L)
    /\ (r = None -> targetVersion <= persisted_version (committed (server w'))
                    /\ l <> [])
    /\ (forall e, r = Some e ->
        (e = TimeoutError timeout /\ deadline <= clock w')
        \/ (exists cause, e = InitError cause)
        \/ (exists cause, e = VersionQueryError cause))
    /\ (peers_idle w -> schema_version (committed (server w)) <> [] ->
        committed (server w') = committed (server w)).
Proof.
  revert w. induction fuel as [|fuel IH]; intros w; [discriminate|].
  destruct (Z.le_gt_cases deadline (clock w)) as [Hd|Hd].
  - rewrite Timed_waitForPeer_timeout by assumption. intros [= <- <-].
    exists []. rewrite app_nil_r. cbn. conjs; auto; try lia.
    + discriminate.
    + intros e [= <-]. left. split; [reflexivity | assumption].
  - rewrite Timed_waitForPeer_round by lia.
    destruct (Timed_poll_round pc L O HL0 HO0 HL HO db w)
      as (v & err & ws & w1 & R & Rt & Sv & Tk & E & Lk & Op & C & l1 & T & Pl & Sl & Rd).
    rewrite Rt.
    assert (Cm : peers_idle w -> schema_version (committed (server w)) <> [] ->
                 committed (server w1) = committed (server w)).
    { intros I Rows. rewrite Sv.
      apply (getSchemaVersion_committed db (Timed.sleep pc checkInterval w) _ _
               (I _) (I _) Rows R). }
    assert (Here : forall r0,
              (r0 = None -> targetVersion <= persisted_version (committed (server w1))) ->
              (forall e, r0 = Some e ->
                 (exists cause, e = InitError cause)
                 \/ (exists cause, e = VersionQueryError cause)) ->
              Done r0 w1 = Done r w' ->
              exists l,
                trace w' = trace w ++ l
                /\ forallb is_poll l = true
                /\ locks (server w') = locks (server w)
                /\ open_tx (server w') = open_tx (server w)
                /\ clock w + Z.of_nat (count is_sleep l) * checkInterval <= clock w'
                /\ clock w' <= clock w + Z.of_nat (count is_sleep l)
                                         * (checkInterval + O + 2 * L)
                /\ count is_version_read l = count is_sleep l
                /\ (l = [] \/ clock w' < deadline + checkInterval + O + 2 * L)
                /\ (r = None -> targetVersion <= persisted_version (committed (server w'))
                                /\ l <> [])
                /\ (forall e, r = Some e ->
                    (e = TimeoutError timeout /\ deadline <= clock w')
                    \/ (exists cause, e = InitError cause)
                    \/ (exists cause, e = VersionQueryError cause))
                /\ (peers_idle w -> schema_version (committed (server w)) <> [] ->
                    committed (server w') = committed (server w))).
    { intros r0 Nil Err [= <- <-]. exists l1. conjs; try assumption.
      - rewrite Sl. lia.
      - rewrite Sl. lia.
      - congruence.
      - right. lia.
      - intros N. split; [auto|]. intros ->. discriminate Sl.
      - intros e Ee. right. apply (Err _ Ee). }
    destruct err as [e|].
    { apply Here; [discriminate|].
      intros e' [= <-].
      destruct (getSchemaVersion_error _ _ _ _ _ R) as [(_ & K)|(_ & K)]; auto. }
    destruct (getSchemaVersion_ok _ _ _ _ R) as (_ & _ & _ & _ & _ & _ & rest & Rows1).
    destruct (v >=? targetVersion) eqn:Ge.
    { apply Here; [|discriminate].
      intros _. rewrite Sv. unfold persisted_version. rewrite Rows1. lia. }
    intros Rn.
    destruct (IH w1 Rn)
      as (l & T' & Pl' & L' & O' & Clo & Chi & Rd' & Last & Nil & Err & Cm').
    exists (l1 ++ l). conjs.
    + rewrite T', T, <- app_assoc. reflexivity.
    + rewrite forallb_app, Pl, Pl'. reflexivity.
    + congruence.
    + congruence.
    + rewrite count_app, Sl. lia.
    + rewrite count_app, Sl. nia.
    + rewrite !count_app, Rd, Sl, Rd'. reflexivity.
    + right. destruct Last as [->|Last]; [|assumption].
      rewrite app_nil_r in T'. cbn in Chi. lia.
    + intros N. destruct (Nil N) as (Nv & _). split; [assumption|].
      intros Eq. apply app_eq_nil in Eq. destruct Eq as (-> & _). discriminate Sl.
    + exact Err.
    + intros I Rows. rewrite Cm', (Cm I Rows).
      * reflexivity.
      * apply (peers_idle_env w); assumption.
      * rewrite (Cm I Rows). assumption.
Qed.

End TimedWaitShape.

(** X8. A call that was not granted the lock only polls, at any pace.
    Whatever fails and whatever the peers commit, with rounds enough for
    its timeout it returns, and between the lock request and the return
    it has done nothing but sleep and read the version: as many reads
    as sleeps, no transaction, no callback, no lock taken or released;
    if no peer commits, the committed content is as it was. Each round
    takes one poll interval at least, and what the sleep overshoots and
    the two statements take at most more; and if the call slept at all,
    its last round began before the deadline, so it ends less than the
    longest round after it. The error of the lock request itself is
    never what the call returns. *)
Theorem waiting_call_only_polls
  (pc : Timed.Pace) (L O : Z)
  (fuel : nat) (db : DB) (targetVersion : Z) (upgradeFunc : Callback)
  (timeout : Z) (w : World) (e0 : Error) (w2 : World) :
  0 <= L -> 0 <= O ->
  (forall n, Timed.latency pc n <= L) ->
  (forall n, Timed.oversleep pc n <= O) ->
  timed_not_acquired pc db targetVersion w e0 w2 ->
  (1 <= fuel)%nat ->
  timeout <= (Z.of_nat fuel - 1) * checkInterval ->
  exists r w',
    Timed.run pc (UpgradeIfNeeded fuel db targetVersion upgradeFunc timeout) w = Done r w'
    /\ forallb is_poll (since w2 w') = true
    /\ count is_version_read (since w2 w') = count is_sleep (since w2 w')
    /\ clock w2 + Z.of_nat (count is_sleep (since w2 w')) * checkInterval <= clock w'
    /\ clock w' <= clock w2 + Z.of_nat (count is_sleep (since w2 w'))
                               * (checkInterval + O + 2 * L)
    /\ (since w2 w' = []
        \/ clock w' < clock w2 + timeout + checkInterval + O + 2 * L)
    /\ locks (server w') = locks (server w)
    /\ open_tx (server w') = open_tx (server w)
    /\ (peers_idle w -> committed (server w') = committed (server w2))
    /\ r <> Some e0.
Proof.
  intros L0 O0 HL HO N F B.
  destruct (timed_not_acquired_frame pc L _ _ _ _ _ L0 HL N)
    as (_ & _ & E2 & C2 & L2 & O2 & _ & Rows & K0).
  rewrite (Timed_UpgradeIfNeeded_not_acquired pc fuel db targetVersion upgradeFunc
             timeout _ _ _ N).
  destruct (Timed_waitForPeer_finishes pc L O L0 O0 HL HO db targetVersion
              (clock w2 + timeout) timeout fuel w2 F)
    as (r & w' & R); [lia|].
  exists r, w'. split; [exact R|].
  destruct (Timed_waitForPeer_shape pc L O L0 O0 HL HO _ _ _ _ _ _ _ _ R)
    as (l & T & Pl & Lk & Op & Clo & Chi & Rd & Last & _ & Err & Cm).
  rewrite (since_app w2 w' l T).
  conjs.
  - exact Pl.
  - exact Rd.
  - exact Clo.
  - exact Chi.
  - destruct Last as [->|Last]; [left; reflexivity | right; lia].
  - congruence.
  - congruence.
  - intros I. apply Cm.
    + apply (peers_idle_env w); assumption.
    + assumption.
  - intros ->.
    destruct (Err _ eq_refl) as [(-> & _)|[(c & ->)|(c & ->)]];
      destruct K0 as [(c0 & K0)|K0]; discriminate K0.
Qed.

(** X9. The wait ends as soon as a poll reads a version that has reached
    the target: after [k] polls that read less, the call returns nil in
    the world the next read left, having slept [k + 1] intervals. It has
    taken no lock, begun no transaction and not run its callback, and
    the version in the table is the one it read. *)
Theorem peer_upgrade_ends_wait
  (fuel : nat) (db : DB) (targetVersion : Z) (upgradeFunc : Callback)
  (timeout : Z) (w : World) (e0 : Error) (w2 : World)
  (k : nat) (wk : World) (latestVersion : Z) (w' : World) :
  not_acquired db targetVersion w e0 w2 ->
  nsteps (poll_miss db targetVersion (clock w2 + timeout)) k w2 wk ->
  clock wk < clock w2 + timeout ->
  run (getSchemaVersion db) (sleep checkInterval wk) = Done (latestVersion, None) w' ->
  targetVersion <= latestVersion ->
  (k < fuel)%nat ->
  run (UpgradeIfNeeded fuel db targetVersion upgradeFunc timeout) w = Done None w'
  /\ forallb is_poll (since w2 w') = true
  /\ count is_sleep (since w2 w') = S k
  /\ clock w' = clock w + Z.of_nat (S k) * checkInterval
  /\ since wk w' = [Slept checkInterval; Sent (ExecInit db); Sent (QueryVersion db)]
  /\ persisted_version (committed (server w')) = latestVersion
  /\ locks (server w') = locks (server w)
  /\ open_tx (server w') = open_tx (server w).
Proof.
  intros N M Hc Hr Ge Hk. pose proof N as [v0 w1 H1 Hlt H2].
  assert (Run : run (waitForPeer fuel db targetVersion (clock w2 + timeout) timeout) w2
                = Done None w').
  { replace fuel with (k + S (fuel - S k))%nat by lia.
    rewrite (waitForPeer_misses _ _ _ _ _ _ _ _ M).
    rewrite waitForPeer_round, Hr by assumption.
    destruct (Z.geb_spec latestVersion targetVersion); [reflexivity | lia]. }
  destruct (not_acquired_frame _ _ _ _ _ N) as (_ & _ & _ & C2 & L2 & O2 & _).
  destruct (poll_misses_frame _ _ _ _ _ _ M) as (lk & Tk & Slk & _ & Ck).
  destruct (getSchemaVersion_ok _ _ _ _ Hr) as (T' & _ & _ & _ & C' & _ & rest & Rows).
  cbn in T', C'. rewrite <- app_assoc in T'. cbn in T'.
  destruct (waitForPeer_shape _ _ _ _ _ _ _ _ Run)
    as (l & T & Pl & L & O & _).
  pose proof checkInterval_pos as Pos.
  conjs.
  - rewrite (UpgradeIfNeeded_not_acquired _ _ _ upgradeFunc timeout _ _ _ _ _ H1 Hlt H2).
    exact Run.
  - rewrite (since_app w2 w' l T). exact Pl.
  - rewrite (since_app w2 w'
               (lk ++ [Slept checkInterval; Sent (ExecInit db); Sent (QueryVersion db)]))
      by (rewrite T', Tk, <- app_assoc; reflexivity).
    rewrite count_app, Slk. cbn. lia.
  - rewrite C', Ck, C2, Z.max_r by lia. lia.
  - apply since_app. exact T'.
  - unfold persisted_version. rewrite Rows. reflexivity.
  - congruence.
  - congruence.
Qed.

(** ** What the result says *)

(** X10. What [UpgradeIfNeeded] returns tells the caller where the
    schema is. When it returns nil, the version in the table is at or
    above the target at that moment, on every path: read at once, read
    under the lock, committed by the call itself, or read while waiting.
    When it returns an error, the error is one of seven: of the two
    statements of a version read, the timeout, or one of the four of the
    transaction; the errors of the lock request and of the release are
    logged and never returned. *)
Theorem result_tells_the_outcome
  (fuel : nat) (db : DB) (targetVersion : Z) (upgradeFunc : Callback)
  (timeout : Z) (w : World) (r : error) (w' : World) :
  run (UpgradeIfNeeded fuel db targetVersion upgradeFunc timeout) w = Done r w' ->
  (r = None -> targetVersion <= persisted_version (committed (server w')))
  /\ (forall e, r = Some e -> returned_error timeout e)
  /\ r <> Some LockHeldError
  /\ (forall cause, r <> Some (LockCheckError cause))
  /\ (forall cause, r <> Some (ReleaseError cause)).
Proof.
  intros R.
  assert (Main : (r = None -> targetVersion <= persisted_version (committed (server w')))
                 /\ (forall e, r = Some e -> returned_error timeout e)).
  { unfold UpgradeIfNeeded in R. rewrite run_bind in R.
    destruct (getSchemaVersion_frame db w) as ([v err] & w1 & R1 & _).
    rewrite R1 in R. destruct err as [e1|].
    { injection R as <- <-. split; [discriminate|]. intros e [= <-].
      destruct (getSchemaVersion_error _ _ _ _ _ R1) as [(_ & c & ->)|(_ & c & ->)];
        constructor. }
    destruct (getSchemaVersion_ok _ _ _ _ R1) as (_ & _ & _ & _ & _ & _ & rest & Rows1).
    destruct (v >=? targetVersion) eqn:Ge.
    { cbn in R. injection R as <- <-. split; [|discriminate].
      intros _. unfold persisted_version. rewrite Rows1. lia. }
    cbv zeta in R. rewrite run_bind in R.
    destruct (acquire_frame db (Go.add baseLockID targetVersion) w1)
      as (ra & w2 & R2 & _).
    rewrite R2 in R. destruct ra as [ea|].
    - cbn [run perform bind trigger] in R.
      destruct (waitForPeer_shape _ _ _ _ _ _ _ _ R)
        as (l & _ & _ & _ & _ & _ & _ & _ & Nil & Err & _).
      split.
      + intros N. apply (Nil N).
      + intros e Ee.
        destruct (Err _ Ee) as [(-> & _)|[(c & ->)|(c & ->)]]; constructor.
    - rewrite run_bind in R.
      destruct (upgradeLocked_outcomes db targetVersion upgradeFunc w2)
        as (rl & w4 & R4 & _ & _ & _ & _ & Kinds & Nil).
      rewrite R4, run_bind, release_spec in R.
      assert (Eq : r = rl /\ committed (server w') = committed (server w4)).
      { destruct (fault (env w4) (tick w4)); cbn in R; injection R as <- <-;
          split; reflexivity. }
      destruct Eq as (-> & Cm). rewrite Cm. split; [exact Nil|].
      intros e Ee.
      destruct (Kinds _ Ee)
        as [(c & ->)|[(c & ->)|[(c & ->)|[(c & ->)|[(c & ->)|(c & ->)]]]]]; constructor. }
  destruct Main as (Nil & Err). conjs.
  - exact Nil.
  - exact Err.
  - intros ->. pose proof (Err _ eq_refl) as K. inversion K.
  - intros c ->. pose proof (Err _ eq_refl) as K. inversion K.
  - intros c ->. pose proof (Err _ eq_refl) as K. inversion K.
Qed.

(** ** The lock, taken and given back *)

Lemma unlock_not_held (db : DB) (id : Z) (l : gmap Z (DB * positive)) :
  (forall n, l !! id <> Some (db, n)) -> unlock db id l = l.
Proof.
  intros NH. unfold unlock. destruct (l !! id) as [[holder n]|] eqn:E; [|reflexivity].
  destruct (Nat.eqb_spec holder db) as [->|]; [|reflexivity].
  exfalso. apply (NH n). reflexivity.
Qed.

(** X11. [acquireAdvisoryLock] followed by [releaseAdvisoryLock] on the
    same handle, with no statement failing, leaves the lock table as it
    was, granted or not: a lock that was granted is given back, also
    when the session held it already, and a lock held by another
    session is not taken from it. The release of a lock the session does
    not hold returns nil all the same: the answer of the server is not
    looked at. *)
Theorem acquire_then_release_restores_locks (db : DB) (lockID : Z) (w : World) :
  fault (env w) (tick w) = None ->
  fault (env w) (S (tick w)) = None ->
  (exists r w2 w3,
      run (acquireAdvisoryLock db lockID) w = Done r w2
      /\ run (releaseAdvisoryLock db lockID) w2 = Done None w3
      /\ server w3 = server w
      /\ since w w3 = [Sent (QueryTryLock db lockID); Sent (ExecUnlock db lockID)]
      /\ (r = None <-> exists n, locks (server w2) !! lockID = Some (db, n)))
  /\ ((forall n, locks (server w) !! lockID <> Some (db, n)) ->
      run (releaseAdvisoryLock db lockID) w
      = Done None (sent (ExecUnlock db lockID) (server w) w)).
Proof.
  intros F0 F1. split.
  - destruct (try_lock db lockID (locks (server w))) as [granted l'] eqn:TL.
    assert (R : run (acquireAdvisoryLock db lockID) w
                = Done (if granted then None else Some LockHeldError)
                    (sent (QueryTryLock db lockID) (set_locks l' (server w)) w)).
    { unfold acquireAdvisoryLock. cbn. unfold request, arrive. cbn.
      rewrite F0. cbn. rewrite TL. destruct granted; reflexivity. }
    do 3 eexists. split; [exact R|].
    rewrite release_spec. cbn [env tick sent]. rewrite F1.
    split; [reflexivity|]. cbn [server sent].
    assert (Back : unlock db lockID l' = locks (server w)
                   /\ (granted = true <-> exists n, l' !! lockID = Some (db, n))).
    { destruct granted.
      - split; [apply (unlock_try_lock _ _ _ _ TL)|].
        split; [intros _; apply (try_lock_granted _ _ _ _ TL) | reflexivity].
      - pose proof (try_lock_refused _ _ _ _ TL) as ->.
        assert (NH : forall n, locks (server w) !! lockID <> Some (db, n)).
        { intros n E. unfold try_lock in TL. rewrite E, Nat.eqb_refl in TL.
          discriminate TL. }
        split; [apply (unlock_not_held _ _ _ NH)|].
        split; [discriminate|]. intros (n & E). destruct (NH n E). }
    destruct Back as (Back & Iff). conjs.
    + cbn. rewrite Back. destruct (server w); reflexivity.
    + apply since_app. cbn. rewrite <- app_assoc. reflexivity.
    + cbn. split.
      * intros N. apply Iff. destruct granted; [reflexivity | discriminate N].
      * intros H. apply Iff in H. rewrite H. reflexivity.
  - intros NH. rewrite release_spec, F0.
    rewrite (unlock_not_held _ _ _ NH), set_locks_same. reflexivity.
Qed.

(** ** The log *)

Lemma logged_bind {A B : Type} (m : Prog A) (k : A -> Prog B) (w : World) :
  logged (bind m k) w
  = logged m w ++ match run m w with
                  | Done a w' => logged (k a) w'
                  | Unfinished => []
                  end.
Proof.
  revert w. induction m as [a| |X op k0 IH]; intros w; cbn.
  - reflexivity.
  - reflexivity.
  - destruct (perform op w) as [x w1]. rewrite IH, app_assoc. reflexivity.
Qed.

Ltac in_log K := pose proof K; rewrite ?List.in_app_iff; cbn [In]; tauto.

Lemma getSchemaVersion_logs (db : DB) (w : World) (x : Z) (e : Error) (w1 : World) :
  run (getSchemaVersion db) w = Done (x, Some e) w1 ->
  In (Println [VErr e]) (logged (getSchemaVersion db) w).
Proof.
  unfold getSchemaVersion. exec.
  all: intros [= <-]; subst; cbn; auto.
Qed.

Lemma acquire_logs (db : DB) (lockID : Z) (w : World) (e : Error) (w2 : World) :
  run (acquireAdvisoryLock db lockID) w = Done (Some e) w2 ->
  In (Println [VErr e]) (logged (acquireAdvisoryLock db lockID) w).
Proof.
  unfold acquireAdvisoryLock. cbn. unfold request, arrive. cbn.
  destruct (fault (env w) (tick w)); cbn.
  - intros [= <- <-]. left. reflexivity.
  - destruct (try_lock db lockID (locks (server w))) as [[|] l]; cbn.
    + discriminate.
    + intros [= <- <-]. left. reflexivity.
Qed.

Lemma upgradeSchema_logs (db : DB) (newVersion : Z) (upgradeFunc : Callback)
  (w : World) (e : Error) (w' : World) :
  run (upgradeSchema db newVersion upgradeFunc) w = Done (Some e) w' ->
  In (Println [VErr e]) (logged (upgradeSchema db newVersion upgradeFunc) w).
Proof.
  unfold upgradeSchema. cbn. unfold request, arrive. cbn.
  destruct (fault (env w) (tick w)); cbn; [intros [= <- <-]; left; reflexivity|].
  tx_step.
  match goal with |- context [upgradeFunc ?a] => destruct (upgradeFunc a) as [a' [e1|]] end;
    cbn.
  { tx_step. intros [= <- <-]. left. reflexivity. }
  tx_step.
  destruct (fault (env w) (S (S (tick w)))); cbn.
  { tx_step. intros [= <- <-]. left. reflexivity. }
  tx_step.
  destruct (fault (env w) (S (S (S (tick w))))); cbn.
  { intros [= <- <-]. left. reflexivity. }
  discriminate.
Qed.

Lemma upgradeLocked_logs (db : DB) (targetVersion : Z) (upgradeFunc : Callback)
  (w : World) (e : Error) (w' : World) :
  run (upgradeLocked db targetVersion upgradeFunc) w = Done (Some e) w' ->
  In (Println [VErr e]) (logged (upgradeLocked db targetVersion upgradeFunc) w).
Proof.
  unfold upgradeLocked. rewrite run_bind, logged_bind.
  destruct (run (getSchemaVersion db) w) as [[v err] w1|] eqn:R1; [|discriminate].
  destruct err as [e1|].
  - intros [= <- <-]. in_log (getSchemaVersion_logs _ _ _ _ _ R1).
  - destruct (v >=? targetVersion); [discriminate|].
    cbn [run perform bind trigger logged log_of]. rewrite run_bind, logged_bind.
    destruct (run (upgradeSchema db targetVersion upgradeFunc) w1) as [[e2|] w2|] eqn:R2;
      try discriminate.
    intros [= <- <-]. in_log (upgradeSchema_logs _ _ _ _ _ _ R2).
Qed.

Lemma waitForPeer_logs (db : DB) (targetVersion deadline timeout : Z) (fuel : nat)
  (w : World) (e : Error) (w' : World) :
  run (waitForPeer fuel db targetVersion deadline timeout) w = Done (Some e) w' ->
  In (Println [VErr e]) (logged (waitForPeer fuel db targetVersion deadline timeout) w).
Proof.
  revert w. induction fuel as [|fuel IH]; intros w; [discriminate|].
  cbn [waitForPeer run perform bind trigger logged log_of].
  destruct (clock w <? deadline).
  - cbn [run perform bind trigger logged log_of]. rewrite run_bind, logged_bind.
    destruct (run (getSchemaVersion db) (sleep checkInterval w)) as [[v err] w1|] eqn:R1;
      [|discriminate].
    destruct err as [e1|].
    + intros [= <- <-]. in_log (getSchemaVersion_logs _ _ _ _ _ R1).
    + destruct (v >=? targetVersion); [discriminate|].
      intros R. in_log (IH _ R).
  - cbn. intros [= <- <-]. left. reflexivity.
Qed.

(** X12. Every error [UpgradeIfNeeded] returns has been written to the
    log during the call, as a line of its own. The error of the lock
    request is written too, followed by the line that another instance
    is handling the upgrade, although the call does not return it and
    may yet return nil. *)
Theorem returned_errors_are_logged
  (fuel : nat) (db : DB) (targetVersion : Z) (upgradeFunc : Callback)
  (timeout : Z) (w : World) :
  (forall e w',
      run (UpgradeIfNeeded fuel db targetVersion upgradeFunc timeout) w = Done (Some e) w' ->
      In (Println [VErr e])
         (logged (UpgradeIfNeeded fuel db targetVersion upgradeFunc timeout) w))
  /\ (forall e0 w2,
        not_acquired db targetVersion w e0 w2 ->
        exists before after,
          logged (UpgradeIfNeeded fuel db targetVersion upgradeFunc timeout) w
          = before ++ [Println [VErr e0];
                       Println [VStr "Another instance is handling the upgrade."]]
            ++ after).
Proof.
  split.
  - intros e w'. unfold UpgradeIfNeeded. rewrite run_bind, logged_bind.
    destruct (run (getSchemaVersion db) w) as [[v err] w1|] eqn:R1; [|discriminate].
    destruct err as [e1|].
    { intros [= <- <-]. in_log (getSchemaVersion_logs _ _ _ _ _ R1). }
    destruct (v >=? targetVersion); [discriminate|].
    cbv zeta. rewrite run_bind, logged_bind.
    destruct (run (acquireAdvisoryLock db (Go.add baseLockID targetVersion)) w1)
      as [[ea|] w2|] eqn:R2; [| |discriminate].
    + cbn [run perform bind trigger logged log_of].
      intros R. in_log (waitForPeer_logs _ _ _ _ _ _ _ _ R).
    + rewrite run_bind, logged_bind.
      destruct (run (upgradeLocked db targetVersion upgradeFunc) w2) as [rl w4|] eqn:R4;
        [|discriminate].
      rewrite run_bind, release_spec.
      intros R.
      assert (E : rl = Some e).
      { destruct (fault (env w4) (tick w4)); cbn in R; injection R as -> _; reflexivity. }
      subst rl. in_log (upgradeLocked_logs _ _ _ _ _ _ R4).
  - intros e0 w2 [v0 w1 R1 Lt R2].
    unfold UpgradeIfNeeded. rewrite logged_bind, R1.
    destruct (Z.geb_spec v0 targetVersion) as [|_]; [lia|].
    cbv zeta. rewrite logged_bind. fold (lockID_of targetVersion). rewrite R2.
    cbn [run perform bind trigger logged log_of].
    assert (La : logged (acquireAdvisoryLock db (lockID_of targetVersion)) w1
                 = [Println [VErr e0]]).
    { revert R2. unfold acquireAdvisoryLock. cbn. unfold request, arrive. cbn.
      destruct (fault (env w1) (tick w1)); cbn.
      - intros [= <- <-]. reflexivity.
      - destruct (try_lock db (lockID_of targetVersion) (locks (server w1))) as [[|] l]; cbn.
        + discriminate.
        + intros [= <- <-]. reflexivity. }
    rewrite La.
    exists (logged (getSchemaVersion db) w),
      (logged (waitForPeer fuel db targetVersion (clock w2 + timeout) timeout) w2).
    reflexivity.
Qed.
(** * More about several calls at once *)

Section MoreRuns.

Variable targetVersion : Z.

(** A request of a transaction is only made in a phase in which the
    version has been read below the target under the lock. *)
Lemma tx_request_phase {X : Type} (i : nat) (Q : error -> Phase -> Prop)
  (ph : Phase) (r : Request X) (k : X -> Prog error) :
  follows i targetVersion Q ph (Vis (Do r) k) ->
  is_tx_request r = true ->
  below ph = true.
Proof.
  intros F T. cbn in F.
  destruct r; try discriminate T.
  - destruct (F (mkTx db, None) eq_refl) as (ph' & N & _). cbn in N.
    destruct (Nat.eqb db i); [|discriminate]. destruct ph; try discriminate; reflexivity.
  - destruct (F None I) as (ph' & N & _). cbn in N.
    destruct (Nat.eqb (tx_conn tx) i); [|discriminate].
    destruct ph; try discriminate; reflexivity.
  - destruct (F None I) as (ph' & N & _). cbn in N.
    destruct (Nat.eqb (tx_conn tx) i && (newVersion =? targetVersion)); [|discriminate].
    destruct ph; try discriminate; reflexivity.
  - destruct (F None I) as (ph' & N & _). cbn in N.
    destruct (Nat.eqb (tx_conn tx) i); [|discriminate].
    destruct ph; try discriminate; reflexivity.
  - destruct (F None I) as (ph' & N & _). cbn in N.
    destruct (Nat.eqb (tx_conn tx) i); [|discriminate].
    destruct ph; try discriminate; reflexivity.
Qed.

(** One step either leaves the version in the table as it is or takes
    it from below the target to the target. *)
Lemma step_version (phases : list Phase) (sys : System) (c : Choice) :
  Inv targetVersion phases sys ->
  persisted_version (committed (srv (step c sys)))
  = persisted_version (committed (srv sys))
  \/ (persisted_version (committed (srv sys)) < targetVersion
      /\ persisted_version (committed (srv (step c sys))) = targetVersion).
Proof.
  intros [Len Fol SI]. unfold step.
  destruct (procs sys !! who c) as [[a| |X op k]|] eqn:P; try (left; reflexivity).
  assert (Hlt : (who c < length phases)%nat)
    by (rewrite Len; eapply lookup_lt_Some; eassumption).
  destruct (lookup_lt_is_Some_2 _ _ Hlt) as (ph & Hph).
  pose proof (Fol _ _ _ P Hph) as F. cbn in F.
  destruct op as [X r| |d|l]; cbn; try (left; reflexivity).
  destruct (serve r (failure c) (srv sys)) as [x s'] eqn:Hs. cbn.
  pose proof (serve_plausible _ _ _ _ _ Hs) as Hp.
  destruct (F x Hp) as (ph' & Hn & _).
  destruct r; cbn in Hs.
  - destruct (failure c); injection Hs as <- <-; left; [reflexivity|].
    apply persisted_version_seed.
  - destruct (failure c); [injection Hs as <- <-; left; reflexivity|].
    destruct (schema_version (committed (srv sys))); injection Hs as <- <-;
      left; reflexivity.
  - destruct (failure c); [injection Hs as <- <-; left; reflexivity|].
    destruct (try_lock db lockID (locks (srv sys))) as [acq l'].
    injection Hs as <- <-. left; reflexivity.
  - destruct (failure c); injection Hs as <- <-; left; reflexivity.
  - destruct (failure c); injection Hs as <- <-; left; reflexivity.
  - destruct (open_tx (srv sys) !! tx_conn tx) as [c0|];
      [|injection Hs as <- <-; left; reflexivity].
    destruct (upgradeFunc (app c0)) as [a err].
    injection Hs as <- <-. left; reflexivity.
  - destruct (open_tx (srv sys) !! tx_conn tx) as [c0|];
      [|injection Hs as <- <-; left; reflexivity].
    destruct (failure c); injection Hs as <- <-; left; reflexivity.
  - cbn in Hn. destruct (Nat.eqb_spec (tx_conn tx) (who c)) as [Eq|]; [|discriminate].
    destruct ph; try discriminate.
    destruct (inv_tx_open _ _ _ _ SI _ _ Hph eq_refl) as (c0 & O & _ & V).
    destruct (inv_below _ _ _ _ SI _ _ Hph eq_refl) as (Lt & _).
    rewrite Eq, O in Hs.
    destruct (failure c); injection Hs as <- <-; [left; reflexivity|].
    right. split; [assumption|]. cbn. apply V. reflexivity.
  - destruct (open_tx (srv sys) !! tx_conn tx) as [c0|];
      injection Hs as <- <-; left; reflexivity.
Qed.

Lemma exec_version (cs : list Choice) (phases : list Phase) (sys : System) :
  Inv targetVersion phases sys ->
  persisted_version (committed (srv (exec cs sys)))
  = persisted_version (committed (srv sys))
  \/ (persisted_version (committed (srv sys)) < targetVersion
      /\ persisted_version (committed (srv (exec cs sys))) = targetVersion).
Proof.
  revert phases sys. induction cs as [|c cs IH]; intros phases sys I.
  - left. reflexivity.
  - destruct (step_keeps _ _ _ c I) as (phases1 & I1).
    pose proof (step_version _ _ c I) as S1.
    pose proof (IH _ _ I1) as S2.
    change (exec (c :: cs) sys) with (exec cs (step c sys)).
    lia.
Qed.

End MoreRuns.

(** X13. With any number of instances calling for the same target at
    once, in any interleaving and whatever fails, the version in the
    table only ever makes one move: it is what it was when the calls
    began, or it was below the target then and is the target now. It
    never decreases, and once it has moved it stays. *)
Theorem version_moves_once_to_target
  (targetVersion : Z) (s : Server) (insts : list Instance) (cs1 cs2 : list Choice) :
  clean targetVersion (length insts) s ->
  (persisted_version (committed (srv (exec cs1 (boot s targetVersion insts))))
   = persisted_version (committed s)
   \/ (persisted_version (committed s) < targetVersion
       /\ persisted_version (committed (srv (exec cs1 (boot s targetVersion insts))))
          = targetVersion))
  /\ persisted_version (committed (srv (exec cs1 (boot s targetVersion insts))))
     <= persisted_version (committed (srv (exec (cs1 ++ cs2) (boot s targetVersion insts))))
  /\ (persisted_version (committed (srv (exec cs1 (boot s targetVersion insts))))
      <> persisted_version (committed s) ->
      persisted_version (committed (srv (exec (cs1 ++ cs2) (boot s targetVersion insts))))
      = targetVersion).
Proof.
  intros Hclean.
  pose proof (boot_inv targetVersion s insts Hclean) as I0.
  destruct (exec_keeps targetVersion cs1 _ _ I0) as (phases & I1).
  pose proof (exec_version targetVersion cs1 _ _ I0) as V1.
  pose proof (exec_version targetVersion cs2 _ _ I1) as V2.
  unfold exec in *. rewrite fold_left_app. cbn in V1.
  conjs; lia.
Qed.

(** X14. With any number of instances calling for the same target at
    once, an instance that is about to begin its transaction, to run its
    callback or to send a statement on its transaction holds the lock of
    the target, and the version in the table is below the target at that
    moment; an instance that has returned has no transaction open. *)
Theorem transactions_stay_under_the_lock
  (targetVersion : Z) (s : Server) (insts : list Instance) (cs : list Choice) :
  clean targetVersion (length insts) s ->
  (forall (i : nat) (X : Type) (r : Request X) (k : X -> Prog error),
      procs (exec cs (boot s targetVersion insts)) !! i = Some (Vis (Do r) k) ->
      is_tx_request r = true ->
      (exists n, locks (srv (exec cs (boot s targetVersion insts)))
                 !! lockID_of targetVersion = Some (i, n))
      /\ persisted_version (committed (srv (exec cs (boot s targetVersion insts))))
         < targetVersion)
  /\ (forall (i : nat) (r : error),
        procs (exec cs (boot s targetVersion insts)) !! i = Some (Ret r) ->
        open_tx (srv (exec cs (boot s targetVersion insts))) !! i = None).
Proof.
  intros Hclean.
  destruct (exec_keeps targetVersion cs _ _ (boot_inv targetVersion s insts Hclean))
    as (phases & [Len Fol SI]).
  remember (exec cs (boot s targetVersion insts)) as sys eqn:Hsys. clear Hsys.
  assert (Ph : forall i p, procs sys !! i = Some p ->
               exists ph, phases !! i = Some ph).
  { intros i p P. apply lookup_lt_is_Some_2. rewrite Len.
    eapply lookup_lt_Some; eassumption. }
  split.
  - intros i X r k P T.
    destruct (Ph _ _ P) as (ph & Hph).
    pose proof (tx_request_phase targetVersion i _ ph r k (Fol _ _ _ P Hph) T) as B.
    assert (N : ph <> Idle) by (intros ->; discriminate B).
    split.
    + apply (inv_lock _ _ _ _ SI i ph Hph N).
    + apply (inv_below _ _ _ _ SI i ph Hph B).
  - intros i r P.
    destruct (Ph _ _ P) as (ph & Hph).
    pose proof (Fol _ _ _ P Hph) as F. cbn in F. unfold returns_idle in F. subst ph.
    apply (inv_tx_closed _ _ _ _ SI i Idle Hph eq_refl).
Qed.
(** * The package at work, once more *)

(** Targets 1 and the largest [int]: the lock of target 1 is 6878, and
    the two locks differ although the second sum overflows. *)
Lemma lockID_of_injective_witness :
  in_int 1 /\ in_int 9223372036854775807
  /\ in_int (lockID_of 1)
  /\ lockID_of 1 = 6878
  /\ (lockID_of 1 = lockID_of 9223372036854775807 -> 1 = 9223372036854775807).
Proof.
  assert (A : in_int 1) by (unfold in_int; lia).
  assert (B : in_int 9223372036854775807) by (unfold in_int; lia).
  destruct (lockID_of_injective 1 9223372036854775807 A B) as (I & E & J).
  conjs; [exact A | exact B | exact I | | exact J].
  apply E. unfold in_int, baseLockID. lia.
Defined.

(** A fresh server: the first read seeds the table with one row 0, the
    second changes nothing. *)
Lemma getSchemaVersion_seeds_once_witness :
  exists w1 w2,
    run (getSchemaVersion 1) fresh_world = Done (0, None) w1
    /\ schema_version (committed (server w1)) = [0]
    /\ run (getSchemaVersion 1) w1 = Done (0, None) w2
    /\ server w2 = server w1.
Proof.
  destruct (getSchemaVersion_seeds_once 1 fresh_world
              (fun _ _ => eq_refl) (fun _ _ => eq_refl))
    as (w1 & w2 & R1 & _ & Sd & _ & _ & _ & R2 & Sv).
  exists w1, w2. conjs; [exact R1 | apply Sd; reflexivity | exact R2 | exact Sv].
Defined.

(** The server cannot be reached, or the version query fails: the two
    errors of a read, and the version 2 in the table not returned. *)
Lemma getSchemaVersion_failures_witness :
  (exists w1,
      run (getSchemaVersion 1) unreachable_world
      = Done (0, Some (InitError (External "connection refused"))) w1
      /\ since unreachable_world w1 = [Sent (ExecInit 1)])
  /\ (exists w1,
        run (getSchemaVersion 1) query_failing_world
        = Done (0, Some (VersionQueryError (External "connection reset"))) w1
        /\ since query_failing_world w1 = [Sent (ExecInit 1); Sent (QueryVersion 1)]).
Proof.
  split.
  - destruct (getSchemaVersion_failures 1 unreachable_world (External "connection refused"))
      as (F & _).
    destruct (F eq_refl) as (w1 & R & T & _). exists w1. split; assumption.
  - destruct (getSchemaVersion_failures 1 query_failing_world (External "connection reset"))
      as (_ & F).
    destruct (F eq_refl eq_refl) as (w1 & R & T). exists w1. split; assumption.
Defined.

(** Version 2 in the table, target 3: a migration that works commits
    version 3 and its table; one that fails leaves the content as it
    was. No transaction is left open either way. *)
Lemma upgradeSchema_all_or_nothing_witness :
  (exists w',
      run (upgradeSchema 1 3 create_users) upgraded_world = Done None w'
      /\ persisted_version (committed (server w')) = 3
      /\ app (committed (server w')) = ["users"; "users"]
      /\ open_tx (server w') = ∅)
  /\ (exists w',
        run (upgradeSchema 1 3 failing_migration) upgraded_world
        = Done (Some (UpgradeExecutionError (External "relation already exists"))) w'
        /\ committed (server w') = mkContent [2] ["users"]
        /\ open_tx (server w') = ∅).
Proof.
  split.
  - destruct (upgradeSchema_all_or_nothing 1 3 create_users upgraded_world eq_refl)
      as (r & w' & R & O & _ & _ & Nil & _).
    assert (E : r = None) by (pose proof R as R'; vm_compute in R'; injection R' as E1 _; symmetry; exact E1).
    subst r. destruct (Nil eq_refl) as (_ & A & _ & _ & V).
    exists w'. conjs; [exact R | apply V; discriminate | exact A | exact O].
  - destruct (upgradeSchema_all_or_nothing 1 3 failing_migration upgraded_world eq_refl)
      as (r & w' & R & O & _ & _ & _ & Err).
    assert (E : r = Some (UpgradeExecutionError (External "relation already exists")))
      by (pose proof R as R'; vm_compute in R'; injection R' as E1 _; symmetry; exact E1).
    subst r. destruct (Err _ eq_refl) as (C & _).
    exists w'. conjs; [exact R | exact C | exact O].
Defined.

(** The server cannot be reached: the call returns the error of its
    first statement, and that statement is all it sent. *)
Lemma first_read_failure_witness :
  exists w1,
    run (UpgradeIfNeeded 3 1 3 create_users (10 * second)) unreachable_world
    = Done (Some (InitError (External "connection refused"))) w1
    /\ since unreachable_world w1 = [Sent (ExecInit 1)]
    /\ locks (server w1) = ∅.
Proof.
  eassert (R1 : run (getSchemaVersion 1) unreachable_world
                = Done (0, Some (InitError (External "connection refused"))) _)
    by by_running.
  destruct (first_read_failure_returns_at_once 3 1 3 create_users (10 * second)
              _ _ _ _ R1) as (R & T & L & _).
  eexists. conjs; [exact R | | exact L].
  destruct T as [(T & _)|(T & _)]; [exact T | vm_compute in T; discriminate T].
Defined.

(** The unlock after an upgrade fails: the call returns nil all the
    same, the version is committed, and session 1 still holds the
    lock. *)
Lemma release_error_dropped_witness :
  exists w5,
    run (UpgradeIfNeeded 0 1 1 create_users (10 * second)) failing_release_world
    = Done None w5
    /\ committed (server w5) = mkContent [1] ["users"]
    /\ locks (server w5) !! lockID_of 1 = Some (1%nat, 1%positive).
Proof.
  eassert (R1 : run (getSchemaVersion 1) failing_release_world = Done (0, None) _)
    by by_running.
  match type of R1 with _ = Done _ ?w1 =>
    eassert (R2 : run (acquireAdvisoryLock 1 (lockID_of 1)) w1 = Done None _)
      by by_running
  end.
  destruct (release_is_deferred_and_its_error_dropped 0 1 1 create_users (10 * second)
              _ _ _ _ R1 ltac:(lia) R2)
    as (r & w4 & w5 & R4 & R & _ & C & _ & _ & Kept & _).
  assert (E : r = None /\ committed (server w4) = mkContent [1] ["users"]
              /\ fault (env w4) (tick w4) = Some (External "connection reset")).
  { pose proof R4 as R'. vm_compute in R'. injection R' as <- <-.
    conjs; reflexivity. }
  destruct E as (-> & C4 & F).
  destruct (Kept _ F) as (L & _).
  exists w5. conjs; [exact R | congruence | rewrite L; reflexivity].
Defined.

(** The read under the lock fails: the error of the read, no
    transaction, and the lock given back. *)
Lemma double_check_failure_witness :
  exists w5,
    run (UpgradeIfNeeded 0 1 1 create_users (10 * second)) failing_recheck_world
    = Done (Some (InitError (External "connection reset"))) w5
    /\ since failing_recheck_world w5
       = [Sent (ExecInit 1); Sent (QueryVersion 1);
          Sent (QueryTryLock 1 (lockID_of 1));
          Sent (ExecInit 1);
          Sent (ExecUnlock 1 (lockID_of 1))]
    /\ locks (server w5) = ∅.
Proof.
  eassert (R1 : run (getSchemaVersion 1) failing_recheck_world = Done (0, None) _)
    by by_running.
  match type of R1 with _ = Done _ ?w1 =>
    eassert (R2 : run (acquireAdvisoryLock 1 (lockID_of 1)) w1 = Done None _)
      by by_running
  end.
  match type of R2 with _ = Done _ ?w2 =>
    eassert (R3 : run (getSchemaVersion 1) w2
                  = Done (0, Some (InitError (External "connection reset"))) _)
      by by_running
  end.
  destruct (double_check_failure_releases 0 1 1 create_users (10 * second)
              _ _ _ _ _ _ _ R1 ltac:(lia) R2 R3)
    as (w5 & R & T & _ & _ & L).
  exists w5. conjs; [exact R | | apply L; reflexivity].
  destruct T as [T|T]; [exact T|].
  pose proof R as R'. vm_compute in R'. injection R' as <-.
  vm_compute in T. discriminate T.
Defined.

(** Session 2 holds the lock and never completes, and every statement
    takes a millisecond; timeout 10s: the call sleeps twice, reads
    twice, and returns 10.007s into it having touched nothing. *)
Lemma waiting_call_witness :
  exists r w2 w',
    Timed.run one_ms (UpgradeIfNeeded 3 1 1 create_users (10 * second)) contended_world
    = Done r w'
    /\ forallb is_poll (since w2 w') = true
    /\ count is_sleep (since w2 w') = 2%nat
    /\ clock w2 = 3 * millisecond
    /\ clock w' = 10 * second + 7 * millisecond
    /\ locks (server w') = locks (server contended_world)
    /\ r <> Some LockHeldError.
Proof.
  eassert (N : timed_not_acquired one_ms 1 1 contended_world LockHeldError _).
  { eapply TimedNotAcquired with (currentVersion := 0); [by_running | lia | by_running]. }
  destruct (waiting_call_only_polls one_ms millisecond 0 3 1 1 create_users (10 * second)
              _ _ _ ltac:(unfold millisecond; lia) (Z.le_refl 0)
              (fun _ => Z.le_refl _) (fun _ => Z.le_refl _) N
              ltac:(lia) ltac:(by_arith))
    as (r & w' & R & Pl & _ & _ & _ & _ & L & _ & _ & Ne).
  do 3 eexists. conjs; [exact R | exact Pl | | reflexivity | | exact L | exact Ne].
  - pose proof R as R'. vm_compute in R'. injection R' as <- <-. reflexivity.
  - pose proof R as R'. vm_compute in R'. injection R' as <- <-. reflexivity.
Defined.

(** Session 2 holds the lock and commits version 1 during the second
    poll interval: the call returns nil after two sleeps, at 10s, well
    before its timeout of 60s. *)
Lemma peer_upgrade_witness :
  exists w2 w',
    run (UpgradeIfNeeded 13 1 1 create_users (60 * second)) peer_upgrades_world
    = Done None w'
    /\ count is_sleep (since w2 w') = 2%nat
    /\ clock w' = 10 * second
    /\ persisted_version (committed (server w')) = 1
    /\ locks (server w') = locks (server peer_upgrades_world).
Proof.
  eassert (N : not_acquired 1 1 peer_upgrades_world LockHeldError _) by not_acquiring 0.
  match type of N with not_acquired _ _ _ _ ?w2 =>
    eassert (M : nsteps (poll_miss 1 1 (clock w2 + 60 * second)) 1 w2 _)
  end.
  { eapply nsteps_l; [|apply nsteps_O].
    eapply PollMiss with (latestVersion := 0); [reflexivity | by_running | lia]. }
  match type of M with nsteps _ _ _ ?wk =>
    eassert (F : run (getSchemaVersion 1) (sleep checkInterval wk) = Done (1, None) _)
      by by_running
  end.
  destruct (peer_upgrade_ends_wait 13 1 1 create_users (60 * second)
              _ _ _ 1 _ _ _ N M eq_refl F ltac:(lia) ltac:(lia))
    as (R & _ & S & C & _ & V & L & _).
  do 2 eexists. conjs; [exact R | exact S | exact C | exact V | exact L].
Defined.

(** A call on a fresh server returns nil, and the table is at the
    target. *)
Lemma result_witness :
  exists w',
    run (UpgradeIfNeeded 0 1 1 create_users (10 * second)) fresh_world = Done None w'
    /\ 1 <= persisted_version (committed (server w')).
Proof.
  eassert (R : run (UpgradeIfNeeded 0 1 1 create_users (10 * second)) fresh_world
               = Done None _) by by_running.
  destruct (result_tells_the_outcome 0 1 1 create_users (10 * second) _ _ _ R)
    as (Nil & _).
  eexists. split; [exact R | apply Nil; reflexivity].
Defined.

(** Session 2 holds the lock of target 1: session 1 is refused, its
    release returns nil, and session 2 still holds the lock. *)
Lemma acquire_then_release_witness :
  exists w2 w3,
    run (acquireAdvisoryLock 1 (lockID_of 1)) contended_world
    = Done (Some LockHeldError) w2
    /\ run (releaseAdvisoryLock 1 (lockID_of 1)) w2 = Done None w3
    /\ server w3 = contended_server.
Proof.
  destruct (acquire_then_release_restores_locks 1 (lockID_of 1) contended_world
              eq_refl eq_refl) as ((r & w2 & w3 & R2 & R3 & S & _) & _).
  assert (E : r = Some LockHeldError)
    by (pose proof R2 as R'; vm_compute in R'; injection R' as E1 _; symmetry; exact E1).
  subst r. exists w2, w3. conjs; [exact R2 | exact R3 | exact S].
Defined.

(** Two instances taking turns: the version is 0 after three steps each
    and 1 at the end. *)
Lemma version_moves_once_witness :
  persisted_version
    (committed (srv (exec (in_turns 3) (boot fresh_server 1 two_working)))) = 0
  /\ persisted_version
       (committed (srv (exec (in_turns 3 ++ in_turns 17)
                          (boot fresh_server 1 two_working)))) = 1
  /\ persisted_version
       (committed (srv (exec (in_turns 3) (boot fresh_server 1 two_working))))
     <= persisted_version
          (committed (srv (exec (in_turns 3 ++ in_turns 17)
                             (boot fresh_server 1 two_working)))).
Proof.
  destruct (version_moves_once_to_target 1 fresh_server two_working
              (in_turns 3) (in_turns 17) (fresh_server_clean 1 (length two_working)))
    as (_ & Le & _).
  conjs; [by_running | by_running | exact Le].
Defined.

(** Instance 0 alone, six steps in: it is about to begin its
    transaction, holds the lock, and the version is 0. *)
Lemma transactions_under_lock_witness :
  (exists k, procs (exec (solo 0 6) (boot fresh_server 1 two_working)) !! 0%nat
             = Some (Vis (Do (Begin 0)) k))
  /\ (exists n, locks (srv (exec (solo 0 6) (boot fresh_server 1 two_working)))
                !! lockID_of 1 = Some (0%nat, n))
  /\ persisted_version
       (committed (srv (exec (solo 0 6) (boot fresh_server 1 two_working)))) < 1.
Proof.
  eassert (P : procs (exec (solo 0 6) (boot fresh_server 1 two_working)) !! 0%nat
               = Some (Vis (Do (Begin 0)) _)) by by_running.
  destruct (transactions_stay_under_the_lock 1 fresh_server two_working (solo 0 6)
              (fresh_server_clean 1 (length two_working))) as (A & _).
  destruct (A _ _ _ _ P eq_refl) as (L & V).
  conjs; [eexists; exact P | exact L | exact V].
Defined.

(** Session 2 holds the lock and never completes: the log of the call
    has the error of the lock request, the line about the other
    instance, and the timeout error it returns. *)
Lemma returned_errors_logged_witness :
  exists w',
    run (UpgradeIfNeeded 3 1 1 create_users (10 * second)) contended_world
    = Done (Some (TimeoutError (10 * second))) w'
    /\ In (Println [VErr (TimeoutError (10 * second))])
          (logged (UpgradeIfNeeded 3 1 1 create_users (10 * second)) contended_world)
    /\ logged (UpgradeIfNeeded 3 1 1 create_users (10 * second)) contended_world
       = [Println [VErr LockHeldError];
          Println [VStr "Another instance is handling the upgrade."];
          Println [VErr (TimeoutError (10 * second))]].
Proof.
  eassert (R : run (UpgradeIfNeeded 3 1 1 create_users (10 * second)) contended_world
               = Done (Some (TimeoutError (10 * second))) _) by by_running.
  destruct (returned_errors_are_logged 3 1 1 create_users (10 * second) contended_world)
    as (A & _).
  eexists. conjs; [exact R | apply (A _ _ R) | by_running].
Defined.
